(** * Image Resizer: a shallow embedding of [image_resizer.py]

    The development follows the source file top to bottom:

    - [Py]: the Python values and exceptions the program manipulates
      (unbounded integers as [Z], floats as IEEE 754 binary64 through the
      Standard Library's executable specification [SpecFloat], exceptions
      as an error monad);
    - [PathName]: the parts of [pathlib] and [str] the program calls
      ([suffix], [stem], [lower], [upper]);
    - [Resizer]: the state of the class [ImageResizer], its constructor,
      and the abstract imaging library ([Codec]) its methods call;
    - [Methods]: the methods of [ImageResizer], one definition each;
    - [Cli]: the function [main], from the parsed arguments on;
    - [Spec]: the reference algorithm [computeSize] of the specification,
      section 4.2, to compare [calculate_new_size] with;
    - [Binary64], [Facts] and [Trace]: the vocabulary of the proofs (the
      real value of a float, rounding, what a run appends to the record of
      its calls and what that record shows).

    Then come the facts about binary64 rounding the proofs rest on, and the
    properties of the program. *)

From Stdlib Require Import ZArith Lia List Bool String Ascii SpecFloat.
From Stdlib Require Import Reals Lra.
From Stdlib Require Import Permutation.
Import ListNotations.

Local Open Scope Z_scope.

(** ** Python values *)

Module Py.

(** Exceptions the modelled code can raise.  [CodecError] stands for any
    [Exception] raised inside the imaging library or the file system
    ([UnidentifiedImageError], [OSError], the [ValueError] of [resize]...). *)
Inductive exn : Type :=
| ZeroDivisionError
| OverflowError
| ValueError
| CodecError.

Inductive result (A : Type) : Type :=
| Ok (a : A)
| Raise (e : exn).
Arguments Ok {A} a.
Arguments Raise {A} e.

Definition bind {A B : Type} (c : result A) (k : A -> result B) : result B :=
  match c with
  | Ok a => k a
  | Raise e => Raise e
  end.

Definition returns {A : Type} (c : result A) : bool :=
  match c with Ok _ => true | Raise _ => false end.

(** A Python [float] is a binary64 number. *)
Definition prec : Z := 53.
Definition emax : Z := 1024.
Definition float : Type := spec_float.

(** The exact value of an [int] as an unrounded (sign, mantissa, exponent 0)
    triple. *)
Definition exact_of_int (z : Z) : float :=
  match z with
  | Z0 => S754_zero false
  | Zpos p => S754_finite false p 0
  | Zneg p => S754_finite true p 0
  end.

Definition is_zero (x : float) : bool :=
  match x with S754_zero _ => true | _ => false end.

Definition overflow_check (x : float) : result float :=
  match x with
  | S754_infinity _ => Raise OverflowError
  | _ => Ok x
  end.

(** [float(z)], the conversion applied to the [int] operand of a mixed
    operation: round to nearest even, [OverflowError] when out of range. *)
Definition float_of_int (z : Z) : result float :=
  overflow_check (binary_normalize prec emax z 0 false).

(** [a / b] on two [int]s: the correctly rounded quotient. *)
Definition int_truediv (a b : Z) : result float :=
  if b =? 0 then Raise ZeroDivisionError
  else overflow_check (SFdiv prec emax (exact_of_int a) (exact_of_int b)).

(** [x / y] on two [float]s. *)
Definition float_truediv (x y : float) : result float :=
  if is_zero y then Raise ZeroDivisionError
  else Ok (SFdiv prec emax x y).

(** [x * y] on two [float]s. *)
Definition float_mul (x y : float) : result float :=
  Ok (SFmul prec emax x y).

(** [n / x] and [n * x] with [n] an [int] and [x] a [float]. *)
Definition int_div_float (n : Z) (x : float) : result float :=
  bind (float_of_int n) (fun fn => float_truediv fn x).

Definition int_mul_float (n : Z) (x : float) : result float :=
  bind (float_of_int n) (fun fn => float_mul fn x).

(** [int(x)]: truncation toward zero. *)
Definition int_of_float (x : float) : result Z :=
  match x with
  | S754_zero _ => Ok 0
  | S754_infinity _ => Raise OverflowError
  | S754_nan => Raise ValueError
  | S754_finite s m e =>
      let a := Z.shiftl (Zpos m) e in
      Ok (if s then - a else a)
  end.

End Py.

Notation "x <- c1 ;; c2" := (Py.bind c1 (fun x => c2))
  (at level 61, c1 at next level, right associativity).
Notation "' pat <- c1 ;; c2" :=
  (Py.bind c1 (fun x => match x with pat => c2 end))
  (at level 61, pat pattern, c1 at next level, right associativity).

(** ** File names

    Names are ASCII strings.  [suffix] and [stem] are those of
    [pathlib.PurePath] (the final component's last suffix, found with
    [rfind], empty for a leading or a trailing dot). *)

Module PathName.

Definition lower_char (c : ascii) : ascii :=
  let n := nat_of_ascii c in
  if ((65 <=? n) && (n <=? 90))%nat then ascii_of_nat (n + 32) else c.

Definition upper_char (c : ascii) : ascii :=
  let n := nat_of_ascii c in
  if ((97 <=? n) && (n <=? 122))%nat then ascii_of_nat (n - 32) else c.

Fixpoint lower (s : string) : string :=
  match s with
  | EmptyString => EmptyString
  | String c s' => String (lower_char c) (lower s')
  end.

Fixpoint upper (s : string) : string :=
  match s with
  | EmptyString => EmptyString
  | String c s' => String (upper_char c) (upper s')
  end.

(** [s.rfind(c)], with [None] for Python's [-1]. *)
Fixpoint rfind (c : ascii) (s : string) : option nat :=
  match s with
  | EmptyString => None
  | String a s' =>
      match rfind c s' with
      | Some i => Some (S i)
      | None => if Ascii.eqb a c then Some O else None
      end
  end.

Definition dot : ascii := "."%char.

Definition suffix (name : string) : string :=
  match rfind dot name with
  | Some i =>
      if ((0 <? i) && (i <? String.length name - 1))%nat
      then substring i (String.length name - i) name
      else EmptyString
  | None => EmptyString
  end.

Definition stem (name : string) : string :=
  match rfind dot name with
  | Some i =>
      if ((0 <? i) && (i <? String.length name - 1))%nat
      then substring 0 i name
      else name
  | None => name
  end.

(** [s[1:]] *)
Definition tail1 (s : string) : string :=
  match s with
  | EmptyString => EmptyString
  | String _ s' => s'
  end.

(** [folder / name] *)
Definition join (folder name : string) : string :=
  (folder ++ "/" ++ name)%string.

Definition str_in (s : string) (l : list string) : bool :=
  existsb (String.eqb s) l.

End PathName.

(** ** The class under verification *)

Module Resizer.
Import Py PathName.
Local Open Scope string_scope.

Definition SUPPORTED_FORMATS : list string :=
  [".jpg"; ".jpeg"; ".png"; ".gif"; ".bmp"; ".tiff"; ".webp"].

Record ImageResizer : Type := mkResizer {
  input_folder : string;
  output_folder : string;
  target_size : Z * Z;
  maintain_aspect_ratio : bool;
  output_format : option string;
  quality : Z;
  processed : Z;
  failed : Z;
  skipped : Z
}.

(** Truthiness of an optional string argument: [None] and [''] are false. *)
Definition nonempty (o : option string) : option string :=
  match o with
  | Some EmptyString => None
  | _ => o
  end.

(** [__init__], lines 29-52. *)
Definition init (input_folder : string) (output_folder : option string)
    (target_size : option (Z * Z)) (maintain_aspect_ratio : bool)
    (output_format : option string) (quality : Z) : ImageResizer :=
  {| input_folder := input_folder;
     output_folder :=
       match nonempty output_folder with
       | Some o => o
       | None => join input_folder "resized"
       end;
     target_size :=
       match target_size with
       | Some t => t
       | None => (800, 600)
       end;
     maintain_aspect_ratio := maintain_aspect_ratio;
     output_format := option_map lower (nonempty output_format);
     quality := quality;
     processed := 0;
     failed := 0;
     skipped := 0 |}.

Definition add_processed (self : ImageResizer) : ImageResizer :=
  {| input_folder := input_folder self;
     output_folder := output_folder self;
     target_size := target_size self;
     maintain_aspect_ratio := maintain_aspect_ratio self;
     output_format := output_format self;
     quality := quality self;
     processed := processed self + 1;
     failed := failed self;
     skipped := skipped self |}.

Definition add_failed (self : ImageResizer) : ImageResizer :=
  {| input_folder := input_folder self;
     output_folder := output_folder self;
     target_size := target_size self;
     maintain_aspect_ratio := maintain_aspect_ratio self;
     output_format := output_format self;
     quality := quality self;
     processed := processed self;
     failed := failed self + 1;
     skipped := skipped self |}.

(** *** The file system and the imaging library *)

Inductive entry_kind : Type := RegularFile | Directory | OtherEntry.

Record DirEntry : Type := mkEntry {
  entry_name : string;
  kind : entry_kind
}.

Definition is_file (e : DirEntry) : bool :=
  match kind e with RegularFile => true | _ => false end.

(** The calls the program makes outside itself. *)
Inductive codec_op : Type :=
| Mkdir (path : string)
| Open (path : string)
| NewBackground (size : Z * Z)
| ConvertRGBA
| SplitBands
| Paste (alpha_mask : bool)
| Resize (size : Z * Z)
| Save (path : string) (format : string) (jpeg_quality : option Z)
| GetSize (path : string).

(** What those calls answer: [decode] is what [Image.open] finds (size and
    mode, or an exception), [run] says which other calls raise. *)
Record Codec : Type := mkCodec {
  decode : string -> result ((Z * Z) * string);
  run : codec_op -> result unit
}.

(** Computations that call the outside: the calls made so far are
    recorded, an exception ends the computation. *)
Definition M (A : Type) : Type := list codec_op -> list codec_op * result A.

Definition ret {A : Type} (a : A) : M A := fun tr => (tr, Ok a).

Definition mbind {A B : Type} (c : M A) (k : A -> M B) : M B :=
  fun tr =>
    match c tr with
    | (tr', Ok a) => k a tr'
    | (tr', Raise e) => (tr', Raise e)
    end.

Definition lift {A : Type} (r : result A) : M A := fun tr => (tr, r).

Definition call (c : Codec) (op : codec_op) : M unit :=
  fun tr => ((tr ++ [op])%list, run c op).

Definition open_image (c : Codec) (path : string) : M ((Z * Z) * string) :=
  fun tr => ((tr ++ [Open path])%list, decode c path).

End Resizer.

Notation "x <~ c1 ;; c2" := (Resizer.mbind c1 (fun x => c2))
  (at level 61, c1 at next level, right associativity).
Notation "' pat <~ c1 ;; c2" :=
  (Resizer.mbind c1 (fun x => match x with pat => c2 end))
  (at level 61, pat pattern, c1 at next level, right associativity).
Notation "c1 ;;; c2" := (Resizer.mbind c1 (fun _ => c2))
  (at level 61, right associativity).

Module Methods.
Import Py PathName Resizer.
Local Open Scope string_scope.

(** [get_image_files], lines 59-68, on the listing [iterdir] yields. *)
Definition get_image_files (self : ImageResizer) (listing : list DirEntry)
  : list DirEntry :=
  fold_left
    (fun image_files file_path =>
       if is_file file_path
          && str_in (lower (suffix (entry_name file_path))) SUPPORTED_FORMATS
       then (image_files ++ [file_path])%list
       else image_files)
    listing [].

(** [calculate_new_size], lines 70-105. *)
Definition calculate_new_size (self : ImageResizer) (original_size : Z * Z)
  : result (Z * Z) :=
  if negb (maintain_aspect_ratio self) then Ok (target_size self)
  else
    let '(orig_width, orig_height) := original_size in
    let '(target_width, target_height) := target_size self in
    orig_ratio <- int_truediv orig_width orig_height ;;
    '(new_width, new_height) <-
      (if orig_width >? orig_height then
         q <- int_div_float target_width orig_ratio ;;
         h <- int_of_float q ;;
         Ok (target_width, h)
       else
         p <- int_mul_float target_height orig_ratio ;;
         w <- int_of_float p ;;
         Ok (w, target_height)) ;;
    '(new_width, new_height) <-
      (if new_height >? target_height then
         p <- int_mul_float target_height orig_ratio ;;
         w <- int_of_float p ;;
         Ok (w, target_height)
       else Ok (new_width, new_height)) ;;
    '(new_width, new_height) <-
      (if new_width >? target_width then
         q <- int_div_float target_width orig_ratio ;;
         h <- int_of_float q ;;
         Ok (target_width, h)
       else Ok (new_width, new_height)) ;;
    Ok (new_width, new_height).

(** Lines 122-129: the test that guards the white background, and the
    calls made under it.  The result is the mode of the image that goes
    on to be resized. *)
Definition needs_flatten (self : ImageResizer) (mode : string) : bool :=
  match output_format self with
  | Some f => str_in f ["jpg"; "jpeg"] && str_in mode ["RGBA"; "LA"; "P"]
  | None => false
  end.

Definition flatten (c : Codec) (size : Z * Z) (mode : string) : M string :=
  call c (NewBackground size) ;;;
  mode' <~ (if String.eqb mode "P"
            then call c ConvertRGBA ;;; ret "RGBA"
            else ret mode) ;;
  mask <~ (if String.eqb mode' "RGBA"
           then call c SplitBands ;;; ret true
           else ret false) ;;
  call c (Paste mask) ;;;
  ret "RGB".

(** Lines 137-140: [self.output_format or image_path.suffix[1:].lower()]
    and the name built from it. *)
Definition effective_format (self : ImageResizer) (image_name : string)
  : string :=
  match nonempty (output_format self) with
  | Some f => f
  | None => lower (tail1 (suffix image_name))
  end.

Definition output_filename (self : ImageResizer) (image_name : string)
  : string :=
  stem image_name ++ "." ++ effective_format self image_name.

(** Lines 119-158, the body of the [try]. *)
Definition resize_image_body (self : ImageResizer) (c : Codec)
    (image_name : string) : M unit :=
  let image_path := join (input_folder self) image_name in
  '(size, mode) <~ open_image c image_path ;;
  _mode <~ (if needs_flatten self mode
            then flatten c size mode
            else ret mode) ;;
  new_size <~ lift (calculate_new_size self size) ;;
  call c (Resize new_size) ;;;
  let output_format := effective_format self image_name in
  let output_path := join (output_folder self) (output_filename self image_name) in
  let save_quality :=
    if str_in output_format ["jpg"; "jpeg"] then Some (quality self) else None in
  call c (Save output_path (upper output_format) save_quality) ;;;
  call c (GetSize image_path) ;;;
  call c (GetSize output_path) ;;;
  ret tt.

(** [resize_image], lines 107-164: the body under [try], [except
    Exception].  Every exception of the model is an [Exception]; logging
    and the exit of the [with] block (closing the file) are taken not to
    raise. *)
Definition resize_image (self : ImageResizer) (c : Codec)
    (image_name : string) (tr : list codec_op)
  : ImageResizer * bool * list codec_op :=
  match resize_image_body self c image_name tr with
  | (tr', Ok _) => (add_processed self, true, tr')
  | (tr', Raise _) => (add_failed self, false, tr')
  end.

(** The file goes through the whole body of the [try]. *)
Definition completes (self : ImageResizer) (c : Codec) (e : DirEntry) : bool :=
  returns (snd (resize_image_body self c (entry_name e) [])).

(** The calls that build the white background. *)
Definition compositing (op : codec_op) : bool :=
  match op with
  | NewBackground _ | ConvertRGBA | SplitBands | Paste _ => true
  | _ => false
  end.

(** What [print_summary] logs, lines 195-205. *)
Inductive log_line : Type :=
| LogRule
| LogComplete
| LogProcessed (n : Z)
| LogFailed (n : Z)
| LogSkipped (n : Z)
| LogOutputFolder (path : string).

Definition print_summary (self : ImageResizer) : list log_line :=
  ([LogRule; LogComplete; LogRule; LogProcessed (processed self)]
   ++ (if failed self >? 0 then [LogFailed (failed self)] else [])
   ++ (if skipped self >? 0 then [LogSkipped (skipped self)] else [])
   ++ [LogOutputFolder (output_folder self)])%list.

(** The loop of lines 188-190. *)
Definition process_files (self : ImageResizer) (c : Codec)
    (image_files : list DirEntry) (tr : list codec_op)
  : ImageResizer * list codec_op :=
  fold_left
    (fun st image_path =>
       let '(self', _, tr') :=
         resize_image (fst st) c (entry_name image_path) (snd st) in
       (self', tr'))
    image_files (self, tr).

(** [process_batch], lines 166-193.  An exception of [mkdir] leaves the
    method; the summary is what the run logs at its end, empty when no
    image was found. *)
Definition process_batch (self : ImageResizer) (c : Codec)
    (listing : list DirEntry) : M (ImageResizer * list log_line) :=
  call c (Mkdir (output_folder self)) ;;;
  let image_files := get_image_files self listing in
  match image_files with
  | [] => ret (self, [])
  | _ =>
      fun tr =>
        let '(self', tr') := process_files self c image_files tr in
        (tr', Ok (self', print_summary self'))
  end.

(** A resizer as [main] builds it, with the other options at their
    defaults: input folder ["photos"], output in its ["resized"] subfolder,
    no format conversion, quality 85. *)
Definition box (width height : Z) : ImageResizer :=
  init "photos" None (Some (width, height)) true None 85.

End Methods.

(** ** The command line *)

Module Cli.
Import Py PathName Resizer Methods.
Local Open Scope string_scope.

(** What [parse_args] returns, lines 222-265. *)
Record Namespace : Type := mkNamespace {
  arg_input_folder : string;
  arg_output_folder : option string;
  arg_size : Z * Z;
  arg_output_format : option string;
  arg_quality : Z;
  arg_maintain_aspect_ratio : bool
}.

(** The [choices] of [--format], line 245. *)
Definition FORMAT_CHOICES : list string :=
  ["jpg"; "jpeg"; "png"; "gif"; "bmp"; "webp"].

(** The defaults of the parser: the arguments of a command line that gives
    the input folder only. *)
Definition default_args (input_folder : string) : Namespace :=
  {| arg_input_folder := input_folder;
     arg_output_folder := None;
     arg_size := (800, 600);
     arg_output_format := None;
     arg_quality := 85;
     arg_maintain_aspect_ratio := true |}.

(** What [main] and [get_image_files] ask of the file system. *)
Record FileSystem : Type := mkFileSystem {
  path_exists : string -> bool;
  path_isdir : string -> bool;
  iterdir : string -> list DirEntry
}.

(** [main] either returns, leaving the resizer and what the run logged at
    its end, or leaves through [sys.exit]. *)
Inductive outcome : Type :=
| Returned (resizer : ImageResizer) (summary : list log_line)
| SysExit (code : Z).

(** Lines 277-284: the instance [main] creates. *)
Definition make_resizer (args : Namespace) : ImageResizer :=
  init (arg_input_folder args) (arg_output_folder args)
       (Some (arg_size args)) (arg_maintain_aspect_ratio args)
       (arg_output_format args) (arg_quality args).

(** [main], lines 265-294, from the parsed arguments on.  The listing of a
    folder that passed the two checks is taken to succeed, and no
    [KeyboardInterrupt] to arrive. *)
Definition main (fs : FileSystem) (c : Codec) (args : Namespace)
  : list codec_op * outcome :=
  if negb (path_exists fs (arg_input_folder args)) then ([], SysExit 1)
  else if negb (path_isdir fs (arg_input_folder args)) then ([], SysExit 1)
  else
    let resizer := make_resizer args in
    match process_batch resizer c (iterdir fs (input_folder resizer)) [] with
    | (tr, Ok (resizer', summary)) => (tr, Returned resizer' summary)
    | (tr, Raise _) => (tr, SysExit 1)
    end.

End Cli.

(** ** The reference algorithm of the specification *)

Module Spec.
Import Py PathName Resizer.
Local Open Scope string_scope.

(** Section 4.1: the allow-list, and an extension compared without regard
    to case. *)
Definition ALLOWED_EXTENSIONS : list string :=
  ["jpg"; "jpeg"; "png"; "gif"; "bmp"; "tiff"; "webp"].

Definition extension (name : string) : string := tail1 (suffix name).

Definition eq_ignoring_case (a b : string) : bool :=
  String.eqb (lower a) (lower b).



Definition enumerated (e : DirEntry) : bool :=
  is_file e
  && existsb (eq_ignoring_case (extension (entry_name e))) ALLOWED_EXTENSIONS.

(** [floor] of a float. *)
Definition floor_of_float (x : float) : result Z :=
  match x with
  | S754_zero _ => Ok 0
  | S754_infinity _ => Raise OverflowError
  | S754_nan => Raise ValueError
  | S754_finite s m e => Ok (Z.shiftl (if s then Zneg m else Zpos m) e)
  end.

(** Section 4.2, [computeSize]: the ratio is a floating-point number, the
    axis is chosen by [original.w >= original.h], then the two clamps. *)
Definition computeSize (original target : Z * Z) (preserveAspect : bool)
  : result (Z * Z) :=
  if negb preserveAspect then Ok target
  else
    let '(ow, oh) := original in
    let '(tw, th) := target in
    ratio <- int_truediv ow oh ;;
    '(w, h) <-
      (if ow >=? oh then
         q <- int_div_float tw ratio ;;
         h <- floor_of_float q ;;
         Ok (tw, h)
       else
         p <- int_mul_float th ratio ;;
         w <- floor_of_float p ;;
         Ok (w, th)) ;;
    '(w, h) <-
      (if h >? th then
         p <- int_mul_float th ratio ;;
         w <- floor_of_float p ;;
         Ok (w, th)
       else Ok (w, h)) ;;
    '(w, h) <-
      (if w >? tw then
         q <- int_div_float tw ratio ;;
         h <- floor_of_float q ;;
         Ok (tw, h)
       else Ok (w, h)) ;;
    Ok (w, h).

End Spec.

(** ** Real values of binary64 numbers

    The vocabulary of the rounding facts below: the real number a mantissa
    and an exponent denote, the numbers binary64 represents exactly, and
    what it means for a float to be a rounding of a real. *)

Module Binary64.
Import Py.

Abbreviation fexp := (SpecFloat.fexp prec emax).

Definition bpow (e : Z) : R := powerRZ 2 e.

Definition F2R (m e : Z) : R := (IZR m * bpow e)%R.

(** Non-negative numbers with a mantissa of at most 53 bits above the
    smallest exponent. *)
Definition representable (c : R) : Prop :=
  exists k j, c = F2R k j /\ 0 <= k <= 2 ^ 53 /\ -1074 <= j.

(** [v] is on the same side as [x] of every representable number. *)
Definition rounds (x v : R) : Prop :=
  (forall c, representable c -> (c <= x)%R -> (c <= v)%R) /\
  (forall c, representable c -> (x <= c)%R -> (v <= c)%R).

(** The float [f] is the non-negative rounded value [v]: a zero, a finite
    number in canonical form, or the infinity that stands for a value past
    the range. *)
Definition encodes (f : float) (v : R) : Prop :=
  match f with
  | S754_zero false => v = 0%R
  | S754_finite false m e =>
      v = F2R (Zpos m) e /\ -1074 <= e /\ Zpos m < 2 ^ 53 /\
      (-1074 < e -> 2 ^ 52 <= Zpos m)
  | S754_infinity false => (bpow 1024 <= v)%R
  | _ => False
  end.

(** [f] is a finite non-negative float, in canonical form, of value [v]. *)
Definition denotes (f : float) (v : R) : Prop :=
  match f with
  | S754_infinity _ => False
  | _ => encodes f v
  end.

(** A normal number: its mantissa has all 53 bits. *)
Definition normal (f : float) : Prop :=
  match f with
  | S754_finite false m _ => 2 ^ 52 <= Zpos m
  | _ => False
  end.

(** Neither a negative number nor a negative zero or infinity. *)
Definition sign_ok (f : float) : Prop :=
  match f with
  | S754_finite true _ _ | S754_zero true | S754_infinity true => False
  | _ => True
  end.

(** A shift record that lost no bit. *)
Definition exact_rec (r : shr_record) : Prop :=
  shr_r r = false /\ shr_s r = false.

(** The float a non-negative rounded mantissa [m] at exponent [e] becomes. *)
Definition encode (m e : Z) : float :=
  if m =? 0 then S754_zero false
  else if m =? 2 ^ 53 then
    if e + 1 <=? 971 then S754_finite false (2 ^ 52) (e + 1)
    else S754_infinity false
  else if e <=? 971 then S754_finite false (Z.to_pos m) e
  else S754_infinity false.

End Binary64.

(** ** Vocabulary of the proofs *)

Module Facts.
Import Py Resizer.

(** [c] does not raise [ZeroDivisionError]. *)
Definition no_zde {A : Type} (c : result A) : Prop :=
  c <> Raise ZeroDivisionError.

(** A computation only adds to the record of calls, and its outcome does
    not depend on the calls made before it. *)
Definition appends {A : Type} (m : M A) : Prop :=
  forall tr, m tr = ((tr ++ fst (m []))%list, snd (m [])).

(** Every call a computation makes satisfies [P]. *)
Definition emits {A : Type} (P : codec_op -> Prop) (m : M A) : Prop :=
  forall op, In op (fst (m [])) -> P op.

(** The body reads the configuration, never the counters. *)
Definition same_config (a b : ImageResizer) : Prop :=
  input_folder a = input_folder b /\ output_folder a = output_folder b /\
  target_size a = target_size b /\
  maintain_aspect_ratio a = maintain_aspect_ratio b /\
  output_format a = output_format b /\ quality a = quality b.

End Facts.

(** ** What a record of calls shows *)

Module Trace.
Import Py PathName Resizer Methods.
Local Open Scope string_scope.

(** The paths given to [Image.open], in the order of the calls. *)
Definition opened (tr : list codec_op) : list string :=
  flat_map (fun op => match op with Open p => [p] | _ => [] end) tr.

(** The paths given to [save], in the order of the calls. *)
Definition saved (tr : list codec_op) : list string :=
  flat_map (fun op => match op with Save p _ _ => [p] | _ => [] end) tr.

(** The calls that follow the decoding of one image. *)
Definition after_open (op : codec_op) : bool :=
  match op with
  | Open _ | Mkdir _ => false
  | _ => true
  end.

(** What [resize_image] may call after the opening: no other opening, no
    [mkdir], and a single place to save to. *)
Definition follows_open (self : ImageResizer) (name : string)
    (op : codec_op) : Prop :=
  after_open op = true /\
  forall p f q, op = Save p f q ->
                p = join (output_folder self) (output_filename self name).

(** The calls of lines 135-152 for a file that goes through them all:
    [resize], [save] and the two [getsize]. *)
Definition resize_and_save (self : ImageResizer) (name : string)
    (new_size : Z * Z) : list codec_op :=
  let fmt := effective_format self name in
  let out := join (output_folder self) (output_filename self name) in
  [Resize new_size;
   Save out (upper fmt)
     (if str_in fmt ["jpg"; "jpeg"] then Some (quality self) else None);
   GetSize (join (input_folder self) name);
   GetSize out].

(** Nothing goes wrong for a file: it is decoded, the compositing calls
    succeed if it is flattened, its new size is computed, and the resizing,
    the saving and the two size queries succeed. *)
Definition goes_through (self : ImageResizer) (c : Codec) (name : string)
  : Prop :=
  exists size mode new_size,
    decode c (join (input_folder self) name) = Ok (size, mode) /\
    (needs_flatten self mode = true ->
     forall op, compositing op = true -> run c op = Ok tt) /\
    calculate_new_size self size = Ok new_size /\
    forall op, In op (resize_and_save self name new_size) -> run c op = Ok tt.

End Trace.

(** ** Facts about binary64 rounding *)

Section Binary64Facts.
Import Py Binary64.

Lemma bpow_gt_0 e : (0 < bpow e)%R.
Proof. apply powerRZ_lt; lra. Qed.

Lemma bpow_add a b : bpow (a + b) = (bpow a * bpow b)%R.
Proof. apply powerRZ_add; lra. Qed.

Lemma bpow_IZR n : 0 <= n -> bpow n = IZR (2 ^ n).
Proof.
  intros Hn. unfold bpow.
  destruct n as [|p|p]; [reflexivity| |lia].
  rewrite <- (positive_nat_Z p) at 2. rewrite <- pow_IZR. reflexivity.
Qed.

Lemma bpow_le a b : a <= b -> (bpow a <= bpow b)%R.
Proof.
  intros H. replace b with (a + (b - a)) by ring.
  rewrite bpow_add, (bpow_IZR (b - a)) by lia.
  assert (1 <= 2 ^ (b - a)) by (apply Z.pow_pos_nonneg || idtac; lia).
  apply IZR_le in H0. pose proof (bpow_gt_0 a). nra.
Qed.

Lemma bpow_0 : bpow 0 = 1%R.
Proof. reflexivity. Qed.

(** digits *)
Lemma digits2_pos_size p : digits2_pos p = Pos.size p.
Proof. induction p; simpl; congruence. Qed.

Lemma Zdigits2_upper m : 0 <= m -> m < 2 ^ Zdigits2 m.
Proof.
  destruct m as [|p|p]; cbn [Zdigits2]; intros; try lia.
  rewrite digits2_pos_size. pose proof (Pos.size_gt p).
  rewrite <- Pos2Z.inj_pow. lia.
Qed.

Lemma Zdigits2_lower m : 0 < m -> 2 ^ (Zdigits2 m - 1) <= m.
Proof.
  destruct m as [|p|p]; cbn [Zdigits2]; intros; try lia.
  rewrite digits2_pos_size. pose proof (Pos.size_le p).
  assert (2 ^ Z.pos (Pos.size p) <= 2 * Z.pos p).
  { rewrite <- Pos2Z.inj_pow. lia. }
  replace (Z.pos (Pos.size p)) with (Z.succ (Z.pos (Pos.size p) - 1)) in H1 by lia.
  rewrite Z.pow_succ_r in H1 by lia. lia.
Qed.

Lemma Zdigits2_nonneg m : 0 <= Zdigits2 m.
Proof. destruct m; simpl; lia. Qed.

Lemma Zdigits2_le_of_lt m k : 0 <= m -> 0 <= k -> m < 2 ^ k -> Zdigits2 m <= k.
Proof.
  intros Hm Hk H.
  destruct (Z.eq_dec m 0) as [->|]; [simpl; lia|].
  pose proof (Zdigits2_lower m ltac:(lia)).
  destruct (Z_le_gt_dec (Zdigits2 m) k); [assumption|].
  assert (2 ^ k <= 2 ^ (Zdigits2 m - 1)) by (apply Z.pow_le_mono_r; lia). lia.
Qed.

Lemma shr_1_spec r :
  0 <= shr_m r ->
  shr_m (shr_1 r) = shr_m r / 2 /\
  (exact_rec r -> shr_m r mod 2 = 0 -> exact_rec (shr_1 r)).
Proof.
  destruct r as [m rb sb]. unfold exact_rec. cbn [shr_m shr_r shr_s].
  destruct m as [|[p|p|]|p]; intros Hm; try lia; cbn [shr_1 shr_m shr_r shr_s].
  - split; [reflexivity|]. intros [-> ->] _. split; reflexivity.
  - split; [rewrite Pos2Z.inj_xI; Z.div_mod_to_equations; lia|].
    intros _ H. rewrite Pos2Z.inj_xI in H. Z.div_mod_to_equations. lia.
  - split; [rewrite Pos2Z.inj_xO; Z.div_mod_to_equations; lia|].
    intros [-> ->] _. split; reflexivity.
  - split; [reflexivity|]. intros _ H. discriminate H.
Qed.

Lemma iter_shr_spec p : forall r,
  0 <= shr_m r ->
  shr_m (SpecFloat.iter_pos shr_1 p r) = shr_m r / 2 ^ Zpos p /\
  (exact_rec r -> shr_m r mod 2 ^ Zpos p = 0 -> exact_rec (SpecFloat.iter_pos shr_1 p r)).
Proof.
  induction p as [p IH|p IH|]; intros r Hr; cbn [SpecFloat.iter_pos].
  - destruct (shr_1_spec r Hr) as [E1 X1].
    assert (H1 : 0 <= shr_m (shr_1 r)) by (rewrite E1; apply Z.div_pos; lia).
    destruct (IH _ H1) as [E2 X2].
    assert (H2 : 0 <= shr_m (SpecFloat.iter_pos shr_1 p (shr_1 r)))
      by (rewrite E2; apply Z.div_pos; [assumption|apply Z.pow_pos_nonneg; lia]).
    destruct (IH _ H2) as [E3 X3].
    assert (HP : 0 < 2 ^ Z.pos p) by (apply Z.pow_pos_nonneg; lia).
    assert (EP : 2 ^ Z.pos p~1 = 2 * (2 ^ Z.pos p * 2 ^ Z.pos p)).
    { replace (Z.pos p~1) with (1 + (Z.pos p + Z.pos p)) by lia.
      rewrite !Z.pow_add_r, Z.pow_1_r by lia. ring. }
    rewrite EP. split.
    + rewrite E3, E2, E1, !Z.div_div by lia. reflexivity.
    + intros Hx Hmod.
      rewrite Z.rem_mul_r in Hmod by lia.
      rewrite Z.rem_mul_r in Hmod by lia.
      pose proof (Z.mod_pos_bound (shr_m r) 2 ltac:(lia)).
      pose proof (Z.mod_pos_bound (shr_m r / 2) (2 ^ Z.pos p) HP).
      pose proof (Z.mod_pos_bound (shr_m r / 2 / 2 ^ Z.pos p) (2 ^ Z.pos p) HP).
      apply X3; [apply X2; [apply X1|]|]; try assumption.
      * nia.
      * rewrite E1. nia.
      * rewrite E2, E1. nia.
  - destruct (IH _ Hr) as [E2 X2].
    assert (HP : 0 < 2 ^ Z.pos p) by (apply Z.pow_pos_nonneg; lia).
    assert (H2 : 0 <= shr_m (SpecFloat.iter_pos shr_1 p r))
      by (rewrite E2; apply Z.div_pos; lia).
    destruct (IH _ H2) as [E3 X3].
    assert (EP : 2 ^ Z.pos p~0 = 2 ^ Z.pos p * 2 ^ Z.pos p).
    { replace (Z.pos p~0) with (Z.pos p + Z.pos p) by lia.
      rewrite Z.pow_add_r by lia. ring. }
    rewrite EP. split.
    + rewrite E3, E2, !Z.div_div by lia. reflexivity.
    + intros Hx Hmod.
      rewrite Z.rem_mul_r in Hmod by lia.
      pose proof (Z.mod_pos_bound (shr_m r) (2 ^ Z.pos p) HP).
      pose proof (Z.mod_pos_bound (shr_m r / 2 ^ Z.pos p) (2 ^ Z.pos p) HP).
      apply X3; [apply X2|]; try assumption.
      * nia.
      * rewrite E2. nia.
  - rewrite Z.pow_1_r. apply shr_1_spec; assumption.
Qed.

Lemma fexp_eq e : fexp e = Z.max (e - 53) (-1074).
Proof. reflexivity. Qed.

Lemma pow2_pos n : 0 <= n -> 0 < 2 ^ n.
Proof. intros; apply Z.pow_pos_nonneg; lia. Qed.

Lemma shr_record_of_loc_m m l : shr_m (shr_record_of_loc m l) = m.
Proof. destruct l as [|[]]; reflexivity. Qed.

Lemma shr_record_of_loc_exact m : exact_rec (shr_record_of_loc m loc_Exact).
Proof. split; reflexivity. Qed.

Lemma shr_fexp_spec m e l :
  0 <= m -> e <= fexp (Zdigits2 m + e) ->
  exists r,
    shr_fexp prec emax m e l = (r, fexp (Zdigits2 m + e)) /\
    shr_m r = m / 2 ^ (fexp (Zdigits2 m + e) - e) /\
    (l = loc_Exact -> m mod 2 ^ (fexp (Zdigits2 m + e) - e) = 0 -> exact_rec r).
Proof.
  intros Hm He. unfold shr_fexp, shr.
  set (e1 := fexp (Zdigits2 m + e)) in *.
  destruct (e1 - e) as [|p|p] eqn:En; [| |lia].
  - exists (shr_record_of_loc m l). repeat split.
    + f_equal. lia.
    + rewrite shr_record_of_loc_m, Z.pow_0_r, Z.div_1_r. reflexivity.
    + subst l. reflexivity.
    + subst l. reflexivity.
  - exists (SpecFloat.iter_pos shr_1 p (shr_record_of_loc m l)).
    destruct (iter_shr_spec p (shr_record_of_loc m l)) as [E X].
    { rewrite shr_record_of_loc_m. assumption. }
    rewrite shr_record_of_loc_m in E, X. repeat split.
    + f_equal. lia.
    + assumption.
    + apply X; [subst l; apply shr_record_of_loc_exact|assumption].
    + apply X; [subst l; apply shr_record_of_loc_exact|assumption].
Qed.

Lemma shr_fexp_noop m e l :
  fexp (Zdigits2 m + e) <= e ->
  shr_fexp prec emax m e l = (shr_record_of_loc m l, e).
Proof.
  intros H. unfold shr_fexp, shr.
  destruct (fexp (Zdigits2 m + e) - e) eqn:En; try reflexivity. lia.
Qed.

Lemma round_nearest_even_spec r :
  shr_m r <= round_nearest_even (shr_m r) (loc_of_shr_record r) <= shr_m r + 1 /\
  (exact_rec r -> round_nearest_even (shr_m r) (loc_of_shr_record r) = shr_m r).
Proof.
  destruct r as [m [|] [|]]; unfold exact_rec; cbn; repeat split;
    try lia; try (intros [? ?]; discriminate); destruct (Z.even m); lia.
Qed.

Lemma shifted_mantissa_lt mx ex :
  0 <= mx -> ex <= fexp (Zdigits2 mx + ex) ->
  mx / 2 ^ (fexp (Zdigits2 mx + ex) - ex) < 2 ^ 53.
Proof.
  intros Hm He. set (n := fexp (Zdigits2 mx + ex) - ex).
  assert (Hn : 0 <= n) by (unfold n; lia).
  assert (Hd : Zdigits2 mx - 53 <= n) by (unfold n; rewrite fexp_eq; lia).
  pose proof (Zdigits2_upper mx Hm) as Hu.
  pose proof (Zdigits2_nonneg mx) as Hdn.
  apply Z.div_lt_upper_bound; [apply pow2_pos; lia|].
  rewrite <- Z.pow_add_r by lia.
  assert (2 ^ Zdigits2 mx <= 2 ^ (n + 53)) by (apply Z.pow_le_mono_r; lia).
  lia.
Qed.

Lemma shifted_mantissa_normal mx ex :
  0 < mx -> ex <= fexp (Zdigits2 mx + ex) ->
  -1074 < fexp (Zdigits2 mx + ex) ->
  2 ^ 52 <= mx / 2 ^ (fexp (Zdigits2 mx + ex) - ex).
Proof.
  intros Hm He Hn.
  assert (E : fexp (Zdigits2 mx + ex) - ex = Zdigits2 mx - 53)
    by (rewrite fexp_eq in *; lia).
  rewrite E.
  assert (53 <= Zdigits2 mx) by (rewrite fexp_eq in *; lia).
  pose proof (Zdigits2_lower mx Hm) as Hl.
  apply Z.div_le_lower_bound; [apply pow2_pos; lia|].
  rewrite <- Z.pow_add_r by lia.
  replace (Zdigits2 mx - 53 + 52) with (Zdigits2 mx - 1) by lia. assumption.
Qed.

Lemma binary_round_aux_shape mx ex lx :
  0 <= mx -> ex <= fexp (Zdigits2 mx + ex) ->
  exists m2,
    mx / 2 ^ (fexp (Zdigits2 mx + ex) - ex) <= m2 <=
      mx / 2 ^ (fexp (Zdigits2 mx + ex) - ex) + 1 /\
    (lx = loc_Exact -> mx mod 2 ^ (fexp (Zdigits2 mx + ex) - ex) = 0 ->
     m2 = mx / 2 ^ (fexp (Zdigits2 mx + ex) - ex)) /\
    binary_round_aux prec emax false mx ex lx =
      encode m2 (fexp (Zdigits2 mx + ex)).
Proof.
  intros Hm He.
  pose proof (shifted_mantissa_lt mx ex Hm He) as Hlt.
  destruct (shr_fexp_spec mx ex lx Hm He) as (r & Er & Em & Ex).
  set (e1 := fexp (Zdigits2 mx + ex)) in *.
  set (m1 := mx / 2 ^ (e1 - ex)) in *.
  assert (Hm1 : 0 <= m1) by (apply Z.div_pos; [assumption|apply pow2_pos; lia]).
  destruct (round_nearest_even_spec r) as [Hb Hx].
  set (m2 := round_nearest_even (shr_m r) (loc_of_shr_record r)) in *.
  rewrite Em in Hb, Hx.
  exists m2. split; [assumption|]. split.
  { intros Hl Hmod. apply Hx, Ex; assumption. }
  unfold binary_round_aux. rewrite Er. fold m2.
  assert (He1 : -1074 <= e1) by (unfold e1; rewrite fexp_eq; lia).
  unfold encode.
  destruct (Z.eqb_spec m2 0) as [E0|N0].
  { rewrite E0. rewrite shr_fexp_noop by (cbn [Zdigits2]; rewrite fexp_eq; lia).
    reflexivity. }
  destruct (Z.eqb_spec m2 (2 ^ 53)) as [E53|N53].
  { rewrite E53. unfold shr_fexp.
    replace (fexp (Zdigits2 (2 ^ 53) + e1) - e1) with 1
      by (change (Zdigits2 (2 ^ 53)) with 54; rewrite fexp_eq; lia).
    cbn [shr shr_record_of_loc SpecFloat.iter_pos].
    change (shr_m (shr_1 {| shr_m := 2 ^ 53; shr_r := false; shr_s := false |}))
      with (2 ^ 52).
    reflexivity. }
  assert (Hd2 : Zdigits2 m2 <= 53) by (apply Zdigits2_le_of_lt; lia).
  rewrite shr_fexp_noop by (rewrite fexp_eq; lia).
  rewrite shr_record_of_loc_m.
  destruct m2 as [|p|p]; try lia. reflexivity.
Qed.

Lemma F2R_shift k j e : e <= j -> F2R k j = F2R (k * 2 ^ (j - e)) e.
Proof.
  intros H. unfold F2R. rewrite mult_IZR, <- bpow_IZR by lia.
  rewrite Rmult_assoc, <- bpow_add. do 2 f_equal. lia.
Qed.

Lemma F2R_le a b e : a <= b -> (F2R a e <= F2R b e)%R.
Proof.
  intros H. apply IZR_le in H. unfold F2R. pose proof (bpow_gt_0 e). nra.
Qed.

Lemma F2R_lt_inv a b e : (F2R a e < F2R b e)%R -> a < b.
Proof.
  intros H. apply lt_IZR. unfold F2R in H. pose proof (bpow_gt_0 e). nra.
Qed.

Lemma F2R_le_inv a b e : (F2R a e <= F2R b e)%R -> a <= b.
Proof.
  intros H. apply le_IZR. unfold F2R in H. pose proof (bpow_gt_0 e). nra.
Qed.

Lemma F2R_inj a b e : F2R a e = F2R b e -> a = b.
Proof.
  intros H. apply eq_IZR. unfold F2R in H. pose proof (bpow_gt_0 e). nra.
Qed.

Lemma F2R_0 e : F2R 0 e = 0%R.
Proof. unfold F2R. lra. Qed.

Lemma F2R_nonneg m e : 0 <= m -> (0 <= F2R m e)%R.
Proof. intros H. rewrite <- (F2R_0 e). apply F2R_le. assumption. Qed.

Lemma F2R_pos m e : 0 < m -> (0 < F2R m e)%R.
Proof.
  intros H. apply IZR_lt in H. unfold F2R. pose proof (bpow_gt_0 e). nra.
Qed.

Lemma F2R_mono_exp m e1 e2 : 0 <= m -> e1 <= e2 -> (F2R m e1 <= F2R m e2)%R.
Proof.
  intros Hm He. apply IZR_le in Hm. pose proof (bpow_le _ _ He).
  pose proof (bpow_gt_0 e1). unfold F2R. nra.
Qed.

Lemma encode_encodes m e :
  0 <= m <= 2 ^ 53 -> -1074 <= e ->
  (-1074 < e -> m <> 0 -> 2 ^ 52 <= m) ->
  encodes (encode m e) (F2R m e).
Proof.
  intros Hm He Hn. unfold encode.
  destruct (Z.eqb_spec m 0) as [->|N0]; [apply F2R_0|].
  destruct (Z.eqb_spec m (2 ^ 53)) as [->|N53].
  - destruct (Z.leb_spec (e + 1) 971); cbn [encodes].
    + change (Z.pos (2 ^ 52)) with (2 ^ 52). split; [|lia].
      rewrite (F2R_shift (2 ^ 52) (e + 1) e) by lia.
      replace (e + 1 - e) with 1 by lia. reflexivity.
    + replace (bpow 1024) with (F2R 1 1024) by (unfold F2R; lra).
      apply Rle_trans with (F2R (2 ^ 53) 971); [|apply F2R_mono_exp; lia].
      rewrite (F2R_shift 1 1024 971) by lia. apply F2R_le. reflexivity.
  - destruct (Z.leb_spec e 971); cbn [encodes].
    + rewrite Z2Pos.id by lia. split; [reflexivity|]. split; [lia|].
      split; [lia|]. intros; apply Hn; lia.
    + replace (bpow 1024) with (F2R 1 1024) by (unfold F2R; lra).
      assert (2 ^ 52 <= m) by (apply Hn; lia).
      apply Rle_trans with (F2R (2 ^ 52) e); [|apply F2R_le; assumption].
      apply Rle_trans with (F2R (2 ^ 52) 972); [|apply F2R_mono_exp; lia].
      rewrite (F2R_shift 1 1024 972) by lia. apply F2R_le. reflexivity.
Qed.

(** Faithful rounding: the result of [binary_round_aux] on a non-negative
    exact value [x] never crosses a representable number. *)
Lemma binary_round_aux_spec mx ex lx (x : R) :
  0 <= mx -> ex <= fexp (Zdigits2 mx + ex) ->
  (F2R mx ex <= x < F2R (mx + 1) ex)%R ->
  (x = F2R mx ex -> lx = loc_Exact) ->
  exists v,
    encodes (binary_round_aux prec emax false mx ex lx) v /\ rounds x v.
Proof.
  intros Hm He Hx Hloc.
  destruct (binary_round_aux_shape mx ex lx Hm He) as (m2 & Hb & Hex & ->).
  pose proof (shifted_mantissa_lt mx ex Hm He) as Hlt.
  set (e1 := fexp (Zdigits2 mx + ex)) in *.
  set (n := e1 - ex) in *.
  set (m1 := mx / 2 ^ n) in *.
  assert (Hn : 0 <= n) by (unfold n; lia).
  assert (HP : 0 < 2 ^ n) by (apply pow2_pos; assumption).
  assert (He1 : -1074 <= e1) by (unfold e1; rewrite fexp_eq; lia).
  assert (Hm1 : 0 <= m1) by (apply Z.div_pos; assumption).
  assert (Hdm : m1 * 2 ^ n <= mx < (m1 + 1) * 2 ^ n).
  { unfold m1. pose proof (Z.mod_pos_bound mx (2 ^ n) HP).
    pose proof (Z.div_mod mx (2 ^ n) ltac:(lia)). nia. }
  assert (Hlo : (F2R m1 e1 <= x)%R).
  { apply Rle_trans with (F2R mx ex); [|apply Hx].
    rewrite (F2R_shift m1 e1 ex) by lia. apply F2R_le. fold n. lia. }
  assert (Hhi : (x < F2R (m1 + 1) e1)%R).
  { apply Rlt_le_trans with (F2R (mx + 1) ex); [apply Hx|].
    rewrite (F2R_shift (m1 + 1) e1 ex) by lia. apply F2R_le. fold n. lia. }
  assert (Hnorm : -1074 < e1 -> 2 ^ 52 <= m1).
  { intros H. apply shifted_mantissa_normal; try assumption.
    destruct (Z.eq_dec mx 0) as [E|]; [|lia].
    exfalso. subst mx. unfold e1 in *. cbn [Zdigits2] in *.
    rewrite fexp_eq in *. lia. }
  assert (Hexact : x = F2R m1 e1 -> m2 = m1).
  { intros E. assert (Emx : x = F2R mx ex).
    { apply Rle_antisym; [|apply Hx]. rewrite E.
      rewrite (F2R_shift m1 e1 ex) by lia. apply F2R_le. fold n. lia. }
    apply Hex; [apply Hloc; assumption|].
    assert (mx = m1 * 2 ^ n).
    { apply (F2R_inj _ _ ex). rewrite <- Emx, E.
      rewrite (F2R_shift m1 e1 ex) by lia. reflexivity. }
    fold n. rewrite H. apply Z.mod_mul. lia. }
  assert (Hsmall : forall k j, 0 <= k <= 2 ^ 53 -> -1074 <= j -> j < e1 ->
                     (F2R k j <= F2R m1 e1)%R).
  { intros k j Hk Hj Hje.
    apply Rle_trans with (F2R (2 ^ 53) j); [apply F2R_le; lia|].
    apply Rle_trans with (F2R (2 ^ 53) (e1 - 1)); [apply F2R_mono_exp; lia|].
    apply Rle_trans with (F2R (2 ^ 52) e1); [|apply F2R_le; apply Hnorm; lia].
    rewrite (F2R_shift (2 ^ 52) e1 (e1 - 1)) by lia. apply F2R_le.
    replace (e1 - (e1 - 1)) with 1 by lia. reflexivity. }
  exists (F2R m2 e1). split; [|split].
  - apply encode_encodes; [lia|lia|]. intros H _. specialize (Hnorm H). lia.
  - intros c (k & j & -> & Hk & Hj) Hc.
    apply Rle_trans with (F2R m1 e1); [|apply F2R_le; lia].
    destruct (Z_lt_le_dec j e1) as [Hje|Hje]; [apply Hsmall; assumption|].
    rewrite (F2R_shift k j e1) in * by assumption. apply F2R_le.
    assert (k * 2 ^ (j - e1) < m1 + 1); [|lia].
    apply (F2R_lt_inv _ _ e1). lra.
  - intros c (k & j & -> & Hk & Hj) Hc.
    destruct (Z.eq_dec m2 m1) as [->|Hne]; [lra|].
    assert (m2 = m1 + 1) by lia. subst m2.
    assert (Hstrict : (F2R m1 e1 < x)%R).
    { destruct Hlo as [Hlo|Hlo]; [assumption|].
      exfalso. apply Hne. symmetry in Hlo. specialize (Hexact Hlo). lia. }
    destruct (Z_lt_le_dec j e1) as [Hje|Hje].
    { pose proof (Hsmall k j Hk Hj Hje). lra. }
    rewrite (F2R_shift k j e1) in * by assumption. apply F2R_le.
    assert (m1 < k * 2 ^ (j - e1)); [|lia].
    apply (F2R_lt_inv _ _ e1). lra.
Qed.

Lemma representable_IZR k : 0 <= k <= 2 ^ 53 -> representable (IZR k).
Proof.
  intros H. exists k, 0. repeat split; try lia. unfold F2R. rewrite bpow_0. lra.
Qed.

Lemma representable_half k : 0 <= k <= 2 ^ 53 -> representable (IZR k / 2).
Proof.
  intros H. exists k, (-1). repeat split; try lia. unfold F2R, bpow. simpl. lra.
Qed.

Lemma rounds_nonneg x v : (0 <= x)%R -> rounds x v -> (0 <= v)%R.
Proof. intros Hx [Hl _]. apply (Hl 0%R); [apply (representable_IZR 0); lia|assumption]. Qed.

Lemma rounds_exact x v : representable x -> rounds x v -> v = x.
Proof. intros Hr [Hl Hu]. apply Rle_antisym; [apply Hu|apply Hl]; auto; lra. Qed.

(** [shl_align] keeps the value and makes the mantissa wide enough. *)
Lemma iter_xO_spec d : forall m,
  Z.pos (Pos.iter xO m d) = Z.pos m * 2 ^ Z.pos d /\
  digits2_pos (Pos.iter xO m d) = (digits2_pos m + d)%positive.
Proof.
  induction d using Pos.peano_ind; intros m.
  - cbn [Pos.iter]. split; [rewrite Z.pow_1_r; lia|cbn [digits2_pos]; lia].
  - rewrite Pos.iter_succ. destruct (IHd m) as [E1 E2]. split.
    + rewrite Pos2Z.inj_xO, E1, Pos2Z.inj_succ, Z.pow_succ_r by lia. ring.
    + cbn [digits2_pos]. rewrite E2. lia.
Qed.

Lemma binary_round_spec m e :
  exists v,
    encodes (binary_round prec emax false m e) v /\ rounds (F2R (Zpos m) e) v.
Proof.
  unfold binary_round, shl_align.
  set (e' := fexp (Z.pos (digits2_pos m) + e)).
  destruct (e' - e) as [|d|d] eqn:Ed.
  - apply binary_round_aux_spec; cbn [Zdigits2]; fold e'; try lia.
    + split; [lra|]. unfold F2R. pose proof (bpow_gt_0 e).
      rewrite plus_IZR. lra.
    + reflexivity.
  - apply binary_round_aux_spec; cbn [Zdigits2]; fold e'; try lia.
    + split; [lra|]. unfold F2R. pose proof (bpow_gt_0 e).
      rewrite plus_IZR. lra.
    + reflexivity.
  - destruct (iter_xO_spec d m) as [E1 E2].
    assert (EV : F2R (Z.pos (Pos.iter xO m d)) e' = F2R (Z.pos m) e).
    { rewrite (F2R_shift (Z.pos m) e e') by lia. rewrite E1. do 3 f_equal. lia. }
    rewrite <- EV.
    apply binary_round_aux_spec; cbn [Zdigits2]; try lia.
    + rewrite E2. rewrite Pos2Z.inj_add.
      replace (Z.pos (digits2_pos m) + Z.pos d + e') with (Z.pos (digits2_pos m) + e) by lia.
      fold e'. lia.
    + split; [lra|]. unfold F2R. pose proof (bpow_gt_0 e').
      rewrite plus_IZR. lra.
    + reflexivity.
Qed.

Lemma F2R_mul m1 e1 m2 e2 :
  (F2R m1 e1 * F2R m2 e2)%R = F2R (m1 * m2) (e1 + e2).
Proof. unfold F2R. rewrite mult_IZR, bpow_add. ring. Qed.

Lemma Zdigits2_ge m k : 0 <= k -> 2 ^ k <= m -> k + 1 <= Zdigits2 m.
Proof.
  intros Hk H. pose proof (pow2_pos k Hk).
  pose proof (Zdigits2_upper m ltac:(lia)) as Hu.
  pose proof (Zdigits2_nonneg m).
  destruct (Z_le_gt_dec (k + 1) (Zdigits2 m)); [assumption|].
  assert (2 ^ Zdigits2 m <= 2 ^ k) by (apply Z.pow_le_mono_r; lia). lia.
Qed.

(** Product of two non-negative finite floats, the first one normal. *)
Lemma SFmul_spec m1 e1 m2 e2 :
  2 ^ 52 <= Z.pos m1 ->
  exists v,
    encodes (SFmul prec emax (S754_finite false m1 e1) (S754_finite false m2 e2)) v /\
    rounds (F2R (Z.pos m1) e1 * F2R (Z.pos m2) e2) v.
Proof.
  intros H1. cbn [SFmul xorb]. rewrite F2R_mul, <- Pos2Z.inj_mul.
  assert (53 <= Zdigits2 (Z.pos (m1 * m2))).
  { apply (Zdigits2_ge _ 52); [lia|]. rewrite Pos2Z.inj_mul. nia. }
  apply binary_round_aux_spec.
  - lia.
  - rewrite fexp_eq. lia.
  - split; [lra|]. unfold F2R. pose proof (bpow_gt_0 (e1 + e2)).
    rewrite plus_IZR. lra.
  - reflexivity.
Qed.

Lemma new_location_exact m : new_location m 0 = loc_Exact.
Proof.
  unfold new_location, new_location_even, new_location_odd.
  destruct (Z.even m); reflexivity.
Qed.

Lemma SFdiv_core_spec m1 e1 m2 e2 :
  0 < m1 -> 0 < m2 ->
  exists q e l,
    SFdiv_core_binary prec emax m1 e1 m2 e2 = (q, e, l) /\
    0 <= q /\ e <= fexp (Zdigits2 q + e) /\
    (F2R q e <= F2R m1 e1 / F2R m2 e2 < F2R (q + 1) e)%R /\
    (F2R m1 e1 / F2R m2 e2 = F2R q e -> l = loc_Exact)%R.
Proof.
  intros H1 H2. unfold SFdiv_core_binary.
  set (D := Zdigits2 m1 + e1 - (Zdigits2 m2 + e2)).
  set (e := Z.min (fexp D) (e1 - e2)).
  set (s := e1 - e2 - e).
  assert (Hs : 0 <= s) by (unfold s, e; lia).
  assert (Em : match s with Z.pos _ => Z.shiftl m1 s | 0 => m1 | Z.neg _ => 0 end
               = m1 * 2 ^ s).
  { destruct s eqn:Es; [rewrite Z.pow_0_r; lia|apply Z.shiftl_mul_pow2; lia|lia]. }
  rewrite Em.
  pose proof (pow2_pos s Hs) as HP.
  pose proof (Z.div_mod (m1 * 2 ^ s) m2 ltac:(lia)) as Hdm.
  pose proof (Z.mod_pos_bound (m1 * 2 ^ s) m2 H2) as Hr.
  unfold Z.div, Z.modulo in Hdm, Hr.
  destruct (Z.div_eucl (m1 * 2 ^ s) m2) as [q r].
  assert (Hq : 0 <= q) by nia.
  exists q, e, (new_location m2 r).
  assert (Hx : (F2R m1 e1 / F2R m2 e2 * IZR m2 = F2R (m1 * 2 ^ s) e)%R).
  { unfold s. rewrite <- (F2R_shift m1 (e1 - e2) e) by (unfold e; lia).
    unfold F2R. replace (e1 - e2) with (e1 + - e2) by lia.
    rewrite bpow_add. unfold bpow at 4. rewrite powerRZ_neg'. fold (bpow e2).
    pose proof (bpow_gt_0 e2). apply IZR_lt in H2. field. lra. }
  set (x := (F2R m1 e1 / F2R m2 e2)%R) in *.
  assert (HM : (0 < IZR m2)%R) by (apply IZR_lt; assumption).
  pose proof (bpow_gt_0 e) as HB.
  assert (Hx' : (x * IZR m2 = (IZR q * IZR m2 + IZR r) * bpow e)%R).
  { rewrite Hx. unfold F2R. rewrite Hdm, plus_IZR, mult_IZR. ring. }
  assert (Hr0 : (0 <= IZR r)%R) by (apply IZR_le; lia).
  assert (Hr1 : (IZR r < IZR m2)%R) by (apply IZR_lt; lia).
  split; [reflexivity|]. split; [assumption|]. split; [|split].
  - destruct (Z_le_gt_dec e (-1074)) as [Hle|Hgt]; [rewrite fexp_eq; lia|].
    assert (HD : e + 53 <= D) by (unfold e in *; rewrite fexp_eq in *; lia).
    pose proof (Zdigits2_lower m1 H1) as L1.
    pose proof (Zdigits2_upper m2 ltac:(lia)) as U2.
    pose proof (Zdigits2_nonneg m2) as N2.
    assert (P1 : 1 <= Zdigits2 m1) by (apply (Zdigits2_ge m1 0); lia).
    assert (Hq52 : 2 ^ 52 <= q).
    { assert (2 ^ 52 * m2 <= m1 * 2 ^ s); [|nia].
      apply Z.le_trans with (2 ^ 52 * 2 ^ Zdigits2 m2); [nia|].
      apply Z.le_trans with (2 ^ (Zdigits2 m1 - 1) * 2 ^ s); [|nia].
      rewrite <- !Z.pow_add_r by lia. apply Z.pow_le_mono_r; [lia|].
      unfold D, s in *. lia. }
    pose proof (Zdigits2_ge q 52 ltac:(lia) Hq52). rewrite fexp_eq. lia.
  - unfold F2R. rewrite plus_IZR. split.
    + apply Rmult_le_reg_r with (IZR m2); [assumption|]. rewrite Hx'. nra.
    + apply Rmult_lt_reg_r with (IZR m2); [assumption|]. rewrite Hx'. nra.
  - intros E. assert (r = 0); [|subst r; apply new_location_exact].
    apply eq_IZR. rewrite E in Hx'. unfold F2R in Hx'. nra.
Qed.

(** Quotient of two positive finite floats. *)
Lemma SFdiv_spec m1 e1 m2 e2 :
  exists v,
    encodes (SFdiv prec emax (S754_finite false m1 e1) (S754_finite false m2 e2)) v /\
    rounds (F2R (Z.pos m1) e1 / F2R (Z.pos m2) e2) v.
Proof.
  cbn [SFdiv xorb].
  destruct (SFdiv_core_spec (Z.pos m1) e1 (Z.pos m2) e2) as
    (q & e & l & -> & Hq & He & Hx & Hl); try lia.
  apply binary_round_aux_spec; assumption.
Qed.

End Binary64Facts.

(** ** The arithmetic of [calculate_new_size] on real values *)

Section PyFacts.
Import Py Binary64.

Lemma rounds_refl x : rounds x x.
Proof. split; intros; assumption. Qed.

Lemma rounds_gt x v c : rounds x v -> representable c -> (c < v)%R -> (c < x)%R.
Proof.
  intros [_ Hu] Hc Hv. destruct (Rlt_le_dec c x) as [H|H]; [assumption|].
  specialize (Hu c Hc H). lra.
Qed.

Lemma rounds_lt x v c : rounds x v -> representable c -> (v < c)%R -> (x < c)%R.
Proof.
  intros [Hl _] Hc Hv. destruct (Rlt_le_dec x c) as [H|H]; [assumption|].
  specialize (Hl c Hc H). lra.
Qed.

Lemma bpow_1024_gt k : k <= 2 ^ 1023 -> (IZR k < bpow 1024)%R.
Proof.
  intros H. rewrite bpow_IZR by lia. apply IZR_lt.
  assert (2 ^ 1023 < 2 ^ 1024) by (apply Z.pow_lt_mono_r; lia). lia.
Qed.

Lemma representable_pow1023 : representable (IZR (2 ^ 1023)).
Proof.
  exists (2 ^ 52), 971. repeat split; try lia.
  rewrite (F2R_shift (2 ^ 52) 971 0) by lia. unfold F2R.
  rewrite bpow_0, Rmult_1_r. apply f_equal. reflexivity.
Qed.

Lemma subnormal_ge_1 m : (1 <= F2R m (-1074))%R -> 2 ^ 52 <= m.
Proof.
  intros H.
  assert (E : F2R (2 ^ 1074) (-1074) = 1%R).
  { replace 1%R with (F2R 1 0) by (unfold F2R; rewrite bpow_0; lra).
    rewrite (F2R_shift 1 0 (-1074)) by lia. reflexivity. }
  rewrite <- E in H. apply F2R_le_inv in H.
  assert (2 ^ 52 <= 2 ^ 1074) by (apply Z.pow_le_mono_r; lia). lia.
Qed.

Lemma subnormal_bound m : (1 <= F2R (Z.pos m) (-1074))%R -> 2 ^ 1074 <= Z.pos m.
Proof.
  intros H.
  assert (E : F2R (2 ^ 1074) (-1074) = 1%R).
  { replace 1%R with (F2R 1 0) by (unfold F2R; rewrite bpow_0; lra).
    rewrite (F2R_shift 1 0 (-1074)) by lia. reflexivity. }
  rewrite <- E in H. apply F2R_le_inv in H. assumption.
Qed.

Lemma encodes_sign_ok f v : encodes f v -> sign_ok f.
Proof. destruct f as [[]|[]| |[] m e]; cbn; tauto. Qed.

Lemma encodes_overflow f v :
  encodes f v ->
  overflow_check f = Raise OverflowError \/
  (overflow_check f = Ok f /\ denotes f v).
Proof.
  destruct f as [[]|[]| |[] m e]; cbn; tauto.
Qed.

Lemma encodes_denotes f v :
  encodes f v -> (v < bpow 1024)%R -> overflow_check f = Ok f /\ denotes f v.
Proof.
  destruct f as [[]|[]| |[] m e]; cbn; try tauto; intros; lra.
Qed.

Lemma encodes_normal f v :
  encodes f v -> (1 <= v)%R -> (v < bpow 1024)%R -> normal f.
Proof.
  destruct f as [[]|[]| |[] m e]; cbn; try tauto; try lra.
  intros (Hv & He & Hb & Hn) H1 _.
  destruct (Z_lt_le_dec (-1074) e) as [H|H]; [apply Hn; assumption|].
  assert (e = -1074) by lia. subst e.
  apply subnormal_ge_1. rewrite <- Hv. assumption.
Qed.

Lemma denotes_nonneg f v : denotes f v -> (0 <= v)%R.
Proof.
  destruct f as [[]|[]| |[] m e]; cbn; try tauto;
    [intros ->; lra|intros (-> & _); apply F2R_nonneg; lia].
Qed.

Lemma denotes_encodes f v : denotes f v -> encodes f v.
Proof. destruct f as [[]|[]| |[] m e]; cbn; tauto. Qed.

Lemma denotes_representable f v : denotes f v -> representable v.
Proof.
  destruct f as [[]|[]| |[] m e]; cbn; try tauto.
  - intros ->. apply (representable_IZR 0). lia.
  - intros (-> & He & Hb & _). exists (Z.pos m), e. repeat split; lia.
Qed.

(** A rounded value of at least 1 is at most twice the exact one. *)
Lemma rounds_le_twice x f v :
  rounds x v -> denotes f v -> (1 <= v)%R -> (v <= 2 * x)%R.
Proof.
  intros [_ Hu] D H1.
  destruct f as [[]|[]| |[] m e]; cbn in D; try tauto; [lra|].
  destruct D as (Ev & He & Hb & _).
  assert (He' : -1074 < e).
  { destruct (Z_lt_le_dec (-1074) e) as [|Hle]; [assumption|exfalso].
    assert (e = -1074) by lia. subst e. rewrite Ev in H1.
    apply subnormal_bound in H1.
    assert (2 ^ 53 <= 2 ^ 1074) by (apply Z.pow_le_mono_r; lia). lia. }
  assert (Eh : F2R (Z.pos m) (e - 1) = (v / 2)%R).
  { rewrite Ev, (F2R_shift (Z.pos m) e (e - 1)) by lia.
    replace (e - (e - 1)) with 1 by lia. unfold F2R.
    rewrite mult_IZR. change (IZR (2 ^ 1)) with 2%R. field. }
  destruct (Rlt_le_dec (v / 2) x) as [H|H]; [lra|].
  assert (v <= v / 2)%R; [|lra].
  apply Hu; [|assumption].
  exists (Z.pos m), (e - 1). repeat split; try lia. symmetry. assumption.
Qed.

Lemma float_of_int_cases t :
  0 < t ->
  float_of_int t = Raise OverflowError \/
  exists f v, float_of_int t = Ok f /\ denotes f v /\ normal f /\
              rounds (IZR t) v.
Proof.
  intros Ht. destruct t as [|p|p]; try lia.
  unfold float_of_int. cbn [binary_normalize].
  destruct (binary_round_spec p 0) as (v & He & Hr).
  replace (F2R (Z.pos p) 0) with (IZR (Z.pos p)) in Hr
    by (unfold F2R; rewrite bpow_0; lra).
  destruct (encodes_overflow _ _ He) as [E|[E D]]; [left; assumption|].
  right. exists (binary_round prec emax false p 0), v.
  repeat split; try assumption; try apply Hr.
  assert (H1 : (1 <= v)%R).
  { apply Hr; [apply (representable_IZR 1); lia|apply IZR_le; lia]. }
  revert He D H1. clear.
  destruct (binary_round _ _ _ _ _) as [[]|[]| |[] m e]; cbn; try tauto; try lra.
  intros (Hv & He & Hb & Hn) _ H1.
  destruct (Z_lt_le_dec (-1074) e) as [H|H]; [apply Hn; assumption|].
  assert (e = -1074) by lia. subst e.
  apply subnormal_ge_1. rewrite <- Hv. assumption.
Qed.

Lemma float_of_int_exact t :
  0 < t <= 2 ^ 53 ->
  exists f, float_of_int t = Ok f /\ denotes f (IZR t) /\ normal f.
Proof.
  intros Ht. destruct t as [|p|p]; try lia.
  unfold float_of_int. cbn [binary_normalize].
  destruct (binary_round_spec p 0) as (v & He & Hr).
  replace (F2R (Z.pos p) 0) with (IZR (Z.pos p)) in Hr
    by (unfold F2R; rewrite bpow_0; lra).
  apply rounds_exact in Hr; [|apply representable_IZR; lia]. subst v.
  assert (HB : (IZR (Z.pos p) < bpow 1024)%R).
  { apply bpow_1024_gt. assert (2 ^ 53 <= 2 ^ 1023) by (apply Z.pow_le_mono_r; lia). lia. }
  destruct (encodes_denotes _ _ He HB) as [E D].
  exists (binary_round prec emax false p 0). repeat split; try assumption.
  apply (encodes_normal _ _ He); [apply IZR_le; lia|assumption].
Qed.

Lemma int_truediv_zero b : 0 < b -> int_truediv 0 b = Ok (S754_zero false).
Proof.
  intros Hb. unfold int_truediv. destruct (Z.eqb_spec b 0); [lia|].
  destruct b; try lia. reflexivity.
Qed.

Lemma int_truediv_cases a b :
  0 < a -> 0 < b ->
  int_truediv a b = Raise OverflowError \/
  exists f v, int_truediv a b = Ok f /\ denotes f v /\
              rounds (IZR a / IZR b) v.
Proof.
  intros Ha Hb. unfold int_truediv. destruct (Z.eqb_spec b 0); [lia|].
  destruct a as [|p|p]; try lia. destruct b as [|q|q]; try lia.
  cbn [exact_of_int].
  destruct (SFdiv_spec p 0 q 0) as (v & He & Hr).
  replace (F2R (Z.pos p) 0) with (IZR (Z.pos p)) in Hr
    by (unfold F2R; rewrite bpow_0; lra).
  replace (F2R (Z.pos q) 0) with (IZR (Z.pos q)) in Hr
    by (unfold F2R; rewrite bpow_0; lra).
  destruct (encodes_overflow _ _ He) as [E|[E D]]; [left; assumption|].
  right. eexists _, v. repeat split; try eassumption; apply Hr.
Qed.

Lemma SFmul_denotes f1 f2 v1 v2 :
  denotes f1 v1 -> normal f1 -> denotes f2 v2 ->
  exists p, encodes (SFmul prec emax f1 f2) p /\ rounds (v1 * v2) p.
Proof.
  destruct f1 as [[]|[]| |[] m1 e1]; cbn [denotes encodes normal]; try tauto.
  intros (-> & _) Hn.
  destruct f2 as [[]|[]| |[] m2 e2]; cbn [denotes encodes]; try tauto.
  - intros ->. exists 0%R. split; [reflexivity|].
    rewrite Rmult_0_r. apply rounds_refl.
  - intros (-> & _). apply SFmul_spec. assumption.
Qed.

Lemma SFdiv_denotes f1 f2 v1 v2 :
  denotes f1 v1 -> denotes f2 v2 -> (0 < v1)%R -> (0 < v2)%R ->
  exists q, encodes (SFdiv prec emax f1 f2) q /\ rounds (v1 / v2) q.
Proof.
  destruct f1 as [[]|[]| |[] m1 e1]; cbn [denotes encodes]; try tauto;
    [intros ->; intros; lra|intros (-> & _)].
  destruct f2 as [[]|[]| |[] m2 e2]; cbn [denotes encodes]; try tauto;
    [intros ->; intros; lra|intros (-> & _)].
  intros _ _. apply SFdiv_spec.
Qed.

Lemma int_mul_float_spec t f r :
  0 < t <= 2 ^ 53 -> denotes f r ->
  exists g p, int_mul_float t f = Ok g /\ encodes g p /\ rounds (IZR t * r) p.
Proof.
  intros Ht Hf. destruct (float_of_int_exact t Ht) as (ft & E & D & N).
  unfold int_mul_float. rewrite E. cbn [bind float_mul].
  destruct (SFmul_denotes _ _ _ _ D N Hf) as (p & He & Hr).
  eexists _, p. repeat split; try eassumption; apply Hr.
Qed.

Lemma int_div_float_spec t f r :
  0 < t <= 2 ^ 53 -> denotes f r -> (0 < r)%R ->
  exists g q, int_div_float t f = Ok g /\ encodes g q /\ rounds (IZR t / r) q.
Proof.
  intros Ht Hf Hr. destruct (float_of_int_exact t Ht) as (ft & E & D & N).
  unfold int_div_float. rewrite E. cbn [bind]. unfold float_truediv.
  assert (Z : is_zero f = false).
  { destruct f as [[]|[]| |[] m e]; cbn in Hf |- *; try tauto; lra. }
  rewrite Z.
  destruct (SFdiv_denotes _ _ _ _ D Hf) as (q & He & Hq);
    [apply IZR_lt; lia|assumption|].
  eexists _, q. repeat split; try eassumption; apply Hq.
Qed.

Lemma int_of_float_denotes g v :
  denotes g v ->
  exists z, int_of_float g = Ok z /\ Spec.floor_of_float g = Ok z /\
            0 <= z /\ (IZR z <= v < IZR z + 1)%R.
Proof.
  destruct g as [[]|[]| |[] m e]; cbn [denotes encodes]; try tauto;
    [intros ->|intros (-> & _)].
  - exists 0. cbn. repeat split; try lia; lra.
  - exists (Z.shiftl (Z.pos m) e). cbn [int_of_float Spec.floor_of_float].
    split; [reflexivity|]. split; [reflexivity|].
    split; [apply Z.shiftl_nonneg; lia|].
    destruct (Z_le_gt_dec 0 e) as [He|He].
    + rewrite Z.shiftl_mul_pow2 by assumption.
      rewrite (F2R_shift (Z.pos m) e 0) by assumption.
      unfold F2R. rewrite bpow_0, Z.sub_0_r. lra.
    + rewrite Z.shiftl_div_pow2 by lia.
      assert (HP : 0 < 2 ^ (- e)) by (apply pow2_pos; lia).
      pose proof (Z.div_mod (Z.pos m) (2 ^ (- e)) ltac:(lia)) as Hd.
      pose proof (Z.mod_pos_bound (Z.pos m) (2 ^ (- e)) HP) as Hb.
      set (z := Z.pos m / 2 ^ (- e)) in *.
      replace (IZR z) with (F2R z 0) by (unfold F2R; rewrite bpow_0; lra).
      replace (F2R z 0 + 1)%R with (F2R (z + 1) 0)
        by (unfold F2R; rewrite bpow_0, plus_IZR; lra).
      rewrite (F2R_shift z 0 e), (F2R_shift (z + 1) 0 e) by lia.
      replace (0 - e) with (- e) by lia. split.
      * apply F2R_le. nia.
      * unfold F2R. apply Rmult_lt_compat_r; [apply bpow_gt_0|].
        apply IZR_lt. nia.
Qed.

Lemma int_of_float_spec g v :
  encodes g v -> (v < bpow 1024)%R ->
  exists z, int_of_float g = Ok z /\ Spec.floor_of_float g = Ok z /\
            0 <= z /\ (IZR z <= v < IZR z + 1)%R.
Proof.
  intros He Hv. apply int_of_float_denotes.
  apply (encodes_denotes _ _ He Hv).
Qed.

End PyFacts.

(** ** [calculate_new_size] *)

Section CalculateNewSize.
Import Py Binary64 Resizer Methods.

Lemma gtb_cases a b : (a >? b) = true /\ b < a \/ (a >? b) = false /\ a <= b.
Proof. rewrite Z.gtb_ltb. destruct (Z.ltb_spec b a); [left|right]; split; auto. Qed.

Lemma Rdiv_le_num a b : (0 <= a)%R -> (1 <= b)%R -> (a / b <= a)%R.
Proof.
  intros Ha Hb. assert (E : (a / b * b = a)%R) by (field; lra).
  assert (0 <= a / b)%R by (apply Rmult_le_pos; [lra|]; left; apply Rinv_0_lt_compat; lra).
  nra.
Qed.

Lemma int_truediv_spec a b :
  0 <= a <= 2 ^ 1023 * b -> 0 < b ->
  exists f v, int_truediv a b = Ok f /\ denotes f v /\
              rounds (IZR a / IZR b) v.
Proof.
  intros Ha Hb. destruct (Z.eq_dec a 0) as [->|Hn].
  { exists (S754_zero false), 0%R. rewrite int_truediv_zero by assumption.
    split; [reflexivity|]. split; [reflexivity|].
    replace (0 / IZR b)%R with 0%R by (unfold Rdiv; ring).
    apply rounds_refl. }
  unfold int_truediv. destruct (Z.eqb_spec b 0); [lia|].
  destruct a as [|p|p]; try lia. destruct b as [|q|q]; try lia.
  cbn [exact_of_int].
  destruct (SFdiv_spec p 0 q 0) as (v & He & Hr).
  replace (F2R (Z.pos p) 0) with (IZR (Z.pos p)) in Hr
    by (unfold F2R; rewrite bpow_0; lra).
  replace (F2R (Z.pos q) 0) with (IZR (Z.pos q)) in Hr
    by (unfold F2R; rewrite bpow_0; lra).
  assert (Hv : (v <= IZR (2 ^ 1023))%R).
  { apply Hr; [apply representable_pow1023|].
    assert (HQ : (0 < IZR (Z.pos q))%R) by (apply IZR_lt; lia).
    apply Rmult_le_reg_r with (IZR (Z.pos q)); [assumption|].
    replace (IZR (Z.pos p) / IZR (Z.pos q) * IZR (Z.pos q))%R
      with (IZR (Z.pos p)) by (field; lra).
    rewrite <- mult_IZR. apply IZR_le. lia. }
  pose proof (bpow_1024_gt (2 ^ 1023) ltac:(lia)).
  destruct (encodes_denotes _ _ He) as [E D]; [lra|].
  eexists _, v. repeat split; try eassumption; apply Hr.
Qed.

(** Within the bounds, the result exists, fits the target box and touches
    one of its sides. *)
Lemma calculate_new_size_bounded self ow oh tw th :
  maintain_aspect_ratio self = true -> target_size self = (tw, th) ->
  0 <= ow <= 2 ^ 1023 -> 0 < oh -> 0 < tw < 2 ^ 52 -> 0 < th < 2 ^ 52 ->
  exists w h,
    calculate_new_size self (ow, oh) = Ok (w, h) /\
    0 <= w <= tw /\ 0 <= h <= th /\ (w = tw \/ h = th).
Proof.
  intros Hm Ht How Hoh Htw Hth.
  unfold calculate_new_size. rewrite Hm, Ht. cbn [negb].
  destruct (int_truediv_spec ow oh) as (f & r & Ef & Df & Rf); [nia|lia|].
  rewrite Ef. cbn [bind].
  pose proof (denotes_nonneg _ _ Df) as Hr0.
  assert (HTW : (0 < IZR tw < IZR (2 ^ 52))%R) by (split; apply IZR_lt; lia).
  assert (HTH : (0 < IZR th < IZR (2 ^ 52))%R) by (split; apply IZR_lt; lia).
  assert (HOH : (0 < IZR oh)%R) by (apply IZR_lt; lia).
  assert (HB : (IZR (2 ^ 52) < bpow 1024)%R).
  { apply bpow_1024_gt. apply Z.pow_le_mono_r; lia. }
  assert (Rtw : representable (IZR tw)) by (apply representable_IZR; lia).
  assert (Rth : representable (IZR th)) by (apply representable_IZR; lia).
  assert (Rtw2 : representable (IZR (2 * tw + 1) / 2))
    by (apply representable_half; lia).
  assert (Rth2 : representable (IZR (2 * th + 1) / 2))
    by (apply representable_half; lia).
  assert (Etw2 : (IZR (2 * tw + 1) / 2 = IZR tw + / 2)%R)
    by (rewrite plus_IZR, mult_IZR; field).
  assert (Eth2 : (IZR (2 * th + 1) / 2 = IZR th + / 2)%R)
    by (rewrite plus_IZR, mult_IZR; field).
  destruct (gtb_cases ow oh) as [[G Hgt]|[G Hle]]; rewrite G.
  - (* landscape: the width is set first *)
    assert (Hr1 : (1 <= r)%R).
    { apply Rf; [apply (representable_IZR 1); lia|].
      assert (E : (IZR ow / IZR oh * IZR oh = IZR ow)%R) by (field; lra).
      assert (IZR oh <= IZR ow)%R by (apply IZR_le; lia).
      apply Rmult_le_reg_r with (IZR oh); [assumption|]. lra. }
    destruct (int_div_float_spec tw f r) as (g & q & Eg & Hg & Rq);
      [lia|assumption|lra|].
    rewrite Eg. cbn [bind].
    assert (Hq : (q <= IZR tw)%R).
    { apply Rq; [assumption|]. apply Rdiv_le_num; lra. }
    destruct (int_of_float_spec g q Hg) as (h0 & Eh & _ & Hh0 & Hfl); [lra|].
    rewrite Eh. cbn [bind].
    destruct (gtb_cases h0 th) as [[G1 Hgt1]|[G1 Hle1]]; rewrite G1.
    + assert (Hq1 : (IZR (2 * th + 1) / 2 < q)%R).
      { rewrite Eth2. assert (IZR (th + 1) <= IZR h0)%R by (apply IZR_le; lia).
        rewrite plus_IZR in H. lra. }
      apply (rounds_gt _ _ _ Rq Rth2) in Hq1. rewrite Eth2 in Hq1.
      assert (E : (IZR tw / r * r = IZR tw)%R) by (field; lra).
      assert (Hp0 : (IZR th * r <= IZR tw)%R) by nra.
      destruct (int_mul_float_spec th f r) as (g2 & p & Eg2 & Hg2 & Rp);
        [lia|assumption|].
      rewrite Eg2. cbn [bind].
      assert (Hp : (p <= IZR tw)%R) by (apply Rp; assumption).
      destruct (int_of_float_spec g2 p Hg2) as (w1 & Ew & _ & Hw1 & Hfl1); [lra|].
      rewrite Ew. cbn [bind].
      assert (w1 <= tw) by (apply le_IZR; lra).
      destruct (gtb_cases w1 tw) as [[G2 ?]|[G2 _]]; [lia|]. rewrite G2.
      exists w1, th. split; [reflexivity|lia].
    + cbn [bind].
      destruct (gtb_cases tw tw) as [[G2 ?]|[G2 _]]; [lia|]. rewrite G2.
      exists tw, h0. split; [reflexivity|lia].
  - (* portrait or square: the height is set first *)
    assert (Hr1 : (r <= 1)%R).
    { apply Rf; [apply (representable_IZR 1); lia|].
      assert (E : (IZR ow / IZR oh * IZR oh = IZR ow)%R) by (field; lra).
      assert (IZR ow <= IZR oh)%R by (apply IZR_le; lia).
      apply Rmult_le_reg_r with (IZR oh); [assumption|]. lra. }
    destruct (int_mul_float_spec th f r) as (g & p & Eg & Hg & Rp);
      [lia|assumption|].
    rewrite Eg. cbn [bind].
    assert (Hp : (p <= IZR th)%R) by (apply Rp; [assumption|nra]).
    destruct (int_of_float_spec g p Hg) as (w0 & Ew & _ & Hw0 & Hfl); [lra|].
    rewrite Ew. cbn [bind].
    destruct (gtb_cases th th) as [[G1 ?]|[G1 _]]; [lia|]. rewrite G1.
    cbn [bind].
    destruct (gtb_cases w0 tw) as [[G2 Hgt2]|[G2 Hle2]]; rewrite G2.
    + assert (Hp1 : (IZR (2 * tw + 1) / 2 < p)%R).
      { rewrite Etw2. assert (IZR (tw + 1) <= IZR w0)%R by (apply IZR_le; lia).
        rewrite plus_IZR in H. lra. }
      apply (rounds_gt _ _ _ Rp Rtw2) in Hp1. rewrite Etw2 in Hp1.
      assert (Hrpos : (0 < r)%R) by nra.
      destruct (int_div_float_spec tw f r) as (g2 & q & Eg2 & Hg2 & Rq);
        [lia|assumption|assumption|].
      rewrite Eg2. cbn [bind].
      assert (E : (IZR tw / r * r = IZR tw)%R) by (field; lra).
      assert (Hq0 : (IZR tw / r <= IZR th)%R).
      { apply Rmult_le_reg_r with r; [assumption|]. lra. }
      assert (Hq : (q <= IZR th)%R) by (apply Rq; assumption).
      destruct (int_of_float_spec g2 q Hg2) as (h1 & Eh & _ & Hh1 & Hfl1); [lra|].
      rewrite Eh. cbn [bind].
      assert (h1 <= th) by (apply le_IZR; lra).
      exists tw, h1. split; [reflexivity|lia].
    + exists w0, th. split; [reflexivity|lia].
Qed.

End CalculateNewSize.

Section Returns.
Import Py Binary64 Resizer Methods.

Lemma representable_pow2 n : 0 <= n <= 1023 -> representable (IZR (2 ^ n)).
Proof.
  intros Hn. destruct (Z_le_gt_dec n 53) as [H|H].
  - apply representable_IZR. split; [apply Z.pow_nonneg; lia|].
    apply Z.pow_le_mono_r; lia.
  - exists (2 ^ 52), (n - 52). split; [|lia].
    rewrite (F2R_shift (2 ^ 52) (n - 52) 0) by lia. unfold F2R.
    rewrite bpow_0, Rmult_1_r. apply f_equal.
    rewrite <- Z.pow_add_r by lia. f_equal. lia.
Qed.

Lemma float_of_int_spec t :
  0 < t <= 2 ^ 1022 ->
  exists f V, float_of_int t = Ok f /\ denotes f V /\ normal f /\
              rounds (IZR t) V /\ (1 <= V <= IZR (2 ^ 1022))%R.
Proof.
  intros Ht. destruct t as [|p|p]; try lia.
  unfold float_of_int. cbn [binary_normalize].
  destruct (binary_round_spec p 0) as (v & He & Hr).
  replace (F2R (Z.pos p) 0) with (IZR (Z.pos p)) in Hr
    by (unfold F2R; rewrite bpow_0; lra).
  assert (H1 : (1 <= v)%R).
  { apply Hr; [apply (representable_IZR 1); lia|apply IZR_le; lia]. }
  assert (H2 : (v <= IZR (2 ^ 1022))%R).
  { apply Hr; [apply representable_pow2; lia|apply IZR_le; lia]. }
  assert (HB : (v < bpow 1024)%R).
  { pose proof (bpow_1024_gt (2 ^ 1022)
                  ltac:(apply Z.pow_le_mono_r; lia)). lra. }
  destruct (encodes_denotes _ _ He HB) as [E D].
  exists (binary_round prec emax false p 0), v.
  repeat split; try assumption; try apply Hr.
  apply (encodes_normal _ _ He); assumption.
Qed.

Lemma int_mul_float_via t ft V f r :
  float_of_int t = Ok ft -> denotes ft V -> normal ft -> denotes f r ->
  exists g p, int_mul_float t f = Ok g /\ encodes g p /\ rounds (V * r) p.
Proof.
  intros E D N Hf. unfold int_mul_float. rewrite E. cbn [bind float_mul].
  destruct (SFmul_denotes _ _ _ _ D N Hf) as (p & He & Hr).
  eexists _, p. repeat split; try eassumption; apply Hr.
Qed.

Lemma int_div_float_via t ft V f r :
  float_of_int t = Ok ft -> denotes ft V -> (0 < V)%R ->
  denotes f r -> (0 < r)%R ->
  exists g q, int_div_float t f = Ok g /\ encodes g q /\ rounds (V / r) q.
Proof.
  intros E D HV Hf Hr. unfold int_div_float. rewrite E. cbn [bind].
  unfold float_truediv.
  assert (Z : is_zero f = false).
  { destruct f as [[]|[]| |[] m e]; cbn in Hf |- *; try tauto; lra. }
  rewrite Z.
  destruct (SFdiv_denotes _ _ _ _ D Hf HV Hr) as (q & He & Hq).
  eexists _, q. repeat split; try eassumption; apply Hq.
Qed.

(** Within the range of binary64, [calculate_new_size] returns a size. *)
Lemma calculate_new_size_returns self ow oh tw th :
  maintain_aspect_ratio self = true -> target_size self = (tw, th) ->
  0 <= ow <= 2 ^ 1022 -> 0 < oh -> 0 < tw <= 2 ^ 1022 -> 0 < th <= 2 ^ 1022 ->
  exists w h, calculate_new_size self (ow, oh) = Ok (w, h).
Proof.
  intros Hm Ht How Hoh Htw Hth.
  unfold calculate_new_size. rewrite Hm, Ht. cbn [negb].
  assert (P1022 : 2 ^ 1022 <= 2 ^ 1023) by (apply Z.pow_le_mono_r; lia).
  destruct (int_truediv_spec ow oh) as (f & r & Ef & Df & Rf); [nia|lia|].
  rewrite Ef. cbn [bind].
  pose proof (denotes_nonneg _ _ Df) as Hr0.
  destruct (float_of_int_spec tw Htw) as (fw & Vw & Efw & Dw & Nw & Rw & Bw).
  destruct (float_of_int_spec th Hth) as (fh & Vh & Efh & Dh & Nh & Rh & Bh).
  assert (HOH : (0 < IZR oh)%R) by (apply IZR_lt; lia).
  assert (H22 : (IZR (2 ^ 1022) * 2 = IZR (2 ^ 1023))%R).
  { rewrite <- mult_IZR. apply f_equal.
    replace 1023 with (1022 + 1) by lia. rewrite Z.pow_add_r by lia. lia. }
  pose proof (bpow_1024_gt (2 ^ 1023) ltac:(lia)) as HB.
  pose proof representable_pow1023 as R1023.
  assert (Hfin : forall x v, rounds x v -> (x <= IZR (2 ^ 1023))%R ->
                             (v < bpow 1024)%R).
  { intros x v Hv Hx. apply Rle_lt_trans with (IZR (2 ^ 1023)); [|assumption].
    apply Hv; assumption. }
  destruct (gtb_cases ow oh) as [[G Hgt]|[G Hle]]; rewrite G.
  - (* landscape *)
    assert (Hr1 : (1 <= r)%R).
    { apply Rf; [apply (representable_IZR 1); lia|].
      assert (IZR oh <= IZR ow)%R by (apply IZR_le; lia).
      apply Rmult_le_reg_r with (IZR oh); [assumption|].
      replace (IZR ow / IZR oh * IZR oh)%R with (IZR ow) by (field; lra). lra. }
    destruct (int_div_float_via tw fw Vw f r) as (g & q & Eg & Hg & Rq);
      try assumption; try lra.
    rewrite Eg. cbn [bind].
    assert (Hx : (Vw / r <= Vw)%R) by (apply Rdiv_le_num; lra).
    assert (Hq : (q < bpow 1024)%R) by (apply (Hfin _ _ Rq); lra).
    destruct (int_of_float_spec g q Hg Hq) as (h0 & Eh & _ & Hh0 & Hfl).
    rewrite Eh. cbn [bind].
    destruct (encodes_denotes _ _ Hg Hq) as [_ Dq].
    destruct (gtb_cases h0 th) as [[G1 Hgt1]|[G1 Hle1]]; rewrite G1.
    + assert (Hthq : (IZR th + 1 <= q)%R).
      { assert (IZR (th + 1) <= IZR h0)%R by (apply IZR_le; lia).
        rewrite plus_IZR in H. lra. }
      assert (Hth1 : (1 <= IZR th)%R) by (apply IZR_le; lia).
      assert (HVq : (Vh <= q)%R).
      { apply Rh; [apply (denotes_representable g); assumption|lra]. }
      pose proof (rounds_le_twice _ _ _ Rq Dq ltac:(lra)) as H2.
      assert (E : (Vw / r * r = Vw)%R) by (field; lra).
      assert (Hp0 : (Vh * r <= IZR (2 ^ 1023))%R) by nra.
      destruct (int_mul_float_via th fh Vh f r) as (g2 & p & Eg2 & Hg2 & Rp);
        try assumption.
      rewrite Eg2. cbn [bind].
      pose proof (Hfin _ _ Rp Hp0) as Hp.
      destruct (int_of_float_spec g2 p Hg2 Hp) as (w1 & Ew & _).
      rewrite Ew. cbn [bind].
      destruct (w1 >? tw); cbn [bind]; do 2 eexists; reflexivity.
    + cbn [bind].
      destruct (gtb_cases tw tw) as [[G2 ?]|[G2 _]]; [lia|]. rewrite G2.
      cbn [bind]. do 2 eexists. reflexivity.
  - (* portrait or square *)
    assert (Hr1 : (r <= 1)%R).
    { apply Rf; [apply (representable_IZR 1); lia|].
      assert (IZR ow <= IZR oh)%R by (apply IZR_le; lia).
      apply Rmult_le_reg_r with (IZR oh); [assumption|].
      replace (IZR ow / IZR oh * IZR oh)%R with (IZR ow) by (field; lra). lra. }
    destruct (int_mul_float_via th fh Vh f r) as (g & p & Eg & Hg & Rp);
      try assumption.
    rewrite Eg. cbn [bind].
    assert (Hp : (p < bpow 1024)%R) by (apply (Hfin _ _ Rp); nra).
    destruct (int_of_float_spec g p Hg Hp) as (w0 & Ew & _ & Hw0 & Hfl).
    rewrite Ew. cbn [bind].
    destruct (encodes_denotes _ _ Hg Hp) as [_ Dp].
    destruct (gtb_cases th th) as [[G1 ?]|[G1 _]]; [lia|]. rewrite G1.
    cbn [bind].
    destruct (gtb_cases w0 tw) as [[G2 Hgt2]|[G2 Hle2]]; rewrite G2;
      [|cbn [bind]; do 2 eexists; reflexivity].
    assert (Htwp : (IZR tw + 1 <= p)%R).
    { assert (IZR (tw + 1) <= IZR w0)%R by (apply IZR_le; lia).
      rewrite plus_IZR in H. lra. }
    assert (Htw1 : (1 <= IZR tw)%R) by (apply IZR_le; lia).
    assert (HVp : (Vw <= p)%R).
    { apply Rw; [apply (denotes_representable g); assumption|lra]. }
    pose proof (rounds_le_twice _ _ _ Rp Dp ltac:(lra)) as H2.
    assert (Hrpos : (0 < r)%R) by nra.
    destruct (int_div_float_via tw fw Vw f r) as (g2 & q & Eg2 & Hg2 & Rq);
      try assumption; try lra.
    rewrite Eg2. cbn [bind].
    assert (Hq0 : (Vw / r <= IZR (2 ^ 1023))%R).
    { apply Rmult_le_reg_r with r; [assumption|].
      replace (Vw / r * r)%R with Vw by (field; lra). nra. }
    pose proof (Hfin _ _ Rq Hq0) as Hq.
    destruct (int_of_float_spec g2 q Hg2 Hq) as (h1 & Eh & _).
    rewrite Eh. cbn [bind]. do 2 eexists. reflexivity.
Qed.

End Returns.

(** ** Facts that hold at every size *)

Section EverySize.
Import Py Binary64 Resizer Methods Facts.

Lemma bind_inv {A B : Type} (c : result A) (k : A -> result B) b :
  bind c k = Ok b -> exists a, c = Ok a /\ k a = Ok b.
Proof. destruct c as [a|e]; cbn; [eauto|discriminate]. Qed.

Lemma bind_ext {A B : Type} (c : result A) (k1 k2 : A -> result B) :
  (forall a, c = Ok a -> k1 a = k2 a) -> bind c k1 = bind c k2.
Proof. destruct c as [a|e]; cbn; auto. Qed.

Lemma binary_round_aux_sign m e l :
  sign_ok (binary_round_aux prec emax false m e l).
Proof.
  unfold binary_round_aux.
  destruct (shr_fexp prec emax m e l) as [r1 e1].
  destruct (shr_fexp prec emax _ e1 loc_Exact) as [r2 e2].
  destruct (shr_m r2); try exact I.
  destruct (e2 <=? emax - prec); exact I.
Qed.

Lemma SFmul_sign x y : sign_ok x -> sign_ok y -> sign_ok (SFmul prec emax x y).
Proof.
  destruct x as [[]|[]| |[] mx ex]; cbn [sign_ok]; try tauto;
    destruct y as [[]|[]| |[] my ey]; cbn [sign_ok]; try tauto; intros _ _;
    try exact I.
  cbn [SFmul xorb]. apply binary_round_aux_sign.
Qed.

Lemma SFdiv_sign x y : sign_ok x -> sign_ok y -> sign_ok (SFdiv prec emax x y).
Proof.
  destruct x as [[]|[]| |[] mx ex]; cbn [sign_ok]; try tauto;
    destruct y as [[]|[]| |[] my ey]; cbn [sign_ok]; try tauto; intros _ _;
    try exact I.
  cbn [SFdiv xorb].
  destruct (SFdiv_core_binary prec emax (Z.pos mx) ex (Z.pos my) ey) as [[q e] l].
  apply binary_round_aux_sign.
Qed.

Lemma exact_of_int_sign z : 0 <= z -> sign_ok (exact_of_int z).
Proof. destruct z; cbn; intros; try exact I; lia. Qed.

Lemma overflow_check_inv f g : overflow_check f = Ok g -> g = f.
Proof. destruct f; cbn; intros H; inversion H; reflexivity. Qed.

Lemma float_of_int_sign t f : 0 <= t -> float_of_int t = Ok f -> sign_ok f.
Proof.
  intros Ht E. apply overflow_check_inv in E. subst f.
  destruct t as [|p|p]; try lia; cbn [binary_normalize]; [exact I|].
  unfold binary_round. destruct (shl_align _ _ _) as [mz ez].
  apply binary_round_aux_sign.
Qed.

Lemma int_truediv_sign a b f :
  0 <= a -> 0 <= b -> int_truediv a b = Ok f -> sign_ok f.
Proof.
  unfold int_truediv. intros Ha Hb. destruct (b =? 0); [discriminate|].
  intros E. apply overflow_check_inv in E. subst f.
  apply SFdiv_sign; apply exact_of_int_sign; assumption.
Qed.

Lemma int_mul_float_sign t f g :
  0 <= t -> sign_ok f -> int_mul_float t f = Ok g -> sign_ok g.
Proof.
  unfold int_mul_float. intros Ht Hf E.
  apply bind_inv in E. destruct E as (ft & E1 & E2).
  inversion E2. apply SFmul_sign; [|assumption].
  apply (float_of_int_sign t); assumption.
Qed.

Lemma int_div_float_sign t f g :
  0 <= t -> sign_ok f -> int_div_float t f = Ok g -> sign_ok g.
Proof.
  unfold int_div_float, float_truediv. intros Ht Hf E.
  apply bind_inv in E. destruct E as (ft & E1 & E2).
  destruct (is_zero f); [discriminate|].
  inversion E2. apply SFdiv_sign; [|assumption].
  apply (float_of_int_sign t); assumption.
Qed.

Lemma floor_of_float_int f : sign_ok f -> Spec.floor_of_float f = int_of_float f.
Proof. destruct f as [[]|[]| |[] m e]; cbn; tauto || reflexivity. Qed.

Lemma int_of_float_nonneg f z : sign_ok f -> int_of_float f = Ok z -> 0 <= z.
Proof.
  destruct f as [[]|[]| |[] m e]; cbn; try tauto; try discriminate;
    intros _ E; inversion E; try lia.
  apply Z.shiftl_nonneg. lia.
Qed.

Lemma no_zde_bind {A B : Type} (c : result A) (k : A -> result B) :
  no_zde c -> (forall a, c = Ok a -> no_zde (k a)) -> no_zde (bind c k).
Proof.
  unfold no_zde. destruct c as [a|e]; cbn; [auto|].
  intros H _ E. apply H. inversion E. reflexivity.
Qed.

Lemma no_zde_Ok {A : Type} (a : A) : no_zde (Ok a).
Proof. discriminate. Qed.

Lemma no_zde_overflow_check f : no_zde (overflow_check f).
Proof. destruct f; discriminate. Qed.

Lemma no_zde_int_of_float f : no_zde (int_of_float f).
Proof. destruct f; discriminate. Qed.

Lemma no_zde_int_mul_float t f : no_zde (int_mul_float t f).
Proof.
  apply no_zde_bind; [apply no_zde_overflow_check|].
  intros; apply no_zde_Ok.
Qed.

Lemma no_zde_int_div_float t f : is_zero f = false -> no_zde (int_div_float t f).
Proof.
  intros Z. apply no_zde_bind; [apply no_zde_overflow_check|].
  intros a _. unfold float_truediv. rewrite Z. apply no_zde_Ok.
Qed.

Lemma no_zde_int_truediv a b : b <> 0 -> no_zde (int_truediv a b).
Proof.
  intros Hb. unfold int_truediv. destruct (Z.eqb_spec b 0); [contradiction|].
  apply no_zde_overflow_check.
Qed.

Lemma int_truediv_ge_1 a b f :
  0 < b <= a -> int_truediv a b = Ok f -> is_zero f = false.
Proof.
  intros H E. destruct (int_truediv_cases a b) as [E'|(f' & v & E' & D & Rv)];
    try lia; rewrite E' in E; [discriminate|].
  inversion E; subst f'.
  assert (1 <= v)%R.
  { apply Rv; [apply (representable_IZR 1); lia|].
    assert (HB : (0 < IZR b)%R) by (apply IZR_lt; lia).
    apply Rmult_le_reg_r with (IZR b); [assumption|].
    replace (IZR a / IZR b * IZR b)%R with (IZR a) by (field; lra).
    rewrite Rmult_1_l. apply IZR_le. lia. }
  destruct f as [[]|[]| |[] m e]; cbn in D |- *; try tauto; lra.
Qed.

Lemma int_mul_float_zero t f g w :
  0 < t -> is_zero f = true -> sign_ok f ->
  int_mul_float t f = Ok g -> int_of_float g = Ok w -> w = 0.
Proof.
  intros Ht Z S E Ew. unfold int_mul_float in E.
  apply bind_inv in E. destruct E as (ft & E1 & E2).
  destruct (float_of_int_cases t Ht) as [E'|(ft' & v & E' & D & N & _)];
    rewrite E' in E1; [discriminate|]. inversion E1; subst ft'.
  inversion E2; subst g.
  destruct ft as [[]|[]| |[] m e]; cbn in N; try tauto.
  destruct f as [s| | |]; try discriminate.
  cbn in Ew. inversion Ew. reflexivity.
Qed.

End EverySize.

Section Shape.
Import Py Binary64 Resizer Methods Facts.

(** Every size [calculate_new_size] returns was produced by one of the two
    scalings: the target width with the height derived from it, or the
    target height with the width derived from it. *)
Lemma calculate_new_size_inv self ow oh tw th w h :
  maintain_aspect_ratio self = true -> target_size self = (tw, th) ->
  calculate_new_size self (ow, oh) = Ok (w, h) ->
  exists r, int_truediv ow oh = Ok r /\
    ((w = tw /\ exists q, int_div_float tw r = Ok q /\ int_of_float q = Ok h) \/
     (h = th /\ exists p, int_mul_float th r = Ok p /\ int_of_float p = Ok w)).
Proof.
  intros Hm Ht H. unfold calculate_new_size in H.
  rewrite Hm, Ht in H. cbn [negb] in H.
  apply bind_inv in H. destruct H as (r & Er & H).
  exists r. split; [assumption|].
  apply bind_inv in H. destruct H as ([nw nh] & E1 & H).
  apply bind_inv in H. destruct H as ([nw2 nh2] & E2 & H).
  apply bind_inv in H. destruct H as ([nw3 nh3] & E3 & H).
  inversion H; subst nw3 nh3; clear H.
  destruct (nw2 >? tw).
  { apply bind_inv in E3. destruct E3 as (q & Eq & E3).
    apply bind_inv in E3. destruct E3 as (h' & Eh & E3).
    inversion E3; subst. left. eauto. }
  inversion E3; subst nw2 nh2; clear E3.
  destruct (nh >? th).
  { apply bind_inv in E2. destruct E2 as (p & Ep & E2).
    apply bind_inv in E2. destruct E2 as (w' & Ew & E2).
    inversion E2; subst. right. eauto. }
  inversion E2; subst nw nh; clear E2.
  destruct (ow >? oh).
  - apply bind_inv in E1. destruct E1 as (q & Eq & E1).
    apply bind_inv in E1. destruct E1 as (h' & Eh & E1).
    inversion E1; subst. left. eauto.
  - apply bind_inv in E1. destruct E1 as (p & Ep & E1).
    apply bind_inv in E1. destruct E1 as (w' & Ew & E1).
    inversion E1; subst. right. eauto.
Qed.

Lemma calculate_new_size_touches self ow oh tw th w h :
  maintain_aspect_ratio self = true -> target_size self = (tw, th) ->
  calculate_new_size self (ow, oh) = Ok (w, h) ->
  w = tw \/ h = th.
Proof.
  intros Hm Ht H.
  destruct (calculate_new_size_inv _ _ _ _ _ _ _ Hm Ht H) as (r & _ & [[? _]|[? _]]);
    auto.
Qed.

Lemma calculate_new_size_nonneg self ow oh tw th w h :
  maintain_aspect_ratio self = true -> target_size self = (tw, th) ->
  0 <= ow -> 0 <= oh -> 0 <= tw -> 0 <= th ->
  calculate_new_size self (ow, oh) = Ok (w, h) ->
  0 <= w /\ 0 <= h.
Proof.
  intros Hm Ht How Hoh Htw Hth H.
  destruct (calculate_new_size_inv _ _ _ _ _ _ _ Hm Ht H)
    as (r & Er & [[-> (q & Eq & Eh)]|[-> (p & Ep & Ew)]]);
    pose proof (int_truediv_sign _ _ _ How Hoh Er) as Sr.
  - split; [assumption|].
    apply (int_of_float_nonneg q); [|assumption].
    apply (int_div_float_sign tw r); assumption.
  - split; [|assumption].
    apply (int_of_float_nonneg p); [|assumption].
    apply (int_mul_float_sign th r); assumption.
Qed.

Lemma calculate_new_size_distort self original :
  maintain_aspect_ratio self = false ->
  calculate_new_size self original = Ok (target_size self).
Proof. intros Hm. unfold calculate_new_size. rewrite Hm. reflexivity. Qed.

Lemma calculate_new_size_zero_height self ow :
  maintain_aspect_ratio self = true ->
  calculate_new_size self (ow, 0) = Raise ZeroDivisionError.
Proof.
  intros Hm. unfold calculate_new_size. rewrite Hm.
  destruct (target_size self) as [tw th]. reflexivity.
Qed.

Lemma calculate_new_size_no_zde self ow oh tw th :
  target_size self = (tw, th) ->
  0 <= ow -> 0 < oh -> 0 < tw -> 0 < th ->
  no_zde (calculate_new_size self (ow, oh)).
Proof.
  intros Ht How Hoh Htw Hth. unfold calculate_new_size.
  destruct (maintain_aspect_ratio self); cbn [negb]; [|apply no_zde_Ok].
  rewrite Ht.
  apply no_zde_bind; [apply no_zde_int_truediv; lia|]. intros r Er.
  assert (Sr : sign_ok r) by (apply (int_truediv_sign ow oh); auto; lia).
  assert (Zr : oh < ow -> is_zero r = false).
  { intros H. apply (int_truediv_ge_1 ow oh); [lia|assumption]. }
  apply no_zde_bind.
  { destruct (gtb_cases ow oh) as [[G ?]|[G ?]]; rewrite G.
    - apply no_zde_bind; [apply no_zde_int_div_float; auto|]. intros q _.
      apply no_zde_bind; [apply no_zde_int_of_float|]. intros; apply no_zde_Ok.
    - apply no_zde_bind; [apply no_zde_int_mul_float|]. intros p _.
      apply no_zde_bind; [apply no_zde_int_of_float|]. intros; apply no_zde_Ok. }
  intros [nw nh] E1.
  assert (I1 : is_zero r = true -> nw = 0).
  { intros Z. destruct (gtb_cases ow oh) as [[G ?]|[G ?]]; rewrite G in E1.
    - rewrite Zr in Z by assumption. discriminate.
    - apply bind_inv in E1. destruct E1 as (p & Ep & E1).
      apply bind_inv in E1. destruct E1 as (w' & Ew & E1).
      inversion E1; subst.
      apply (int_mul_float_zero nh r p); assumption. }
  apply no_zde_bind.
  { destruct (nh >? th); [|apply no_zde_Ok].
    apply no_zde_bind; [apply no_zde_int_mul_float|]. intros p _.
    apply no_zde_bind; [apply no_zde_int_of_float|]. intros; apply no_zde_Ok. }
  intros [nw2 nh2] E2.
  assert (I2 : is_zero r = true -> nw2 = 0).
  { intros Z. destruct (nh >? th).
    - apply bind_inv in E2. destruct E2 as (p & Ep & E2).
      apply bind_inv in E2. destruct E2 as (w' & Ew & E2).
      inversion E2; subst.
      apply (int_mul_float_zero nh2 r p); assumption.
    - inversion E2; subst. auto. }
  apply no_zde_bind; [|intros [? ?] _; apply no_zde_Ok].
  destruct (gtb_cases nw2 tw) as [[G ?]|[G ?]]; rewrite G; [|apply no_zde_Ok].
  assert (Z : is_zero r = false).
  { destruct (is_zero r) eqn:Z; [|reflexivity]. specialize (I2 eq_refl). lia. }
  apply no_zde_bind; [apply no_zde_int_div_float; assumption|]. intros q _.
  apply no_zde_bind; [apply no_zde_int_of_float|]. intros; apply no_zde_Ok.
Qed.

End Shape.

Section AgainstTheSpec.
Import Py Binary64 Resizer Methods.

Lemma scale_height_floor tw r :
  0 <= tw -> sign_ok r ->
  (q <- int_div_float tw r ;; h <- Spec.floor_of_float q ;; Ok (tw, h)) =
  (q <- int_div_float tw r ;; h <- int_of_float q ;; Ok (tw, h)).
Proof.
  intros Ht Sr. apply bind_ext. intros q Eq.
  rewrite floor_of_float_int; [reflexivity|].
  apply (int_div_float_sign tw r); assumption.
Qed.

Lemma scale_width_floor th r :
  0 <= th -> sign_ok r ->
  (p <- int_mul_float th r ;; w <- Spec.floor_of_float p ;; Ok (w, th)) =
  (p <- int_mul_float th r ;; w <- int_of_float p ;; Ok (w, th)).
Proof.
  intros Ht Sr. apply bind_ext. intros p Ep.
  rewrite floor_of_float_int; [reflexivity|].
  apply (int_mul_float_sign th r); assumption.
Qed.

(** When the original is not square, the code and the reference algorithm
    run the same operations. *)
Lemma calculate_new_size_oblong self ow oh tw th :
  maintain_aspect_ratio self = true -> target_size self = (tw, th) ->
  0 <= ow -> 0 <= oh -> 0 <= tw -> 0 <= th -> ow <> oh ->
  calculate_new_size self (ow, oh) = Spec.computeSize (ow, oh) (tw, th) true.
Proof.
  intros Hm Ht How Hoh Htw Hth Hne.
  unfold calculate_new_size, Spec.computeSize. rewrite Hm, Ht. cbn [negb].
  apply bind_ext. intros r Er.
  pose proof (int_truediv_sign _ _ _ How Hoh Er) as Sr.
  rewrite (scale_height_floor tw r Htw Sr), (scale_width_floor th r Hth Sr).
  replace (ow >=? oh) with (ow >? oh); [reflexivity|].
  rewrite Z.gtb_ltb, Z.geb_leb.
  destruct (Z.ltb_spec oh ow), (Z.leb_spec oh ow); try reflexivity; lia.
Qed.

(** Scaling by the ratio of a square is exact up to 2^53. *)
Lemma scale_by_one t f :
  0 < t <= 2 ^ 53 -> denotes f 1 ->
  (exists g, int_mul_float t f = Ok g /\ int_of_float g = Ok t /\
             Spec.floor_of_float g = Ok t) /\
  (exists g, int_div_float t f = Ok g /\ int_of_float g = Ok t /\
             Spec.floor_of_float g = Ok t).
Proof.
  intros Ht Hf.
  assert (HB : (IZR t < bpow 1024)%R).
  { apply bpow_1024_gt.
    assert (2 ^ 53 <= 2 ^ 1023) by (apply Z.pow_le_mono_r; lia). lia. }
  assert (Rt : representable (IZR t)) by (apply representable_IZR; lia).
  assert (Hz : forall g v, encodes g v -> v = IZR t ->
             int_of_float g = Ok t /\ Spec.floor_of_float g = Ok t).
  { intros g v Hg ->.
    destruct (int_of_float_spec g _ Hg HB) as (z & E1 & E2 & _ & Hfl).
    assert (z = t).
    { assert (z <= t) by (apply le_IZR; lra).
      assert (t < z + 1) by (apply lt_IZR; rewrite plus_IZR; lra). lia. }
    subst z. auto. }
  split.
  - destruct (int_mul_float_spec t f 1 Ht Hf) as (g & p & Eg & Hg & Rp).
    rewrite Rmult_1_r in Rp. apply (rounds_exact _ _ Rt) in Rp.
    exists g. split; [assumption|]. apply (Hz g p); assumption.
  - destruct (int_div_float_spec t f 1 Ht Hf) as (g & q & Eg & Hg & Rq); [lra|].
    replace (IZR t / 1)%R with (IZR t) in Rq by field.
    apply (rounds_exact _ _ Rt) in Rq.
    exists g. split; [assumption|]. apply (Hz g q); assumption.
Qed.

Lemma int_truediv_same n :
  0 < n -> exists f, int_truediv n n = Ok f /\ denotes f 1.
Proof.
  intros Hn.
  destruct (int_truediv_spec n n) as (f & v & E & D & Rv); [nia|lia|].
  replace (IZR n / IZR n)%R with 1%R in Rv
    by (field; apply not_0_IZR; lia).
  apply rounds_exact in Rv; [|apply (representable_IZR 1); lia].
  subst v. eauto.
Qed.

(** On a square original both algorithms give the smaller side of the
    target box, as long as the target is exactly representable. *)
Lemma calculate_new_size_square self n tw th :
  maintain_aspect_ratio self = true -> target_size self = (tw, th) ->
  0 < n -> 0 < tw <= 2 ^ 53 -> 0 < th <= 2 ^ 53 ->
  calculate_new_size self (n, n) = Ok (Z.min tw th, Z.min tw th) /\
  Spec.computeSize (n, n) (tw, th) true = Ok (Z.min tw th, Z.min tw th).
Proof.
  intros Hm Ht Hn Htw Hth.
  destruct (int_truediv_same n Hn) as (f & Ef & Df).
  destruct (scale_by_one tw f Htw Df) as
    [(gm1 & Em1 & Im1 & Fm1) (gd1 & Ed1 & Id1 & Fd1)].
  destruct (scale_by_one th f Hth Df) as
    [(gm2 & Em2 & Im2 & Fm2) (gd2 & Ed2 & Id2 & Fd2)].
  assert (Gn : (n >? n) = false) by (rewrite Z.gtb_ltb; apply Z.ltb_irrefl).
  assert (Gn' : (n >=? n) = true) by (rewrite Z.geb_leb; apply Z.leb_refl).
  assert (Gtw : (tw >? tw) = false) by (rewrite Z.gtb_ltb; apply Z.ltb_irrefl).
  assert (Gth : (th >? th) = false) by (rewrite Z.gtb_ltb; apply Z.ltb_irrefl).
  split.
  - unfold calculate_new_size. rewrite Hm, Ht. cbn [negb].
    rewrite Ef. cbn [bind]. rewrite Gn, Em2. cbn [bind].
    rewrite Im2. cbn [bind]. rewrite Gth. cbn [bind].
    destruct (gtb_cases th tw) as [[G ?]|[G ?]]; rewrite G.
    + rewrite Ed1. cbn [bind]. rewrite Id1. cbn [bind].
      rewrite Z.min_l by lia. reflexivity.
    + cbn [bind]. rewrite Z.min_r by lia. reflexivity.
  - unfold Spec.computeSize. cbn [negb].
    rewrite Ef. cbn [bind]. rewrite Gn', Ed1. cbn [bind].
    rewrite Fd1. cbn [bind].
    destruct (gtb_cases tw th) as [[G ?]|[G ?]]; rewrite G.
    + rewrite Em2. cbn [bind]. rewrite Fm2. cbn [bind].
      destruct (gtb_cases th tw) as [[G' ?]|[G' ?]]; [lia|]. rewrite G'.
      cbn [bind]. rewrite Z.min_r by lia. reflexivity.
    + cbn [bind]. rewrite Gtw. cbn [bind]. rewrite Z.min_l by lia. reflexivity.
Qed.

End AgainstTheSpec.

(** ** File names and the enumeration *)

Section Names.
Import Py PathName Resizer Methods.
Local Open Scope string_scope.

Lemma length_append a b :
  String.length (a ++ b) = (String.length a + String.length b)%nat.
Proof. induction a as [|c a IH]; cbn; [reflexivity|]. rewrite IH. reflexivity. Qed.

Lemma substring_all s : substring 0 (String.length s) s = s.
Proof. induction s as [|c s IH]; cbn; [reflexivity|]. rewrite IH. reflexivity. Qed.

Lemma substring_skip a s m :
  substring (String.length a) m (a ++ s) = substring 0 m s.
Proof. induction a as [|c a IH]; cbn; [reflexivity|]. apply IH. Qed.

Lemma substring_prefix a s : substring 0 (String.length a) (a ++ s) = a.
Proof.
  induction a as [|c a IH]; cbn; [destruct s; reflexivity|].
  rewrite IH. reflexivity.
Qed.

Lemma rfind_app c a b :
  rfind c b = None -> rfind c (a ++ String c b) = Some (String.length a).
Proof.
  intros Hb. induction a as [|x a IH]; cbn.
  - rewrite Hb, Ascii.eqb_refl. reflexivity.
  - rewrite IH. reflexivity.
Qed.

Lemma rfind_split c s i :
  rfind c s = Some i ->
  exists a b, s = a ++ String c b /\ String.length a = i /\ rfind c b = None.
Proof.
  revert i. induction s as [|x s IH]; cbn; intros i H; [discriminate|].
  destruct (rfind c s) as [j|] eqn:E.
  - inversion H; subst i. destruct (IH j eq_refl) as (a & b & -> & <- & Hb).
    exists (String x a), b. repeat split. assumption.
  - destruct (Ascii.eqb_spec x c) as [->|]; [|discriminate].
    inversion H; subst i. exists "", s. repeat split. assumption.
Qed.

(** The two parts [pathlib] splits a name into, when it has a suffix. *)
Lemma suffix_stem_parts a b :
  a <> "" -> b <> "" -> rfind dot b = None ->
  suffix (a ++ String dot b) = String dot b /\ stem (a ++ String dot b) = a.
Proof.
  intros Ha Hb Hd. unfold suffix, stem.
  rewrite (rfind_app dot a b Hd), length_append. cbn [String.length].
  assert (0 < String.length a)%nat by (destruct a; cbn; [contradiction|lia]).
  assert (0 < String.length b)%nat by (destruct b; cbn; [contradiction|lia]).
  destruct (Nat.ltb_spec 0 (String.length a)); [|lia].
  destruct (Nat.ltb_spec (String.length a)
              (String.length a + S (String.length b) - 1)); [|lia].
  cbn [andb]. split.
  - rewrite substring_skip.
    replace (String.length a + S (String.length b) - String.length a)%nat
      with (String.length (String dot b)) by (cbn; lia).
    apply substring_all.
  - apply substring_prefix.
Qed.

Lemma suffix_inv name :
  suffix name <> "" ->
  exists a b, name = a ++ String dot b /\ a <> "" /\ b <> "" /\
              rfind dot b = None.
Proof.
  unfold suffix. destruct (rfind dot name) as [i|] eqn:E; [|contradiction].
  destruct (rfind_split _ _ _ E) as (a & b & -> & <- & Hb).
  rewrite length_append. cbn [String.length].
  destruct (Nat.ltb_spec 0 (String.length a)); [|contradiction].
  destruct (Nat.ltb_spec (String.length a)
              (String.length a + S (String.length b) - 1)); [|contradiction].
  intros _. exists a, b. repeat split; try assumption.
  - destruct a; cbn in *; [lia|discriminate].
  - destruct b; cbn in *; [lia|discriminate].
Qed.

Lemma suffix_shape name :
  suffix name = "" \/ exists b, suffix name = String dot b.
Proof.
  destruct (string_dec (suffix name) "") as [E|N]; [left; assumption|right].
  destruct (suffix_inv name N) as (a & b & -> & Ha & Hb & Hd).
  exists b. apply suffix_stem_parts; assumption.
Qed.

Lemma lower_char_dot c : Ascii.eqb (lower_char c) dot = Ascii.eqb c dot.
Proof. destruct c as [[] [] [] [] [] [] [] []]; reflexivity. Qed.

Lemma rfind_dot_lower s : rfind dot s = None -> rfind dot (lower s) = None.
Proof.
  induction s as [|c s IH]; cbn; [reflexivity|].
  destruct (rfind dot s); [discriminate|]. rewrite IH by reflexivity.
  rewrite lower_char_dot. auto.
Qed.

Lemma lower_nonempty s : s <> "" -> lower s <> "".
Proof. destruct s; cbn; [contradiction|discriminate]. Qed.

(** The test of [get_image_files] is the test of the specification. *)
Lemma supported_iff_enumerated e :
  is_file e && str_in (lower (suffix (entry_name e))) SUPPORTED_FORMATS =
  Spec.enumerated e.
Proof.
  unfold Spec.enumerated, Spec.extension. f_equal.
  destruct (suffix_shape (entry_name e)) as [->|(b & ->)]; [reflexivity|].
  cbn [lower tail1]. change (lower_char dot) with dot.
  unfold str_in, SUPPORTED_FORMATS, Spec.ALLOWED_EXTENSIONS, Spec.eq_ignoring_case.
  cbn [existsb String.eqb]. change (Ascii.eqb dot ".") with true.
  reflexivity.
Qed.

Lemma get_image_files_acc listing acc :
  fold_left
    (fun image_files file_path =>
       if is_file file_path
          && str_in (lower (suffix (entry_name file_path))) SUPPORTED_FORMATS
       then (image_files ++ [file_path])%list
       else image_files)
    listing acc
  = (acc ++ filter Spec.enumerated listing)%list.
Proof.
  revert acc. induction listing as [|e l IH]; intros acc; cbn [fold_left filter].
  - rewrite app_nil_r. reflexivity.
  - rewrite IH, supported_iff_enumerated.
    destruct (Spec.enumerated e); [|reflexivity].
    rewrite <- app_assoc. reflexivity.
Qed.

Lemma get_image_files_filter self listing :
  get_image_files self listing = filter Spec.enumerated listing.
Proof. unfold get_image_files. apply get_image_files_acc. Qed.

Lemma enumerated_has_suffix e :
  Spec.enumerated e = true -> suffix (entry_name e) <> "".
Proof.
  rewrite <- supported_iff_enumerated. intros H E. rewrite E in H.
  destruct (is_file e); discriminate.
Qed.

End Names.

(** ** The per-file pipeline and the batch *)

Section Batch.
Import Py PathName Resizer Methods Facts.
Local Open Scope string_scope.

Lemma appends_ret {A : Type} (a : A) : appends (ret a).
Proof. intros tr. unfold ret. cbn. rewrite app_nil_r. reflexivity. Qed.

Lemma appends_lift {A : Type} (r : result A) : appends (lift r).
Proof. intros tr. unfold lift. cbn. rewrite app_nil_r. reflexivity. Qed.

Lemma appends_call c op : appends (call c op).
Proof. intros tr. reflexivity. Qed.

Lemma appends_open c path : appends (open_image c path).
Proof. intros tr. reflexivity. Qed.

Lemma appends_mbind {A B : Type} (m : M A) (k : A -> M B) :
  appends m -> (forall a, appends (k a)) -> appends (mbind m k).
Proof.
  intros Hm Hk tr. unfold mbind. rewrite (Hm tr).
  destruct (m []) as [l [a|e]]; cbn [fst snd].
  - rewrite (Hk a (tr ++ l)%list), (Hk a l). cbn [fst snd].
    rewrite app_assoc. reflexivity.
  - reflexivity.
Qed.

Lemma appends_flatten c size mode : appends (flatten c size mode).
Proof.
  unfold flatten.
  apply appends_mbind; [apply appends_call|]. intros _.
  apply appends_mbind.
  { destruct (String.eqb mode "P"); [|apply appends_ret].
    apply appends_mbind; [apply appends_call|]. intros _. apply appends_ret. }
  intros m. apply appends_mbind.
  { destruct (String.eqb m "RGBA"); [|apply appends_ret].
    apply appends_mbind; [apply appends_call|]. intros _. apply appends_ret. }
  intros mask. apply appends_mbind; [apply appends_call|]. intros _.
  apply appends_ret.
Qed.

Lemma appends_body self c name : appends (resize_image_body self c name).
Proof.
  unfold resize_image_body.
  apply appends_mbind; [apply appends_open|]. intros [size mode].
  apply appends_mbind.
  { destruct (needs_flatten self mode);
      [apply appends_flatten|apply appends_ret]. }
  intros _. apply appends_mbind; [apply appends_lift|]. intros new_size.
  repeat (apply appends_mbind; [apply appends_call|]; intros _).
  apply appends_ret.
Qed.

Lemma same_config_refl a : same_config a a.
Proof. repeat split. Qed.

Lemma same_config_trans a b c :
  same_config a b -> same_config b c -> same_config a c.
Proof.
  unfold same_config. intros (?&?&?&?&?&?) (?&?&?&?&?&?).
  repeat split; congruence.
Qed.

Lemma same_config_body a b c name :
  same_config a b -> resize_image_body a c name = resize_image_body b c name.
Proof.
  destruct a, b. unfold same_config. cbn.
  intros (?&?&?&?&?&?). subst. reflexivity.
Qed.

Lemma same_config_completes a b c e :
  same_config a b -> completes a c e = completes b c e.
Proof. intros H. unfold completes. rewrite (same_config_body a b c _ H). reflexivity. Qed.

(** One file: one counter goes up by one, the other two stay. *)
Lemma resize_image_counts self c e tr :
  let '(self', ok, tr') := resize_image self c (entry_name e) tr in
  same_config self self' /\
  skipped self' = skipped self /\
  ok = completes self c e /\
  (if completes self c e
   then processed self' = processed self + 1 /\ failed self' = failed self
   else processed self' = processed self /\ failed self' = failed self + 1) /\
  tr' = (tr ++ fst (resize_image_body self c (entry_name e) []))%list.
Proof.
  unfold resize_image, completes.
  rewrite (appends_body self c (entry_name e) tr).
  destruct (resize_image_body self c (entry_name e) []) as [l [u|x]];
    cbn [fst snd returns]; repeat split; reflexivity.
Qed.

Lemma mbind_open_prefix {B : Type} c path (k : (Z * Z) * string -> M B) :
  (forall a, appends (k a)) ->
  exists l, fst (mbind (open_image c path) k []) = Open path :: l.
Proof.
  intros Hk. unfold mbind, open_image. cbn [app].
  destruct (decode c path) as [a|x]; cbn [fst]; [|eauto].
  rewrite (Hk a [Open path]). cbn [fst app]. eauto.
Qed.

Lemma body_opens self c name :
  exists l, fst (resize_image_body self c name []) =
            Open (join (input_folder self) name) :: l.
Proof.
  unfold resize_image_body. apply mbind_open_prefix. intros [size mode].
  apply appends_mbind.
  { destruct (needs_flatten self mode);
      [apply appends_flatten|apply appends_ret]. }
  intros _. apply appends_mbind; [apply appends_lift|]. intros new_size.
  repeat (apply appends_mbind; [apply appends_call|]; intros _).
  apply appends_ret.
Qed.

Lemma decode_failure_fails self c e x :
  decode c (join (input_folder self) (entry_name e)) = Raise x ->
  completes self c e = false.
Proof.
  intros H. unfold completes, resize_image_body, mbind, open_image.
  rewrite H. reflexivity.
Qed.

Lemma process_files_spec c files : forall self tr,
  let '(self', tr') := process_files self c files tr in
  same_config self self' /\
  skipped self' = skipped self /\
  processed self' =
    processed self + Z.of_nat (List.length (filter (completes self c) files)) /\
  failed self' =
    failed self +
    Z.of_nat (List.length (filter (fun e => negb (completes self c e)) files)) /\
  (forall op, In op tr -> In op tr') /\
  (forall e, In e files ->
             In (Open (join (input_folder self) (entry_name e))) tr').
Proof.
  unfold process_files.
  induction files as [|e files IH]; intros self tr; cbn [fold_left fst snd].
  - cbn. repeat split; try lia; auto using same_config_refl.
  - pose proof (resize_image_counts self c e tr) as H1.
    destruct (resize_image self c (entry_name e) tr) as [[self1 ok] tr1].
    destruct H1 as (C1 & S1 & _ & Cnt & Etr).
    specialize (IH self1 tr1).
    destruct (fold_left _ files (self1, tr1)) as [self' tr'].
    destruct IH as (C2 & S2 & P2 & F2 & Mono & Opens).
    assert (Efilt : forall f, completes self1 c f = completes self c f).
    { intros f. symmetry. apply same_config_completes. assumption. }
    rewrite (filter_ext _ _ Efilt) in P2.
    rewrite (filter_ext (fun e0 => negb (completes self1 c e0))
               (fun e0 => negb (completes self c e0))) in F2
      by (intros f; rewrite Efilt; reflexivity).
    split; [eapply same_config_trans; eassumption|].
    split; [congruence|].
    assert (HOpen : forall f, In f (e :: files) ->
              In (Open (join (input_folder self) (entry_name f))) tr').
    { intros f [<-|Hf].
      - apply Mono. rewrite Etr. apply in_or_app. right.
        destruct (body_opens self c (entry_name e)) as (l & ->).
        left; reflexivity.
      - destruct C1 as (Ei & _). rewrite Ei. apply Opens. assumption. }
    assert (HMono : forall op, In op tr -> In op tr').
    { intros op Hop. apply Mono. rewrite Etr. apply in_or_app. left; assumption. }
    cbn [filter]. destruct (completes self c e); cbn [negb List.length];
      destruct Cnt as [Cp Cf]; repeat split; try assumption; lia.
Qed.

End Batch.

Section BatchRun.
Import Py PathName Resizer Methods.
Local Open Scope string_scope.

Lemma process_batch_run self c listing tr :
  run c (Mkdir (output_folder self)) = Ok tt ->
  process_batch self c listing tr =
    let files := get_image_files self listing in
    let '(self', tr') :=
      process_files self c files (tr ++ [Mkdir (output_folder self)])%list in
    (tr', Ok (self', match files with [] => [] | _ => print_summary self' end)).
Proof.
  intros Hm. unfold process_batch, mbind, call. rewrite Hm.
  destruct (get_image_files self listing) as [|e files]; reflexivity.
Qed.

Lemma process_batch_inv self c listing tr tr' self' log :
  process_batch self c listing tr = (tr', Ok (self', log)) ->
  run c (Mkdir (output_folder self)) = Ok tt.
Proof.
  unfold process_batch, mbind, call.
  destruct (run c (Mkdir (output_folder self))) as [[]|x];
    [reflexivity|discriminate].
Qed.

Lemma print_summary_no_skipped self n :
  skipped self = 0 -> ~ In (LogSkipped n) (print_summary self).
Proof.
  intros Hs. unfold print_summary. rewrite Hs. cbn.
  destruct (failed self >? 0); cbn; intuition discriminate.
Qed.


End BatchRun.

Section Traces.
Import Py PathName Resizer Methods Facts.
Local Open Scope string_scope.

Lemma emits_ret {A : Type} P (a : A) : emits P (ret a).
Proof. intros op []. Qed.

Lemma emits_lift {A : Type} P (r : result A) : emits P (lift r).
Proof. intros op []. Qed.

Lemma emits_call P c op : P op -> emits P (call c op).
Proof. intros H op' [<-|[]]. assumption. Qed.

Lemma emits_mbind {A B : Type} P (m : M A) (k : A -> M B) :
  (forall a, appends (k a)) ->
  emits P m -> (forall a, emits P (k a)) -> emits P (mbind m k).
Proof.
  intros Hk Hm Hka op. unfold mbind.
  specialize (Hm op). destruct (m []) as [l [a|x]]; cbn [fst snd] in *.
  - rewrite (Hk a l). cbn [fst]. intros H. apply in_app_or in H.
    destruct H as [H|H]; [auto|]. apply (Hka a). assumption.
  - assumption.
Qed.




Lemma mbind_open_ok {B : Type} c path a (k : (Z * Z) * string -> M B) tr :
  decode c path = Ok a ->
  mbind (open_image c path) k tr = k a (tr ++ [Open path])%list.
Proof. intros H. unfold mbind, open_image. rewrite H. reflexivity. Qed.



(** Flattening when its calls succeed: the calls of lines 125-129, and the
    [RGB] image that goes on. *)
Lemma flatten_succeeds c size mode tr :
  (forall op, compositing op = true -> run c op = Ok tt) ->
  flatten c size mode tr =
    ((tr ++ NewBackground size
         :: (if String.eqb mode "P" then [ConvertRGBA] else [])
         ++ (if String.eqb mode "P" || String.eqb mode "RGBA"
             then [SplitBands; Paste true] else [Paste false]))%list,
     Ok "RGB").
Proof.
  intros Hrun. unfold flatten, mbind, call, ret.
  rewrite (Hrun (NewBackground size) eq_refl).
  destruct (String.eqb mode "P") eqn:EP.
  - rewrite (Hrun ConvertRGBA eq_refl). cbn [String.eqb Ascii.eqb Bool.eqb].
    rewrite (Hrun SplitBands eq_refl), (Hrun (Paste true) eq_refl).
    cbn [orb app]. rewrite <- !app_assoc. reflexivity.
  - cbn [orb app]. destruct (String.eqb mode "RGBA").
    + rewrite (Hrun SplitBands eq_refl), (Hrun (Paste true) eq_refl).
      rewrite <- !app_assoc. reflexivity.
    + rewrite (Hrun (Paste false) eq_refl).
      rewrite <- !app_assoc. reflexivity.
Qed.


(** A file for which nothing goes wrong goes through the pipeline. *)
Lemma goes_through_completes self c e :
  Trace.goes_through self c (entry_name e) -> completes self c e = true.
Proof.
  intros (size & mode & new_size & Hd & Hcomp & Hc & Hrun).
  unfold completes, resize_image_body.
  rewrite (mbind_open_ok _ _ _ _ _ Hd). cbn [app]. cbv beta iota zeta.
  unfold mbind at 1.
  assert (Ef : exists tr1 m,
             (if needs_flatten self mode then flatten c size mode else ret mode)
               [Open (join (input_folder self) (entry_name e))] = (tr1, Ok m)).
  { destruct (needs_flatten self mode).
    - rewrite (flatten_succeeds _ _ _ _ (Hcomp eq_refl)). eauto.
    - unfold ret. eauto. }
  destruct Ef as (tr1 & m & ->).
  unfold mbind at 1. unfold lift. rewrite Hc.
  unfold Trace.resize_and_save in Hrun.
  unfold mbind, call, ret.
  rewrite (Hrun (Resize new_size)) by (left; reflexivity).
  rewrite (Hrun (Save _ _ _)) by (right; left; reflexivity).
  rewrite (Hrun (GetSize (join (input_folder self) (entry_name e))))
    by (right; right; left; reflexivity).
  rewrite (Hrun (GetSize (join (output_folder self) _)))
    by (right; right; right; left; reflexivity).
  reflexivity.
Qed.

Lemma filter_all {A : Type} (f : A -> bool) l :
  (forall a, In a l -> f a = true) -> filter f l = l.
Proof.
  induction l as [|a l IH]; intros H; [reflexivity|].
  cbn [filter]. rewrite (H a (or_introl eq_refl)).
  f_equal. apply IH. intros b Hb. apply H. right. assumption.
Qed.

(** Of the files of a batch, one fails to decode and nothing goes wrong for
    the others: all but that one go through. *)
Lemma one_decode_failure self c before e after x :
  decode c (join (input_folder self) (entry_name e)) = Raise x ->
  (forall f, In f (before ++ after)%list ->
             Trace.goes_through self c (entry_name f)) ->
  filter (completes self c) (before ++ e :: after)%list
  = (before ++ after)%list.
Proof.
  intros Hd Hok.
  rewrite filter_app. cbn [filter].
  rewrite (decode_failure_fails self c e x Hd).
  rewrite !filter_all; [reflexivity| |];
    intros f Hf; apply goes_through_completes, Hok, in_or_app; auto.
Qed.

End Traces.

(** ** Properties of the program *)

Import Py PathName Resizer Methods Binary64 Facts.
Local Open Scope string_scope.

(** C1, as amended.  For positive original and target sizes, whenever the
    original is not square or both target components are at most 2^53 (so
    that binary64 holds them exactly), [calculate_new_size] returns exactly
    what the reference algorithm [computeSize] prescribes: the target
    unchanged when the aspect ratio is not preserved, else the scaled axis
    followed by the two clamps. *)
Theorem calculate_new_size_refines_computeSize self ow oh tw th :
  target_size self = (tw, th) ->
  0 < ow -> 0 < oh -> 0 < tw -> 0 < th ->
  ow <> oh \/ (tw <= 2 ^ 53 /\ th <= 2 ^ 53) ->
  calculate_new_size self (ow, oh) =
  Spec.computeSize (ow, oh) (tw, th) (maintain_aspect_ratio self).
Proof.
  intros Ht How Hoh Htw Hth Hcase.
  destruct (maintain_aspect_ratio self) eqn:Hm.
  - destruct (Z.eq_dec ow oh) as [<-|Hne].
    + destruct Hcase as [Hne|[B1 B2]]; [contradiction|].
      destruct (calculate_new_size_square self ow tw th) as [-> ->];
        auto; lia.
    + apply calculate_new_size_oblong; auto; lia.
  - rewrite calculate_new_size_distort by assumption.
    rewrite Ht. reflexivity.
Qed.

Lemma calculate_new_size_refines_computeSize_witness :
  calculate_new_size (box 800 600) (1920, 1080) =
  Spec.computeSize (1920, 1080) (800, 600) (maintain_aspect_ratio (box 800 600)).
Proof.
  apply (calculate_new_size_refines_computeSize (box 800 600) 1920 1080 800 600);
    [reflexivity|lia|lia|lia|lia|left; lia].
Defined.

(** C1 as stated fails: on a square 1x1 original with the target box
    (2^53+1, 2^53) the code, which takes the height first, returns
    (2^53, 2^53), while [computeSize], which takes the width first on
    [width >= height], returns (2^53+1, 2^53). *)
Lemma calculate_new_size_differs_on_square :
  calculate_new_size (box (2 ^ 53 + 1) (2 ^ 53)) (1, 1) = Ok (2 ^ 53, 2 ^ 53) /\
  Spec.computeSize (1, 1) (2 ^ 53 + 1, 2 ^ 53) true = Ok (2 ^ 53 + 1, 2 ^ 53) /\
  calculate_new_size (box (2 ^ 53 + 1) (2 ^ 53)) (1, 1) <>
  Spec.computeSize (1, 1) (2 ^ 53 + 1, 2 ^ 53) true.
Proof.
  split; [vm_compute; reflexivity|]. split; [vm_compute; reflexivity|].
  vm_compute. discriminate.
Qed.

(** For every target box below 2^52 the returned size fits in the box. *)
Lemma calculate_new_size_within_target self ow oh tw th :
  maintain_aspect_ratio self = true -> target_size self = (tw, th) ->
  0 < ow <= 2 ^ 1023 -> 0 < oh -> 0 < tw < 2 ^ 52 -> 0 < th < 2 ^ 52 ->
  exists w h, calculate_new_size self (ow, oh) = Ok (w, h) /\ w <= tw /\ h <= th.
Proof.
  intros Hm Ht How Hoh Htw Hth.
  destruct (calculate_new_size_bounded self ow oh tw th) as (w & h & E & ? & ? & _);
    auto; try lia.
  exists w, h. repeat split; auto; lia.
Qed.

(** C2.  The code goes past the bound its own comment announces ("Ensure
    dimensions don't exceed target"): for a 1x1 original and the target box
    (2^53+3, 2^53+3) the returned height is 2^53+4, one more than the target
    height. *)
Theorem calculate_new_size_exceeds_huge_target :
  exists w h,
    calculate_new_size (box (2 ^ 53 + 3) (2 ^ 53 + 3)) (1, 1) = Ok (w, h) /\
    w = 2 ^ 53 + 3 /\ h = 2 ^ 53 + 4 /\ h > 2 ^ 53 + 3.
Proof.
  exists (2 ^ 53 + 3), (2 ^ 53 + 4).
  split; [vm_compute; reflexivity|]. repeat split; reflexivity.
Qed.

(** C3, as amended.  For positive original and target sizes, both
    components of a returned size are >= 0 and at least one of them is >= 1
    (the other may be 0); both are >= 1 when the aspect ratio is not
    preserved.  A size is returned whenever the aspect ratio is not
    preserved, or the original width and both target components are at most
    2^1022. *)
Theorem calculate_new_size_components self ow oh tw th :
  target_size self = (tw, th) ->
  0 < ow -> 0 < oh -> 0 < tw -> 0 < th ->
  (forall w h,
      calculate_new_size self (ow, oh) = Ok (w, h) ->
      0 <= w /\ 0 <= h /\ (1 <= w \/ 1 <= h) /\
      (maintain_aspect_ratio self = false -> 1 <= w /\ 1 <= h)) /\
  (maintain_aspect_ratio self = false \/
   (ow <= 2 ^ 1022 /\ tw <= 2 ^ 1022 /\ th <= 2 ^ 1022) ->
   exists w h, calculate_new_size self (ow, oh) = Ok (w, h)).
Proof.
  intros Ht How Hoh Htw Hth. split.
  - intros w h E. destruct (maintain_aspect_ratio self) eqn:Hm.
    + destruct (calculate_new_size_nonneg self ow oh tw th w h) as [Hw Hh];
        auto; try lia.
      pose proof (calculate_new_size_touches self ow oh tw th w h Hm Ht E).
      repeat split; try lia; discriminate.
    + rewrite calculate_new_size_distort, Ht in E by assumption.
      inversion E; subst. repeat split; try lia; intros; lia.
  - intros [Hm|(B1 & B2 & B3)].
    + rewrite calculate_new_size_distort, Ht by assumption. eauto.
    + destruct (maintain_aspect_ratio self) eqn:Hm.
      * apply (calculate_new_size_returns self ow oh tw th); auto; lia.
      * rewrite calculate_new_size_distort, Ht by assumption. eauto.
Qed.

Lemma calculate_new_size_components_witness :
  (forall w h,
      calculate_new_size (box 800 600) (1920, 1080) = Ok (w, h) ->
      0 <= w /\ 0 <= h /\ (1 <= w \/ 1 <= h) /\
      (maintain_aspect_ratio (box 800 600) = false -> 1 <= w /\ 1 <= h)) /\
  (maintain_aspect_ratio (box 800 600) = false \/
   (1920 <= 2 ^ 1022 /\ 800 <= 2 ^ 1022 /\ 600 <= 2 ^ 1022) ->
   exists w h, calculate_new_size (box 800 600) (1920, 1080) = Ok (w, h)).
Proof.
  apply (calculate_new_size_components (box 800 600) 1920 1080 800 600);
    [reflexivity|lia|lia|lia|lia].
Defined.

(** C3 as stated fails: a 1000x1 original in the 800x600 box gets the size
    (800, 0), whose height is below 1. *)
Lemma calculate_new_size_returns_zero_height :
  calculate_new_size (box 800 600) (1000, 1) = Ok (800, 0) /\
  ~ (forall w h,
        calculate_new_size (box 800 600) (1000, 1) = Ok (w, h) ->
        1 <= w /\ 1 <= h).
Proof.
  split; [vm_compute; reflexivity|].
  intros H. specialize (H 800 0). cbv beta in H.
  assert (E : calculate_new_size (box 800 600) (1000, 1) = Ok (800, 0))
    by (vm_compute; reflexivity).
  specialize (H E). lia.
Qed.

(** C4, as amended.  In a batch run that gets past the creation of the
    output folder, each enumerated file raises exactly one of [processed]
    and [failed], by one; every enumerated file is opened whatever happened
    to the files before it; at the end [processed] + [failed] has grown by
    the number of enumerated files, [processed] by the number of files that
    go through the pipeline and [failed] by the number of the others; a file
    that fails to decode is one of the others; so from fresh counters three
    files, of which one fails to decode and nothing goes wrong for the other
    two, end with [processed] = 2 and [failed] = 1. *)
Theorem process_batch_counts self c listing tr :
  run c (Mkdir (output_folder self)) = Ok tt ->
  exists self' tr' log,
    process_batch self c listing tr = (tr', Ok (self', log)) /\
    (forall s e tr1,
        let '(s', ok, _) := resize_image s c (entry_name e) tr1 in
        if ok
        then processed s' = processed s + 1 /\ failed s' = failed s
        else processed s' = processed s /\ failed s' = failed s + 1) /\
    (forall e, In e (get_image_files self listing) ->
               In (Open (join (input_folder self) (entry_name e))) tr') /\
    processed self' =
      processed self +
      Z.of_nat (List.length (filter (completes self c)
                               (get_image_files self listing))) /\
    failed self' =
      failed self +
      Z.of_nat (List.length (filter (fun e => negb (completes self c e))
                               (get_image_files self listing))) /\
    processed self' + failed self' =
      processed self + failed self +
      Z.of_nat (List.length (get_image_files self listing)) /\
    (forall e x,
        decode c (join (input_folder self) (entry_name e)) = Raise x ->
        completes self c e = false) /\
    (forall before e after x,
        processed self = 0 -> failed self = 0 ->
        get_image_files self listing = (before ++ e :: after)%list ->
        List.length (get_image_files self listing) = 3%nat ->
        decode c (join (input_folder self) (entry_name e)) = Raise x ->
        (forall f, In f (before ++ after)%list ->
                   Trace.goes_through self c (entry_name f)) ->
        processed self' = 2 /\ failed self' = 1).
Proof.
  intros Hm. rewrite (process_batch_run self c listing tr Hm). cbv zeta.
  set (files := get_image_files self listing).
  pose proof (process_files_spec c files self
                (tr ++ [Mkdir (output_folder self)])%list) as H.
  destruct (process_files self c files _) as [self' tr'].
  destruct H as (_ & _ & P & F & _ & Opens).
  pose proof (filter_length (completes self c) files) as L.
  exists self', tr'. eexists. split; [reflexivity|].
  split; [|split; [exact Opens|split; [exact P|split; [exact F|split; [lia|split]]]]].
  - intros s e tr1. pose proof (resize_image_counts s c e tr1) as R.
    destruct (resize_image s c (entry_name e) tr1) as [[s' ok] tr2].
    destruct R as (_ & _ & -> & R & _). exact R.
  - intros e x. apply decode_failure_fails.
  - intros before e after x P0 F0 Ef L3 Hd Hok.
    rewrite Ef in P, F, L, L3.
    rewrite (one_decode_failure self c before e after x Hd Hok) in P, L.
    rewrite !length_app in L3, P, L.
    rewrite (length_app before (e :: after)) in L.
    cbn [List.length] in L3, L. lia.
Qed.

Lemma process_batch_counts_witness :
  let self := box 800 600 in
  let c :=
    mkCodec
      (fun path => if String.eqb path "photos/b.png" then Raise CodecError
                   else Ok ((1920, 1080), "RGB"))
      (fun _ => Ok tt) in
  let listing :=
    [mkEntry "a.png" RegularFile; mkEntry "b.png" RegularFile;
     mkEntry "c.PNG" RegularFile] in
  exists self' tr' log,
    process_batch self c listing [] = (tr', Ok (self', log)) /\
    processed self' = 2 /\ failed self' = 1.
Proof.
  intros self c listing.
  destruct (process_batch_counts self c listing []) as
    (self' & tr' & log & E & _ & _ & _ & _ & _ & _ & H); [reflexivity|].
  exists self', tr', log. split; [exact E|].
  apply (H [mkEntry "a.png" RegularFile] (mkEntry "b.png" RegularFile)
           [mkEntry "c.PNG" RegularFile] CodecError);
    try reflexivity.
  intros f [<-|[<-|[]]]; exists (1920, 1080), "RGB", (800, 450);
    (split; [reflexivity|]); (split; [intros; reflexivity|]);
    (split; [vm_compute; reflexivity|intros; reflexivity]).
Defined.

(** C4 as stated fails: of the three files [a.jpg], [b.png] and [c.PNG]
    one, [b.png], fails to decode, and the run ends with [processed] = 1 and
    [failed] = 2, the [save] of [a.jpg], which is given the format name
    [JPG], having raised in its turn. *)
Lemma process_batch_one_decode_failure_two_failed :
  let self := box 800 600 in
  let c :=
    mkCodec
      (fun path => if String.eqb path "photos/b.png" then Raise CodecError
                   else Ok ((1920, 1080), "RGB"))
      (fun op =>
         match op with
         | Save _ format _ =>
             if String.eqb format "JPG" then Raise CodecError else Ok tt
         | _ => Ok tt
         end) in
  let listing :=
    [mkEntry "a.jpg" RegularFile; mkEntry "b.png" RegularFile;
     mkEntry "c.PNG" RegularFile] in
  get_image_files self listing = listing /\
  decode c "photos/a.jpg" = Ok ((1920, 1080), "RGB") /\
  decode c "photos/b.png" = Raise CodecError /\
  decode c "photos/c.PNG" = Ok ((1920, 1080), "RGB") /\
  exists self' tr' log,
    process_batch self c listing [] = (tr', Ok (self', log)) /\
    processed self' = 1 /\ failed self' = 2 /\
    ~ (processed self' = 2 /\ failed self' = 1).
Proof.
  intros self c listing.
  split; [vm_compute; reflexivity|]. split; [reflexivity|].
  split; [reflexivity|]. split; [reflexivity|].
  exists (mkResizer "photos" "photos/resized" (800, 600) true None 85 1 2 0).
  eexists. eexists. split; [vm_compute; reflexivity|].
  cbn [processed failed]. split; [reflexivity|]. split; [reflexivity|].
  intros [H _]. discriminate H.
Qed.

(** C5.  [get_image_files] returns, in the order of the directory listing,
    exactly the entries that are regular files and whose extension, compared
    without regard to case, is in the allow-list; a subdirectory is left out
    and not entered.  A directory with [a.jpg], [b.txt], [c.PNG] and a
    subdirectory [d] gives [[a.jpg; c.PNG]]. *)
Theorem get_image_files_enumerates self :
  (forall listing,
      get_image_files self listing = filter Spec.enumerated listing) /\
  get_image_files self
    [mkEntry "a.jpg" RegularFile; mkEntry "b.txt" RegularFile;
     mkEntry "c.PNG" RegularFile; mkEntry "d" Directory]
  = [mkEntry "a.jpg" RegularFile; mkEntry "c.PNG" RegularFile].
Proof.
  split; [intros listing; apply get_image_files_filter|reflexivity].
Qed.

(** C6, as amended.  For every file the enumeration yields, and a
    configured output format that is non-empty and has no dot (as each of
    the command-line choices), the output file name has the stem of the
    input and its extension is the configured format when one is set, else
    the input's extension in lower case. *)
Theorem output_filename_stem_and_extension self listing e :
  In e (get_image_files self listing) ->
  (forall f, output_format self = Some f -> f <> "" /\ rfind dot f = None) ->
  stem (output_filename self (entry_name e)) = stem (entry_name e) /\
  Spec.extension (output_filename self (entry_name e)) =
    match output_format self with
    | Some f => f
    | None => lower (Spec.extension (entry_name e))
    end.
Proof.
  intros Hin Hfmt.
  rewrite get_image_files_filter in Hin. apply filter_In in Hin.
  destruct Hin as [_ He]. apply enumerated_has_suffix in He.
  destruct (suffix_inv _ He) as (a & b & En & Ha & Hb & Hd).
  destruct (suffix_stem_parts a b Ha Hb Hd) as [Es Et].
  unfold output_filename, effective_format, Spec.extension.
  rewrite En, Es, Et. cbn [tail1 append].
  assert (G : forall f, f <> "" -> rfind dot f = None ->
            stem (a ++ String dot f) = a /\
            tail1 (suffix (a ++ String dot f)) = f).
  { intros f N D. destruct (suffix_stem_parts a f Ha N D) as [-> ->]. auto. }
  destruct (output_format self) as [f|] eqn:Ef.
  - destruct (Hfmt f eq_refl) as [N D].
    replace (nonempty (Some f)) with (Some f) by (destruct f; [contradiction|reflexivity]).
    apply G; assumption.
  - cbn [nonempty]. apply G; [apply lower_nonempty|apply rfind_dot_lower]; assumption.
Qed.

Lemma output_filename_stem_and_extension_witness :
  stem (output_filename (box 800 600) "c.PNG") = stem "c.PNG" /\
  Spec.extension (output_filename (box 800 600) "c.PNG") =
    lower (Spec.extension "c.PNG").
Proof.
  apply (output_filename_stem_and_extension (box 800 600)
           [mkEntry "c.PNG" RegularFile] (mkEntry "c.PNG" RegularFile)).
  - vm_compute. left. reflexivity.
  - intros f H. vm_compute in H. discriminate H.
Defined.

(** C6 as stated fails: with no output format configured the enumerated
    file [c.PNG] is written as [c.png], whose extension [png] is not the
    input's [PNG]. *)
Lemma output_filename_lowers_extension :
  In (mkEntry "c.PNG" RegularFile)
     (get_image_files (box 800 600) [mkEntry "c.PNG" RegularFile]) /\
  output_format (box 800 600) = None /\
  output_filename (box 800 600) "c.PNG" = "c.png" /\
  Spec.extension (output_filename (box 800 600) "c.PNG")
  <> Spec.extension "c.PNG".
Proof.
  split; [vm_compute; left; reflexivity|]. split; [reflexivity|].
  split; [vm_compute; reflexivity|]. vm_compute. discriminate.
Qed.



(** C8, as amended.  With the aspect ratio preserved, a non-negative
    original size and a positive target, [calculate_new_size] raises
    [ZeroDivisionError] if and only if the original height is 0: with a
    height > 0 no division by zero is reachable.  It returns a size whenever
    the height is > 0 and the original width and both target components are
    at most 2^1022. *)
Theorem calculate_new_size_division_fault self ow oh tw th :
  maintain_aspect_ratio self = true -> target_size self = (tw, th) ->
  0 <= ow -> 0 <= oh -> 0 < tw -> 0 < th ->
  (calculate_new_size self (ow, oh) = Raise ZeroDivisionError <-> oh = 0) /\
  (0 < oh -> ow <= 2 ^ 1022 -> tw <= 2 ^ 1022 -> th <= 2 ^ 1022 ->
   exists size, calculate_new_size self (ow, oh) = Ok size).
Proof.
  intros Hm Ht How Hoh Htw Hth. split; [split|].
  - intros E. destruct (Z.eq_dec oh 0) as [|Hne]; [assumption|].
    exfalso. apply (calculate_new_size_no_zde self ow oh tw th); auto. lia.
  - intros ->. apply calculate_new_size_zero_height. assumption.
  - intros H0 B1 B2 B3.
    destruct (calculate_new_size_returns self ow oh tw th)
      as (w & h & E); auto; try lia. eauto.
Qed.

Lemma calculate_new_size_division_fault_witness :
  (calculate_new_size (box 800 600) (600, 1920) = Raise ZeroDivisionError
   <-> 1920 = 0) /\
  (0 < 1920 -> 600 <= 2 ^ 1022 -> 800 <= 2 ^ 1022 -> 600 <= 2 ^ 1022 ->
   exists size, calculate_new_size (box 800 600) (600, 1920) = Ok size).
Proof.
  apply (calculate_new_size_division_fault (box 800 600) 600 1920 800 600);
    [reflexivity|reflexivity|lia|lia|lia|lia].
Defined.

(** C8 as stated fails: a 2x1 original, whose height is > 0, with the
    positive target (2^1024, 1) does not return: the conversion of the
    target width to a float raises [OverflowError]. *)
Lemma calculate_new_size_overflows :
  calculate_new_size (box (2 ^ 1024) 1) (2, 1) = Raise OverflowError /\
  ~ (exists size, calculate_new_size (box (2 ^ 1024) 1) (2, 1) = Ok size).
Proof.
  assert (E : calculate_new_size (box (2 ^ 1024) 1) (2, 1) = Raise OverflowError)
    by (vm_compute; reflexivity).
  split; [assumption|]. intros (size & H). rewrite E in H. discriminate.
Qed.

(** C9.  No operation touches [skipped]: it is 0 at construction, it is the
    same after a file and after a batch run as before, so a batch run on a
    newly built resizer ends with [skipped] = 0 and its summary has no line
    about skipped images. *)
Theorem skipped_stays_zero :
  (forall input_folder output_folder target_size keep format quality,
      skipped (init input_folder output_folder target_size keep format quality)
      = 0) /\
  (forall self c name tr,
      skipped (fst (fst (resize_image self c name tr))) = skipped self) /\
  (forall self c listing tr tr' self' log,
      process_batch self c listing tr = (tr', Ok (self', log)) ->
      skipped self' = skipped self /\
      (skipped self = 0 -> forall n, ~ In (LogSkipped n) log)).
Proof.
  split; [reflexivity|]. split.
  - intros self c name tr. unfold resize_image.
    destruct (resize_image_body self c name tr) as [l [u|x]]; reflexivity.
  - intros self c listing tr tr' self' log E.
    pose proof (process_batch_inv _ _ _ _ _ _ _ E) as Hm.
    rewrite (process_batch_run self c listing tr Hm) in E. cbv zeta in E.
    pose proof (process_files_spec c (get_image_files self listing) self
                  (tr ++ [Mkdir (output_folder self)])%list) as H.
    destruct (process_files self c (get_image_files self listing) _)
      as [self1 tr1].
    destruct H as (_ & S & _).
    injection E as <- <- <-. split; [exact S|].
    intros Z n. destruct (get_image_files self listing).
    + intros [].
    + apply print_summary_no_skipped. congruence.
Qed.

Lemma skipped_stays_zero_witness :
  let self := box 800 600 in
  let c := mkCodec (fun _ => Ok ((1920, 1080), "RGB")) (fun _ => Ok tt) in
  let listing := [mkEntry "a.jpg" RegularFile] in
  skipped (fst (fst (resize_image self c "a.jpg" []))) = 0 /\
  forall tr' self' log,
    process_batch self c listing [] = (tr', Ok (self', log)) ->
    skipped self' = 0 /\ forall n, ~ In (LogSkipped n) log.
Proof.
  intros self c listing.
  destruct skipped_stays_zero as (_ & H1 & H2). split.
  - rewrite H1. reflexivity.
  - intros tr' self' log E. destruct (H2 self c listing [] tr' self' log E) as [S N].
    split; [rewrite S; reflexivity|]. apply N. reflexivity.
Defined.

(** C10.  For positive original and target sizes, with the aspect ratio
    preserved, a returned size has at least one component equal to the
    target's; so an original strictly inside the target box is enlarged on
    one axis up to the box, not returned as it is.  (A size is returned
    whenever the original width and both target components are at most
    2^1022.) *)
Theorem calculate_new_size_touches_target self ow oh tw th :
  maintain_aspect_ratio self = true -> target_size self = (tw, th) ->
  0 < ow -> 0 < oh -> 0 < tw -> 0 < th ->
  (forall w h,
      calculate_new_size self (ow, oh) = Ok (w, h) ->
      (w = tw \/ h = th) /\
      (ow < tw -> oh < th -> (ow < w \/ oh < h) /\ (w, h) <> (ow, oh))) /\
  (ow <= 2 ^ 1022 -> tw <= 2 ^ 1022 -> th <= 2 ^ 1022 ->
   exists w h, calculate_new_size self (ow, oh) = Ok (w, h)).
Proof.
  intros Hm Ht How Hoh Htw Hth. split.
  - intros w h E.
    pose proof (calculate_new_size_touches self ow oh tw th w h Hm Ht E) as T.
    split; [assumption|]. intros L1 L2. split; [lia|].
    intros X. inversion X. lia.
  - intros B1 B2 B3.
    apply (calculate_new_size_returns self ow oh tw th); auto; lia.
Qed.

Lemma calculate_new_size_touches_target_witness :
  (forall w h,
      calculate_new_size (box 800 600) (100, 50) = Ok (w, h) ->
      (w = 800 \/ h = 600) /\
      (100 < 800 -> 50 < 600 -> (100 < w \/ 50 < h) /\ (w, h) <> (100, 50))) /\
  (100 <= 2 ^ 1022 -> 800 <= 2 ^ 1022 -> 600 <= 2 ^ 1022 ->
   exists w h, calculate_new_size (box 800 600) (100, 50) = Ok (w, h)).
Proof.
  apply (calculate_new_size_touches_target (box 800 600) 100 50 800 600);
    [reflexivity|reflexivity|lia|lia|lia|lia].
Defined.

(** * More of the program *)

Import Cli Trace.

(** ** Output names *)

Section OutputNames.

Lemma lower_char_idem c : lower_char (lower_char c) = lower_char c.
Proof. destruct c as [[] [] [] [] [] [] [] []]; reflexivity. Qed.

Lemma lower_idem s : lower (lower s) = lower s.
Proof.
  induction s as [|c s IH]; [reflexivity|].
  cbn [lower]. rewrite lower_char_idem, IH. reflexivity.
Qed.

Lemma lower_dot b : lower (String dot b) = String dot (lower b).
Proof. reflexivity. Qed.

(** The name of an enumerated file: a stem, a dot, an extension that is
    one of the supported ones up to case. *)
Lemma enumerated_name e :
  Spec.enumerated e = true ->
  exists a b,
    entry_name e = a ++ String dot b /\ a <> "" /\ b <> "" /\
    rfind dot b = None /\
    suffix (entry_name e) = String dot b /\ stem (entry_name e) = a /\
    str_in (String dot (lower b)) SUPPORTED_FORMATS = true.
Proof.
  intros He. pose proof (enumerated_has_suffix e He) as Hs.
  destruct (suffix_inv _ Hs) as (a & b & En & Ha & Hb & Hd).
  destruct (suffix_stem_parts a b Ha Hb Hd) as [Es Et].
  exists a, b. rewrite En, Es, Et. repeat split; try assumption.
  rewrite <- supported_iff_enumerated in He.
  apply andb_prop in He. destruct He as [_ He].
  rewrite En, Es in He. exact He.
Qed.

(** The output name of an enumerated file, in its parts. *)
Lemma output_filename_parts self e :
  Spec.enumerated e = true ->
  (forall f, output_format self = Some f -> f <> "" /\ rfind dot f = None) ->
  exists a b f,
    entry_name e = a ++ String dot b /\ a <> "" /\
    stem (entry_name e) = a /\ suffix (entry_name e) = String dot b /\
    effective_format self (entry_name e) = f /\
    f = match output_format self with Some g => g | None => lower b end /\
    f <> "" /\ rfind dot f = None /\
    output_filename self (entry_name e) = a ++ String dot f.
Proof.
  intros He Hfmt.
  destruct (enumerated_name e He) as (a & b & En & Ha & Hb & Hd & Es & Et & _).
  unfold output_filename, effective_format. rewrite Es, Et. cbn [tail1].
  destruct (output_format self) as [g|] eqn:Eg.
  - destruct (Hfmt g eq_refl) as [N D].
    replace (nonempty (Some g)) with (Some g)
      by (destruct g; [contradiction|reflexivity]).
    exists a, b, g. repeat split; assumption.
  - cbn [nonempty]. exists a, b, (lower b).
    repeat split; try assumption;
      [apply lower_nonempty|apply rfind_dot_lower]; assumption.
Qed.

Lemma supported_lower_cases b :
  str_in (String dot b) SUPPORTED_FORMATS = true ->
  In b ["jpg"; "jpeg"; "png"; "gif"; "bmp"; "tiff"; "webp"].
Proof.
  unfold str_in, SUPPORTED_FORMATS. cbn [existsb].
  rewrite !orb_true_iff, !String.eqb_eq.
  intros H. cbn.
  repeat (destruct H as [H|H];
          [injection H as ->; tauto|]).
  discriminate H.
Qed.

End OutputNames.

(** ** The calls of one file *)

Section OneFile.

Ltac appends_tac :=
  cbv beta zeta;
  repeat first
    [ apply appends_ret | apply appends_lift | apply appends_call
    | apply appends_open | apply appends_flatten
    | apply appends_mbind; [|intros ?]
    | match goal with
      | |- appends (if ?b then _ else _) => destruct b
      end ].

Lemma flatten_compositing c size mode :
  emits (fun op => compositing op = true) (flatten c size mode).
Proof.
  unfold flatten.
  apply emits_mbind; [intros ?; appends_tac|apply emits_call; reflexivity|].
  intros _.
  apply emits_mbind; [intros ?; appends_tac| |].
  { destruct (String.eqb mode "P"); [|apply emits_ret].
    apply emits_mbind; [intros ?; appends_tac|apply emits_call; reflexivity|].
    intros _. apply emits_ret. }
  intros m.
  apply emits_mbind; [intros ?; appends_tac| |].
  { destruct (String.eqb m "RGBA"); [|apply emits_ret].
    apply emits_mbind; [intros ?; appends_tac|apply emits_call; reflexivity|].
    intros _. apply emits_ret. }
  intros mask.
  apply emits_mbind; [intros ?; appends_tac|apply emits_call; reflexivity|].
  intros _. apply emits_ret.
Qed.

(** The calls of lines 122-129, whatever their outcome. *)
Lemma flatten_step self c size mode tr :
  exists comp r,
    (if needs_flatten self mode then flatten c size mode else ret mode) tr
    = ((tr ++ comp)%list, r) /\
    (forall op, In op comp -> compositing op = true) /\
    (needs_flatten self mode = false -> comp = [] /\ r = Ok mode).
Proof.
  destruct (needs_flatten self mode).
  - rewrite (appends_flatten c size mode tr).
    exists (fst (flatten c size mode [])), (snd (flatten c size mode [])).
    split; [reflexivity|]. split; [apply flatten_compositing|discriminate].
  - exists [], (Ok mode). unfold ret. rewrite app_nil_r.
    split; [reflexivity|]. split; [intros op []|auto].
Qed.

(** A file goes through the body of the [try] exactly when every step
    succeeds; the calls are then the opening, the compositing if any, the
    resizing, the saving and the two size queries. *)
Lemma body_ok_inv self c name tr tr' u :
  resize_image_body self c name tr = (tr', Ok u) ->
  exists size mode new_size comp,
    decode c (join (input_folder self) name) = Ok (size, mode) /\
    calculate_new_size self size = Ok new_size /\
    (forall op, In op comp -> compositing op = true) /\
    (needs_flatten self mode = false -> comp = []) /\
    (forall op, In op (resize_and_save self name new_size) ->
                run c op = Ok tt) /\
    tr' = (tr ++ Open (join (input_folder self) name) :: comp
              ++ resize_and_save self name new_size)%list.
Proof.
  unfold resize_image_body. intros H.
  unfold mbind at 1 in H. unfold open_image in H.
  destruct (decode c (join (input_folder self) name)) as [[size mode]|x] eqn:Hd;
    [|discriminate H].
  unfold mbind at 1 in H.
  destruct (flatten_step self c size mode
              (tr ++ [Open (join (input_folder self) name)])%list)
    as (comp & r & E & Hcomp & Hnone).
  rewrite E in H. destruct r as [m|x]; [|discriminate H].
  unfold mbind at 1 in H. unfold lift in H.
  destruct (calculate_new_size self size) as [new_size|x] eqn:Hc;
    [|discriminate H].
  unfold mbind, call, ret in H.
  destruct (run c (Resize new_size)) as [[]|x] eqn:R1; [|discriminate H].
  destruct (run c (Save _ _ _)) as [[]|x] eqn:R2; [|discriminate H].
  destruct (run c (GetSize (join (input_folder self) name))) as [[]|x] eqn:R3;
    [|discriminate H].
  destruct (run c (GetSize (join (output_folder self) _))) as [[]|x] eqn:R4;
    [|discriminate H].
  injection H as <- _.
  exists size, mode, new_size, comp.
  split; [reflexivity|]. split; [assumption|]. split; [assumption|].
  split; [intros Hn; apply Hnone; assumption|].
  split.
  - unfold resize_and_save. intros op [<-|[<-|[<-|[<-|[]]]]]; assumption.
  - unfold resize_and_save. rewrite <- !app_assoc. reflexivity.
Qed.

(** An exception of [calculate_new_size] ends the file after the opening
    and the compositing. *)
Lemma body_size_fails self c name tr size mode x :
  decode c (join (input_folder self) name) = Ok (size, mode) ->
  calculate_new_size self size = Raise x ->
  exists comp y,
    resize_image_body self c name tr =
      ((tr ++ Open (join (input_folder self) name) :: comp)%list, Raise y) /\
    (forall op, In op comp -> compositing op = true).
Proof.
  intros Hd Hc. unfold resize_image_body.
  unfold mbind at 1. unfold open_image. rewrite Hd.
  unfold mbind at 1.
  destruct (flatten_step self c size mode
              (tr ++ [Open (join (input_folder self) name)])%list)
    as (comp & r & E & Hcomp & _).
  rewrite E. rewrite <- app_assoc. cbn [app].
  destruct r as [m|y]; [|exists comp, y; split; [reflexivity|assumption]].
  unfold mbind at 1. unfold lift. rewrite Hc.
  exists comp, x. split; [reflexivity|assumption].
Qed.

Lemma emits_weaken {A : Type} (P Q : codec_op -> Prop) (m : M A) :
  (forall op, P op -> Q op) -> emits P m -> emits Q m.
Proof. intros H Hm op Hop. apply H, Hm, Hop. Qed.

Lemma body_calls self c name :
  exists rest,
    fst (resize_image_body self c name []) =
      Open (join (input_folder self) name) :: rest /\
    forall op, In op rest -> follows_open self name op.
Proof.
  unfold resize_image_body.
  match goal with
  | |- context [mbind (open_image c ?p) ?k] =>
      assert (Hk : forall a, appends (k a)) by (intros [? ?]; appends_tac);
      assert (He : forall a, emits (follows_open self name) (k a))
  end.
  { intros [size mode].
    apply emits_mbind; [intros ?; appends_tac| |intros ?].
    { destruct (needs_flatten self mode); [|apply emits_ret].
      apply (emits_weaken (fun op => compositing op = true));
        [|apply flatten_compositing].
      intros [] Hop; try discriminate Hop; split;
        try reflexivity; intros ? ? ? ?; discriminate. }
    apply emits_mbind; [intros ?; appends_tac|apply emits_lift|intros ?].
    repeat (apply emits_mbind; [intros ?; appends_tac| |intros ?]);
      try apply emits_ret;
      apply emits_call; (split; [reflexivity|]); intros p f q E;
      try discriminate E.
    injection E as <- _ _. reflexivity. }
  unfold mbind at 1. unfold open_image. cbn [app].
  destruct (decode c (join (input_folder self) name)) as [a|x]; cbn [fst].
  - rewrite (Hk a [Open (join (input_folder self) name)]). cbn [fst app].
    eexists. split; [reflexivity|]. apply He.
  - exists []. split; [reflexivity|]. intros op [].
Qed.

End OneFile.

(** ** The calls of a batch *)

Section BatchCalls.

Lemma opened_app a b : opened (a ++ b) = (opened a ++ opened b)%list.
Proof. apply flat_map_app. Qed.

Lemma saved_app a b : saved (a ++ b) = (saved a ++ saved b)%list.
Proof. apply flat_map_app. Qed.

Lemma opened_after l :
  (forall op, In op l -> after_open op = true) -> opened l = [].
Proof.
  induction l as [|op l IH]; intros H; [reflexivity|].
  cbn [opened flat_map]. fold (opened l).
  rewrite IH by (intros ? ?; apply H; right; assumption).
  specialize (H op (or_introl eq_refl)).
  destruct op; try reflexivity; discriminate H.
Qed.

Lemma same_config_names a b name :
  same_config a b ->
  join (input_folder a) name = join (input_folder b) name /\
  join (output_folder a) (output_filename a name) =
  join (output_folder b) (output_filename b name).
Proof.
  intros (Ei & Eo & _ & _ & Ef & _).
  unfold output_filename, effective_format. rewrite Ei, Eo, Ef. auto.
Qed.

(** The loop only adds calls: one opening per file, in order, and saves
    under the output names only. *)
Lemma process_files_calls c files : forall self tr,
  exists added,
    snd (process_files self c files tr) = (tr ++ added)%list /\
    opened added =
      map (fun e => join (input_folder self) (entry_name e)) files /\
    (forall op, In op added -> forall x, op <> Mkdir x) /\
    (forall p, In p (saved added) ->
       exists e, In e files /\
         p = join (output_folder self) (output_filename self (entry_name e))).
Proof.
  unfold process_files.
  induction files as [|e files IH]; intros self tr; cbn [fold_left fst snd].
  - exists []. rewrite app_nil_r. repeat split; try reflexivity;
      intros ? [].
  - pose proof (resize_image_counts self c e tr) as H1.
    destruct (resize_image self c (entry_name e) tr) as [[self1 ok] tr1].
    destruct H1 as (C1 & _ & _ & _ & Etr).
    destruct (IH self1 tr1) as (added & E & Ho & Hm & Hs).
    destruct (body_calls self c (entry_name e)) as (rest & Eb & Hrest).
    rewrite Eb in Etr.
    exists (Open (join (input_folder self) (entry_name e)) :: rest ++ added)%list.
    split; [|split; [|split]].
    + rewrite E, Etr, <- app_assoc. reflexivity.
    + cbn [opened flat_map app map]. fold (opened (rest ++ added)).
      rewrite opened_app, Ho.
      rewrite opened_after by (intros op Hop; apply (Hrest op Hop)).
      cbn [app]. f_equal. apply map_ext. intros f.
      symmetry. apply (same_config_names self self1 (entry_name f) C1).
    + intros op [<-|Hop] x; [discriminate|].
      apply in_app_or in Hop. destruct Hop as [Hop|Hop]; [|apply Hm; assumption].
      destruct (Hrest op Hop) as [Ha _]. intros ->. discriminate Ha.
    + intros p Hp. cbn [saved flat_map app] in Hp. fold (saved (rest ++ added)) in Hp.
      rewrite saved_app in Hp. apply in_app_or in Hp.
      destruct Hp as [Hp|Hp].
      * exists e. split; [left; reflexivity|].
        unfold saved in Hp. apply in_flat_map in Hp.
        destruct Hp as (op & Hop & Hin).
        destruct (Hrest op Hop) as [_ Hsave].
        destruct op; try contradiction Hin.
        destruct Hin as [<-|[]]. eapply Hsave. reflexivity.
      * destruct (Hs p Hp) as (f & Hf & ->).
        exists f. split; [right; assumption|].
        symmetry. apply (same_config_names self self1 (entry_name f) C1).
Qed.

Lemma process_files_counts c files self tr :
  let self' := fst (process_files self c files tr) in
  same_config self self' /\
  skipped self' = skipped self /\
  processed self' =
    processed self + Z.of_nat (List.length (filter (completes self c) files)) /\
  failed self' =
    failed self +
    Z.of_nat (List.length (filter (fun e => negb (completes self c e)) files)).
Proof.
  pose proof (process_files_spec c files self tr) as H.
  destruct (process_files self c files tr) as [self' tr'].
  cbn [fst]. tauto.
Qed.

Lemma filter_split_length {A : Type} (f : A -> bool) l :
  (List.length (filter f l) + List.length (filter (fun x => negb (f x)) l)
   = List.length l)%nat.
Proof.
  induction l as [|a l IH]; [reflexivity|].
  cbn [filter]. destruct (f a); cbn [negb List.length]; lia.
Qed.

(** An instance is its configuration and its three counters. *)
Lemma resizer_ext a b :
  same_config a b -> processed a = processed b -> failed a = failed b ->
  skipped a = skipped b -> a = b.
Proof.
  destruct a, b. unfold same_config. cbn.
  intros (-> & -> & -> & -> & -> & ->) -> -> ->. reflexivity.
Qed.

End BatchCalls.

(** ** How close to the proportions the new size is *)

Section RelativeError.

(** The binade of a real number in the normal range. *)
Lemma binade_below (n : nat) : forall x,
  (bpow (-1022) <= x < bpow (-1022 + Z.of_nat n))%R ->
  exists e, -1022 <= e /\ (bpow e <= x < bpow (e + 1))%R.
Proof.
  induction n as [|n IH]; intros x [Hl Hu].
  - replace (-1022 + Z.of_nat 0) with (-1022) in Hu by lia. lra.
  - destruct (Rlt_le_dec x (bpow (-1022 + Z.of_nat n))) as [H|H].
    + apply IH. split; assumption.
    + exists (-1022 + Z.of_nat n). split; [lia|]. split; [assumption|].
      replace (-1022 + Z.of_nat n + 1) with (-1022 + Z.of_nat (S n)) by lia.
      assumption.
Qed.

Lemma binade x :
  (bpow (-1022) <= x)%R ->
  exists e, -1022 <= e /\ (bpow e <= x < bpow (e + 1))%R.
Proof.
  intros Hl.
  set (z := Z.max 0 (up x)).
  apply (binade_below (Z.to_nat (z + 1022))). split; [assumption|].
  replace (-1022 + Z.of_nat (Z.to_nat (z + 1022))) with z by lia.
  rewrite bpow_IZR by lia.
  destruct (archimed x) as [Hup _].
  apply Rlt_le_trans with (IZR (up x)); [lra|].
  apply IZR_le. assert (z < 2 ^ z) by (apply Z.pow_gt_lin_r; lia). lia.
Qed.

(** A rounding in the normal range is within one part in 2^52. *)
Lemma rounds_relative x v :
  rounds x v -> (bpow (-1022) <= x)%R ->
  (x * (1 - bpow (-52)) <= v <= x * (1 + bpow (-52)))%R.
Proof.
  intros [Hd Hu] Hx.
  destruct (binade x Hx) as (e & He & Hle & Hlt).
  set (u := bpow (e - 52)).
  assert (Hu0 : (0 < u)%R) by apply bpow_gt_0.
  assert (Eu : (bpow e = u * bpow 52)%R).
  { unfold u. rewrite <- bpow_add. f_equal. lia. }
  assert (Eu1 : (bpow (e + 1) = u * bpow 53)%R).
  { unfold u. rewrite <- bpow_add. f_equal. lia. }
  assert (Eu' : (u = bpow e * bpow (-52))%R).
  { unfold u. rewrite <- bpow_add. f_equal. }
  rewrite (bpow_IZR 52) in Eu by lia. rewrite (bpow_IZR 53) in Eu1 by lia.
  set (k := up (x / u) - 1).
  destruct (archimed (x / u)) as [A1 A2].
  assert (Ek : (IZR k = IZR (up (x / u)) - 1)%R).
  { unfold k. rewrite minus_IZR. reflexivity. }
  assert (Exu : (x / u * u = x)%R) by (field; lra).
  assert (K1 : (IZR k * u <= x / u * u)%R)
    by (apply Rmult_le_compat_r; lra).
  assert (K2 : (x / u * u < IZR (k + 1) * u)%R)
    by (rewrite plus_IZR; apply Rmult_lt_compat_r; lra).
  rewrite Exu in K1, K2.
  assert (Hk1 : 2 ^ 52 <= k).
  { assert (IZR (2 ^ 52) < IZR (k + 1))%R; [|apply lt_IZR in H; lia].
    apply Rmult_lt_reg_r with u; [assumption|].
    rewrite (Rmult_comm (IZR (2 ^ 52))). lra. }
  assert (Hk2 : k < 2 ^ 53).
  { apply lt_IZR. apply Rmult_lt_reg_r with u; [assumption|].
    rewrite (Rmult_comm (IZR (2 ^ 53))). lra. }
  assert (R1 : representable (F2R k (e - 52))).
  { exists k, (e - 52). repeat split; lia. }
  assert (R2 : representable (F2R (k + 1) (e - 52))).
  { exists (k + 1), (e - 52). repeat split; lia. }
  specialize (Hd _ R1 K1). specialize (Hu _ R2 (Rlt_le _ _ K2)).
  unfold F2R in Hd, Hu. fold u in Hd, Hu. rewrite plus_IZR in Hu, K2.
  assert (B : (u <= x * bpow (-52))%R).
  { rewrite Eu'. apply Rmult_le_compat_r; [left; apply bpow_gt_0|assumption]. }
  split; lra.
Qed.

End RelativeError.

Section Proportions.

Lemma eps_value : (bpow (-52) * 4503599627370496 = 1)%R.
Proof.
  change 4503599627370496%R with (IZR (2 ^ 52)).
  rewrite <- (bpow_IZR 52) by lia. rewrite <- bpow_add. apply bpow_0.
Qed.

Lemma bpow_m1022_small : (bpow (-1022) <= / 67108864)%R.
Proof.
  apply Rle_trans with (bpow (-26)); [apply bpow_le; lia|].
  assert (E : (bpow (-26) * 67108864 = 1)%R).
  { change 67108864%R with (IZR (2 ^ 26)).
    rewrite <- (bpow_IZR 26) by lia. rewrite <- bpow_add. apply bpow_0. }
  assert (bpow (-26) = / 67108864)%R; [|lra].
  apply Rmult_eq_reg_r with 67108864%R; [|lra]. rewrite E. field.
Qed.

(** The rounded ratio of two sizes below 2^24. *)
Lemma ratio_accurate ow oh r :
  0 < ow < 2 ^ 24 -> 0 < oh < 2 ^ 24 ->
  int_truediv ow oh = Ok r ->
  exists rho,
    denotes r rho /\ (0 < rho)%R /\
    (IZR ow * (1 - bpow (-52)) <= rho * IZR oh <= IZR ow * (1 + bpow (-52)))%R.
Proof.
  intros How Hoh E.
  assert (2 ^ 24 < 2 ^ 1023) by (apply Z.pow_lt_mono_r; lia).
  destruct (int_truediv_spec ow oh) as (f & rho & E1 & D & Rr); [nia|lia|].
  rewrite E1 in E. injection E as <-.
  pose proof eps_value as Ee. pose proof bpow_m1022_small as Hs.
  assert (OW : (1 <= IZR ow < 16777216)%R)
    by (split; [apply IZR_le|apply IZR_lt]; lia).
  assert (OH : (1 <= IZR oh < 16777216)%R)
    by (split; [apply IZR_le|apply IZR_lt]; lia).
  assert (Ea : (IZR ow / IZR oh * IZR oh = IZR ow)%R) by (field; lra).
  assert (Ha : (/ 67108864 <= IZR ow / IZR oh)%R).
  { apply Rmult_le_reg_r with (IZR oh); [lra|]. rewrite Ea. lra. }
  destruct (rounds_relative _ _ Rr) as [B1 B2]; [lra|].
  exists rho. split; [assumption|].
  assert (0 < bpow (-52) < / 2)%R by lra.
  split; [nra|].
  split.
  - replace (IZR ow * (1 - bpow (-52)))%R
      with (IZR ow / IZR oh * (1 - bpow (-52)) * IZR oh)%R by (field; lra).
    apply Rmult_le_compat_r; lra.
  - replace (IZR ow * (1 + bpow (-52)))%R
      with (IZR ow / IZR oh * (1 + bpow (-52)) * IZR oh)%R by (field; lra).
    apply Rmult_le_compat_r; lra.
Qed.

(** The height scaled from the target width is the proportional height
    rounded down, or one less when that is a whole number. *)
Lemma scale_height_accurate ow oh tw r q h :
  0 < ow < 2 ^ 24 -> 0 < oh < 2 ^ 24 -> 0 < tw < 2 ^ 24 ->
  int_truediv ow oh = Ok r -> int_div_float tw r = Ok q ->
  int_of_float q = Ok h ->
  h * ow <= tw * oh <= (h + 1) * ow.
Proof.
  intros How Hoh Htw E1 E2 E3.
  destruct (ratio_accurate ow oh r How Hoh E1) as (rho & D & Hrho & F1a & F1b).
  assert (2 ^ 24 < 2 ^ 53) by (apply Z.pow_lt_mono_r; lia).
  destruct (int_div_float_spec tw r rho) as (g & qv & E2' & Hg & Rq);
    [lia|assumption|assumption|].
  rewrite E2' in E2. injection E2 as ->.
  pose proof eps_value as Ee. pose proof bpow_m1022_small as Hs.
  set (eps := bpow (-52)) in *.
  assert (He : (0 < eps < / 1000000000000000)%R) by (split; nra).
  assert (OW : (1 <= IZR ow < 16777216)%R)
    by (split; [apply IZR_le|apply IZR_lt]; lia).
  assert (OH : (1 <= IZR oh < 16777216)%R)
    by (split; [apply IZR_le|apply IZR_lt]; lia).
  assert (TW : (1 <= IZR tw < 16777216)%R)
    by (split; [apply IZR_le|apply IZR_lt]; lia).
  set (y := (IZR tw / rho)%R) in *.
  assert (Ey : (y * rho = IZR tw)%R) by (unfold y; field; lra).
  assert (Hrho2 : (rho < 33554432)%R) by nra.
  assert (Hy0 : (0 < y)%R).
  { apply Rmult_lt_reg_r with rho; [assumption|]. lra. }
  assert (Hy : (/ 67108864 <= y)%R).
  { apply Rmult_le_reg_r with rho; [assumption|]. rewrite Ey.
    apply Rle_trans with (/ 67108864 * 33554432)%R; [|lra].
    apply Rmult_le_compat_l; lra. }
  destruct (rounds_relative _ _ Rq) as [B1 B2]; [lra|].
  fold eps in B1, B2.
  (* the product [y * ow] against [tw * oh] *)
  set (P := (IZR tw * IZR oh)%R).
  set (Y := (y * IZR ow)%R).
  assert (HP : (1 <= P < 281474976710656)%R) by (unfold P; split; nra).
  assert (G1 : (Y * (1 - eps) <= P)%R).
  { unfold Y, P. rewrite <- Ey.
    replace (y * IZR ow * (1 - eps))%R with (y * (IZR ow * (1 - eps)))%R by ring.
    replace (y * rho * IZR oh)%R with (y * (rho * IZR oh))%R by ring.
    apply Rmult_le_compat_l; lra. }
  assert (G2 : (P <= Y * (1 + eps))%R).
  { unfold Y, P. rewrite <- Ey.
    replace (y * IZR ow * (1 + eps))%R with (y * (IZR ow * (1 + eps)))%R by ring.
    replace (y * rho * IZR oh)%R with (y * (rho * IZR oh))%R by ring.
    apply Rmult_le_compat_l; lra. }
  assert (Hrho1 : (/ 67108864 <= rho)%R).
  { apply Rmult_le_reg_r with (IZR oh); [lra|].
    apply Rle_trans with (/ 67108864 * 16777216)%R;
      [apply Rmult_le_compat_l; lra|]. nra. }
  assert (Hy2 : (y <= 1125899906842624)%R).
  { assert (y * / 67108864 <= y * rho)%R by (apply Rmult_le_compat_l; lra).
    lra. }
  assert (Hqv : (qv < bpow 1024)%R).
  { apply Rle_lt_trans with (IZR (2 ^ 1023)); [|apply bpow_1024_gt; lia].
    apply Rle_trans with 2251799813685248%R; [nra|].
    apply IZR_le. change 2251799813685248 with (2 ^ 51).
    apply Z.pow_le_mono_r; lia. }
  destruct (int_of_float_spec q qv Hg Hqv) as (z & E3' & _ & Hz & Hf).
  rewrite E3' in E3. injection E3 as ->.
  assert (U1 : (IZR h * IZR ow <= Y * (1 + eps))%R).
  { unfold Y. replace (y * IZR ow * (1 + eps))%R
      with (y * (1 + eps) * IZR ow)%R by ring.
    apply Rmult_le_compat_r; lra. }
  assert (U2 : (Y * (1 - eps) < (IZR h + 1) * IZR ow)%R).
  { unfold Y. replace (y * IZR ow * (1 - eps))%R
      with (y * (1 - eps) * IZR ow)%R by ring.
    apply Rmult_lt_compat_r; lra. }
  split.
  - destruct (Z_le_gt_dec (h * ow) (tw * oh)) as [|C]; [assumption|exfalso].
    assert (C' : (P + 1 <= IZR h * IZR ow)%R).
    { unfold P. rewrite <- !mult_IZR, <- plus_IZR. apply IZR_le. lia. }
    nra.
  - destruct (Z_le_gt_dec (tw * oh) ((h + 1) * ow)) as [|C]; [assumption|exfalso].
    assert (C' : ((IZR h + 1) * IZR ow + 1 <= P)%R).
    { unfold P. rewrite <- !mult_IZR, <- !plus_IZR, <- mult_IZR, <- plus_IZR.
      apply IZR_le. lia. }
    nra.
Qed.

(** The width scaled from the target height, likewise. *)
Lemma scale_width_accurate ow oh th r p w :
  0 < ow < 2 ^ 24 -> 0 < oh < 2 ^ 24 -> 0 < th < 2 ^ 24 ->
  int_truediv ow oh = Ok r -> int_mul_float th r = Ok p ->
  int_of_float p = Ok w ->
  w * oh <= th * ow <= (w + 1) * oh.
Proof.
  intros How Hoh Hth E1 E2 E3.
  destruct (ratio_accurate ow oh r How Hoh E1) as (rho & D & Hrho & F1a & F1b).
  assert (2 ^ 24 < 2 ^ 53) by (apply Z.pow_lt_mono_r; lia).
  destruct (int_mul_float_spec th r rho) as (g & pv & E2' & Hg & Rp);
    [lia|assumption|].
  rewrite E2' in E2. injection E2 as ->.
  pose proof eps_value as Ee. pose proof bpow_m1022_small as Hs.
  set (eps := bpow (-52)) in *.
  assert (He : (0 < eps < / 1000000000000000)%R) by (split; nra).
  assert (OW : (1 <= IZR ow < 16777216)%R)
    by (split; [apply IZR_le|apply IZR_lt]; lia).
  assert (OH : (1 <= IZR oh < 16777216)%R)
    by (split; [apply IZR_le|apply IZR_lt]; lia).
  assert (TH : (1 <= IZR th < 16777216)%R)
    by (split; [apply IZR_le|apply IZR_lt]; lia).
  assert (Hrho1 : (/ 67108864 <= rho)%R).
  { apply Rmult_le_reg_r with (IZR oh); [lra|].
    apply Rle_trans with (/ 67108864 * 16777216)%R;
      [apply Rmult_le_compat_l; lra|]. nra. }
  assert (Hrho2 : (rho < 33554432)%R) by nra.
  assert (Hx : (bpow (-1022) <= IZR th * rho)%R) by nra.
  destruct (rounds_relative _ _ Rp Hx) as [B1 B2].
  fold eps in B1, B2.
  set (P := (IZR th * IZR ow)%R).
  set (V := (IZR th * rho * IZR oh)%R).
  assert (HP : (1 <= P < 281474976710656)%R) by (unfold P; split; nra).
  assert (G1 : (P * (1 - eps) <= V)%R).
  { unfold P, V.
    replace (IZR th * IZR ow * (1 - eps))%R
      with (IZR th * (IZR ow * (1 - eps)))%R by ring.
    replace (IZR th * rho * IZR oh)%R with (IZR th * (rho * IZR oh))%R by ring.
    apply Rmult_le_compat_l; lra. }
  assert (G2 : (V <= P * (1 + eps))%R).
  { unfold P, V.
    replace (IZR th * IZR ow * (1 + eps))%R
      with (IZR th * (IZR ow * (1 + eps)))%R by ring.
    replace (IZR th * rho * IZR oh)%R with (IZR th * (rho * IZR oh))%R by ring.
    apply Rmult_le_compat_l; lra. }
  assert (K1 : (V * (1 - eps) <= pv * IZR oh)%R).
  { unfold V. replace (IZR th * rho * IZR oh * (1 - eps))%R
      with (IZR th * rho * (1 - eps) * IZR oh)%R by ring.
    apply Rmult_le_compat_r; lra. }
  assert (K2 : (pv * IZR oh <= V * (1 + eps))%R).
  { unfold V. replace (IZR th * rho * IZR oh * (1 + eps))%R
      with (IZR th * rho * (1 + eps) * IZR oh)%R by ring.
    apply Rmult_le_compat_r; lra. }
  assert (Hpv : (pv < bpow 1024)%R).
  { apply Rle_lt_trans with (IZR (2 ^ 1023)); [|apply bpow_1024_gt; lia].
    apply Rle_trans with 1125899906842624%R; [nra|].
    apply IZR_le. change 1125899906842624 with (2 ^ 50).
    apply Z.pow_le_mono_r; lia. }
  destruct (int_of_float_spec p pv Hg Hpv) as (z & E3' & _ & Hz & Hf).
  rewrite E3' in E3. injection E3 as ->.
  assert (U1 : (IZR w * IZR oh <= pv * IZR oh)%R)
    by (apply Rmult_le_compat_r; lra).
  assert (U2 : (pv * IZR oh < (IZR w + 1) * IZR oh)%R)
    by (apply Rmult_lt_compat_r; lra).
  split.
  - destruct (Z_le_gt_dec (w * oh) (th * ow)) as [|C]; [assumption|exfalso].
    assert (C' : (P + 1 <= IZR w * IZR oh)%R).
    { unfold P. rewrite <- !mult_IZR, <- plus_IZR. apply IZR_le. lia. }
    nra.
  - destruct (Z_le_gt_dec (th * ow) ((w + 1) * oh)) as [|C]; [assumption|exfalso].
    assert (C' : ((IZR w + 1) * IZR oh + 1 <= P)%R).
    { unfold P. rewrite <- !mult_IZR, <- !plus_IZR, <- mult_IZR, <- plus_IZR.
      apply IZR_le. lia. }
    nra.
Qed.

(** Below 2^24 the returned size fits the box, touches one side of it and
    has, on the other side, the proportional length within one pixel. *)
Lemma calculate_new_size_scaled self ow oh tw th :
  maintain_aspect_ratio self = true -> target_size self = (tw, th) ->
  0 < ow < 2 ^ 24 -> 0 < oh < 2 ^ 24 -> 0 < tw < 2 ^ 24 -> 0 < th < 2 ^ 24 ->
  exists w h,
    calculate_new_size self (ow, oh) = Ok (w, h) /\
    0 <= w <= tw /\ 0 <= h <= th /\
    ((w = tw /\ h * ow <= tw * oh <= (h + 1) * ow) \/
     (h = th /\ w * oh <= th * ow <= (w + 1) * oh)).
Proof.
  intros Hm Ht How Hoh Htw Hth.
  assert (2 ^ 24 < 2 ^ 52) by (apply Z.pow_lt_mono_r; lia).
  assert (2 ^ 24 < 2 ^ 1023) by (apply Z.pow_lt_mono_r; lia).
  destruct (calculate_new_size_bounded self ow oh tw th)
    as (w & h & E & Bw & Bh & _); try assumption; try lia.
  exists w, h. split; [assumption|]. split; [assumption|].
  split; [assumption|].
  destruct (calculate_new_size_inv self ow oh tw th w h Hm Ht E)
    as (r & Er & [(-> & q & Eq & Eh)|(-> & p & Ep & Ew)]).
  - left. split; [reflexivity|].
    apply (scale_height_accurate ow oh tw r q h); assumption.
  - right. split; [reflexivity|].
    apply (scale_width_accurate ow oh th r p w); assumption.
Qed.

(** An original too wide or too high for one pixel of the other side. *)
Lemma calculate_new_size_flat self ow oh tw th :
  maintain_aspect_ratio self = true -> target_size self = (tw, th) ->
  0 < ow < 2 ^ 24 -> 0 < oh < 2 ^ 24 -> 0 < tw < 2 ^ 24 -> 0 < th < 2 ^ 24 ->
  (tw * oh < ow -> calculate_new_size self (ow, oh) = Ok (tw, 0)) /\
  (th * ow < oh -> calculate_new_size self (ow, oh) = Ok (0, th)).
Proof.
  intros Hm Ht How Hoh Htw Hth.
  assert (2 ^ 24 < 2 ^ 52) by (apply Z.pow_lt_mono_r; lia).
  assert (2 ^ 24 < 2 ^ 1023) by (apply Z.pow_lt_mono_r; lia).
  destruct (calculate_new_size_bounded self ow oh tw th)
    as (w & h & E & _); try assumption; try lia.
  rewrite E. unfold calculate_new_size in E.
  rewrite Hm, Ht in E. cbn [negb] in E.
  apply bind_inv in E. destruct E as (r & Er & E).
  apply bind_inv in E. destruct E as ([nw nh] & E1 & E).
  split; intros Hflat.
  - assert (Hgt : (ow >? oh) = true) by (apply Z.gtb_lt; nia).
    rewrite Hgt in E1.
    apply bind_inv in E1. destruct E1 as (q & Eq & E1).
    apply bind_inv in E1. destruct E1 as (h' & Eh & E1).
    injection E1 as <- <-.
    destruct (scale_height_accurate ow oh tw r q h' How Hoh Htw Er Eq Eh)
      as [A1 A2].
    assert (h' = 0) by nia. subst h'.
    replace (0 >? th) with false in E
      by (symmetry; rewrite Z.gtb_ltb; apply Z.ltb_ge; lia).
    cbn [bind] in E.
    replace (tw >? tw) with false in E
      by (rewrite Z.gtb_ltb; symmetry; apply Z.ltb_irrefl).
    cbn [bind] in E. symmetry. exact E.
  - assert (Hgt : (ow >? oh) = false).
    { rewrite Z.gtb_ltb. apply Z.ltb_ge. nia. }
    rewrite Hgt in E1.
    apply bind_inv in E1. destruct E1 as (p & Ep & E1).
    apply bind_inv in E1. destruct E1 as (w' & Ew & E1).
    injection E1 as <- <-.
    destruct (scale_width_accurate ow oh th r p w' How Hoh Hth Er Ep Ew)
      as [A1 A2].
    assert (w' = 0) by nia. subst w'.
    replace (th >? th) with false in E
      by (rewrite Z.gtb_ltb; symmetry; apply Z.ltb_irrefl).
    cbn [bind] in E.
    replace (0 >? tw) with false in E
      by (symmetry; rewrite Z.gtb_ltb; apply Z.ltb_ge; lia).
    cbn [bind] in E. symmetry. exact E.
Qed.

End Proportions.

(** ** A whole run *)

Section WholeRun.

Lemma Permutation_filter {A : Type} (f : A -> bool) l1 l2 :
  Permutation l1 l2 -> Permutation (filter f l1) (filter f l2).
Proof.
  induction 1 as [|a l1 l2 _ IH|a b l|l1 l2 l3 _ IH1 _ IH2]; cbn [filter].
  - constructor.
  - destruct (f a); [constructor|]; assumption.
  - destruct (f a), (f b); try apply Permutation_refl.
    apply perm_swap.
  - eapply perm_trans; eassumption.
Qed.

(** A run that gets past [mkdir]: the instance it leaves, by the number of
    files that go through. *)
Lemma process_batch_result self c listing tr tr' self' log :
  process_batch self c listing tr = (tr', Ok (self', log)) ->
  let files := get_image_files self listing in
  run c (Mkdir (output_folder self)) = Ok tt /\
  same_config self self' /\
  skipped self' = skipped self /\
  processed self' =
    processed self + Z.of_nat (List.length (filter (completes self c) files)) /\
  failed self' =
    failed self +
    Z.of_nat (List.length (filter (fun e => negb (completes self c e)) files)) /\
  log = match files with [] => [] | _ => print_summary self' end /\
  process_files self c files (tr ++ [Mkdir (output_folder self)])%list
  = (self', tr').
Proof.
  intros H files.
  pose proof (process_batch_inv _ _ _ _ _ _ _ H) as Hm.
  rewrite (process_batch_run self c listing tr Hm) in H.
  cbv zeta in H. fold files in H.
  pose proof (process_files_counts c files self
                (tr ++ [Mkdir (output_folder self)])%list) as Hc.
  destruct (process_files self c files (tr ++ [Mkdir (output_folder self)])%list)
    as [s t] eqn:E.
  cbn [fst snd] in *. injection H as <- <- <-.
  destruct Hc as (C & S & P & F).
  split; [assumption|]. split; [assumption|]. split; [assumption|].
  split; [assumption|]. split; [assumption|]. split; reflexivity.
Qed.

End WholeRun.

(** ** Files saved and files counted *)

Section SavedAndCounted.

Lemma saved_compositing comp :
  (forall op, In op comp -> compositing op = true) -> saved comp = [].
Proof.
  induction comp as [|op l IH]; intros H; [reflexivity|].
  cbn [saved flat_map]. fold (saved l).
  rewrite IH by (intros ? ?; apply H; right; assumption).
  specialize (H op (or_introl eq_refl)).
  destruct op; try reflexivity; discriminate H.
Qed.

(** One file is saved once at most, and once if it goes through. *)
Lemma body_saves_inv self c name tr' r :
  resize_image_body self c name [] = (tr', r) ->
  (List.length (saved tr') <= 1)%nat /\
  (returns r = true -> List.length (saved tr') = 1%nat).
Proof.
  unfold resize_image_body. intros H.
  unfold mbind at 1 in H. unfold open_image in H. cbn [app] in H.
  destruct (decode c (join (input_folder self) name)) as [[size mode]|x].
  2:{ injection H as <- <-. cbn. split; [lia|intros E; discriminate E]. }
  unfold mbind at 1 in H.
  destruct (flatten_step self c size mode [Open (join (input_folder self) name)])
    as (comp & r0 & E & Hcomp & _).
  rewrite E in H. cbn [app] in H.
  pose proof (saved_compositing comp Hcomp) as Hs.
  destruct r0 as [m|x].
  2:{ injection H as <- <-. cbn [saved flat_map app]. fold (saved comp).
      rewrite Hs. cbn. split; [lia|intros E0; discriminate E0]. }
  unfold mbind at 1 in H. unfold lift in H.
  destruct (calculate_new_size self size) as [new_size|x].
  2:{ injection H as <- <-. cbn [saved flat_map app]. fold (saved comp).
      rewrite Hs. cbn. split; [lia|intros E0; discriminate E0]. }
  unfold mbind, call, ret in H.
  repeat match type of H with
         | context [run c ?op] => destruct (run c op) as [[]|?]
         end;
    injection H as <- <-;
    cbn [saved flat_map app]; fold (saved comp);
    repeat rewrite saved_app; rewrite Hs;
    cbn [saved flat_map app List.length returns];
    (split; [lia|first [reflexivity | intros E0; discriminate E0]]).
Qed.

Lemma body_saves self c e :
  (List.length
     (saved (fst (resize_image_body self c (entry_name e) []))) <= 1)%nat /\
  (completes self c e = true ->
   List.length
     (saved (fst (resize_image_body self c (entry_name e) []))) = 1%nat).
Proof.
  unfold completes.
  destruct (resize_image_body self c (entry_name e) []) as [tr' r] eqn:E.
  apply (body_saves_inv self c (entry_name e) tr' r E).
Qed.

Lemma process_files_saves c files : forall self tr,
  let '(self', tr') := process_files self c files tr in
  (Z.of_nat (List.length (saved tr)) + (processed self' - processed self)
   <= Z.of_nat (List.length (saved tr'))
   <= Z.of_nat (List.length (saved tr)) + Z.of_nat (List.length files)).
Proof.
  unfold process_files.
  induction files as [|e files IH]; intros self tr; cbn [fold_left fst snd].
  - cbn [List.length]. lia.
  - pose proof (resize_image_counts self c e tr) as H1.
    destruct (resize_image self c (entry_name e) tr) as [[self1 ok] tr1].
    destruct H1 as (_ & _ & _ & Cnt & Etr).
    specialize (IH self1 tr1).
    destruct (fold_left _ files (self1, tr1)) as [self' tr'].
    destruct (body_saves self c e) as [B1 B2].
    rewrite Etr, saved_app, length_app in IH.
    cbn [List.length]. 
    destruct (completes self c e).
    + specialize (B2 eq_refl). lia.
    + lia.
Qed.

End SavedAndCounted.

(** ** Further properties of the program *)

(** X1.  The constructor stores no output format exactly when it is given
    none or the empty string, and otherwise stores the format it is given,
    in lower case: the stored format is never empty and always in lower
    case, so that a format is treated alike in any case of its letters, and
    an empty one like none.  Building the instance again from the
    lower-cased argument, or from the stored format, gives it again. *)
Theorem init_output_format input_folder output_folder target_size keep
    format quality :
  let self :=
    init input_folder output_folder target_size keep format quality in
  (output_format self = None <-> format = None \/ format = Some "") /\
  (forall f, format = Some f -> f <> "" ->
             output_format self = Some (lower f)) /\
  (forall g, output_format self = Some g ->
             g <> "" /\ lower g = g /\
             exists f, format = Some f /\ f <> "" /\ g = lower f) /\
  self = init input_folder output_folder target_size keep
              (option_map lower format) quality /\
  self = init input_folder output_folder target_size keep
              (output_format self) quality.
Proof.
  cbv zeta. unfold init. cbn [output_format].
  destruct format as [[|ch f]|]; cbn [nonempty option_map lower].
  - split; [split; auto|]. split; [intros f E N; injection E as <-; contradiction|].
    split; [intros g E; discriminate E|]. split; reflexivity.
  - split; [split; [intros E; discriminate E
                   |intros [E|E]; discriminate E]|].
    split; [intros f0 E _; injection E as <-; reflexivity|].
    split.
    + intros g E. injection E as <-.
      split; [discriminate|]. split.
      * cbn [lower]. rewrite lower_char_idem, lower_idem. reflexivity.
      * exists (String ch f). split; [reflexivity|].
        split; [discriminate|reflexivity].
    + rewrite lower_char_idem, lower_idem. split; reflexivity.
  - split; [split; auto|]. split; [intros f E; discriminate E|].
    split; [intros g E; discriminate E|]. split; reflexivity.
Qed.

(** X2.  [get_image_files] yields an entry of the listing exactly when it
    is a regular file whose name is a non-empty stem, a dot, and one of
    [jpg], [jpeg], [png], [gif], [bmp], [tiff], [webp] in any case of its
    letters: a name that is the dot and the extension alone, or that goes
    on after the extension, is not taken. *)
Theorem get_image_files_names self listing e :
  In e (get_image_files self listing) <->
  In e listing /\ kind e = RegularFile /\
  exists a b,
    entry_name e = a ++ "." ++ b /\ a <> "" /\ rfind dot b = None /\
    In (lower b) ["jpg"; "jpeg"; "png"; "gif"; "bmp"; "tiff"; "webp"].
Proof.
  rewrite get_image_files_filter, filter_In.
  split.
  - intros [Hin He]. split; [assumption|].
    destruct (enumerated_name e He) as (a & b & En & Ha & Hb & Hd & _ & _ & Hs).
    split.
    + unfold Spec.enumerated in He. apply andb_prop in He.
      destruct He as [Hf _]. unfold is_file in Hf.
      destruct (kind e); [reflexivity|discriminate Hf|discriminate Hf].
    + exists a, b. split; [exact En|]. split; [assumption|].
      split; [assumption|]. apply supported_lower_cases. assumption.
  - intros (Hin & Hk & a & b & En & Ha & Hd & Hb). split; [assumption|].
    rewrite <- supported_iff_enumerated. unfold is_file. rewrite Hk.
    cbn [andb]. change (a ++ "." ++ b) with (a ++ String dot b) in En.
    assert (Hne : b <> "") by (intros ->; cbn in Hb; intuition discriminate).
    destruct (suffix_stem_parts a b Ha Hne Hd) as [Es _].
    rewrite En, Es, lower_dot. cbn in Hb.
    repeat (destruct Hb as [<-|Hb]; [reflexivity|]). contradiction.
Qed.

(** X3.  For every original size with a positive height and a width of at
    most 2^1023, and every target box with sides below 2^52,
    [calculate_new_size] returns a size, both components of which lie
    between 0 and the corresponding side of the box. *)
Theorem calculate_new_size_fits_box self ow oh tw th :
  target_size self = (tw, th) ->
  0 <= ow <= 2 ^ 1023 -> 0 < oh -> 0 < tw < 2 ^ 52 -> 0 < th < 2 ^ 52 ->
  exists w h,
    calculate_new_size self (ow, oh) = Ok (w, h) /\
    0 <= w <= tw /\ 0 <= h <= th.
Proof.
  intros Ht How Hoh Htw Hth.
  destruct (maintain_aspect_ratio self) eqn:Hm.
  - destruct (calculate_new_size_bounded self ow oh tw th)
      as (w & h & E & Bw & Bh & _); try assumption.
    exists w, h. auto.
  - exists tw, th. rewrite calculate_new_size_distort by assumption.
    rewrite Ht. split; [reflexivity|lia].
Qed.

Lemma calculate_new_size_fits_box_witness :
  exists w h,
    calculate_new_size (box 800 600) (1920, 1080) = Ok (w, h) /\
    0 <= w <= 800 /\ 0 <= h <= 600.
Proof.
  apply (calculate_new_size_fits_box (box 800 600) 1920 1080 800 600);
    [reflexivity|lia|lia|lia|lia].
Defined.

(** X4.  With the aspect ratio preserved and all four lengths below 2^24,
    the returned size fits the box and either has the target width and the
    proportional height [tw * oh / ow] rounded down (or one less, when that
    quotient is whole), or has the target height and the proportional width
    [th * ow / oh] rounded down (or one less, when whole). *)
Theorem calculate_new_size_proportional self ow oh tw th :
  maintain_aspect_ratio self = true -> target_size self = (tw, th) ->
  0 < ow < 2 ^ 24 -> 0 < oh < 2 ^ 24 -> 0 < tw < 2 ^ 24 -> 0 < th < 2 ^ 24 ->
  exists w h,
    calculate_new_size self (ow, oh) = Ok (w, h) /\
    0 <= w <= tw /\ 0 <= h <= th /\
    ((w = tw /\ h * ow <= tw * oh <= (h + 1) * ow) \/
     (h = th /\ w * oh <= th * ow <= (w + 1) * oh)).
Proof. apply calculate_new_size_scaled. Qed.

Lemma calculate_new_size_proportional_witness :
  exists w h,
    calculate_new_size (box 800 600) (1920, 1080) = Ok (w, h) /\
    0 <= w <= 800 /\ 0 <= h <= 600 /\
    ((w = 800 /\ h * 1920 <= 800 * 1080 <= (h + 1) * 1920) \/
     (h = 600 /\ w * 1080 <= 600 * 1920 <= (w + 1) * 1080)).
Proof.
  apply (calculate_new_size_proportional (box 800 600) 1920 1080 800 600);
    [reflexivity|reflexivity|lia|lia|lia|lia].
Defined.

(** X5.  With the aspect ratio preserved and all four lengths below 2^24,
    an original that has exactly the proportions of the target box is given
    the size of the box, or that size less one pixel on one side. *)
Theorem calculate_new_size_same_ratio self ow oh tw th :
  maintain_aspect_ratio self = true -> target_size self = (tw, th) ->
  0 < ow < 2 ^ 24 -> 0 < oh < 2 ^ 24 -> 0 < tw < 2 ^ 24 -> 0 < th < 2 ^ 24 ->
  ow * th = oh * tw ->
  exists w h,
    calculate_new_size self (ow, oh) = Ok (w, h) /\
    ((w = tw /\ h = th) \/ (w = tw /\ h = th - 1) \/ (w = tw - 1 /\ h = th)).
Proof.
  intros Hm Ht How Hoh Htw Hth Hr.
  destruct (calculate_new_size_scaled self ow oh tw th)
    as (w & h & E & Bw & Bh & [(Ew & H1 & H2)|(Eh & H1 & H2)]);
    try assumption; exists w, h; (split; [assumption|]).
  - assert (th <= h + 1) by nia.
    destruct (Z.eq_dec h th); [left|right; left]; split; lia.
  - assert (tw <= w + 1) by nia.
    destruct (Z.eq_dec w tw); [left|right; right]; split; lia.
Qed.

Lemma calculate_new_size_same_ratio_witness :
  exists w h,
    calculate_new_size (box 1 49) (1, 49) = Ok (w, h) /\
    ((w = 1 /\ h = 49) \/ (w = 1 /\ h = 49 - 1) \/ (w = 1 - 1 /\ h = 49)).
Proof.
  apply (calculate_new_size_same_ratio (box 1 49) 1 49 1 49);
    [reflexivity|reflexivity|lia|lia|lia|lia|reflexivity].
Defined.

(** X6.  With the aspect ratio preserved and a target box with sides of at
    most 2^53, a square original of any positive side is given the square
    whose side is the smaller side of the box. *)
Theorem calculate_new_size_of_square self n tw th :
  maintain_aspect_ratio self = true -> target_size self = (tw, th) ->
  0 < n -> 0 < tw <= 2 ^ 53 -> 0 < th <= 2 ^ 53 ->
  calculate_new_size self (n, n) = Ok (Z.min tw th, Z.min tw th).
Proof.
  intros Hm Ht Hn Htw Hth.
  apply (calculate_new_size_square self n tw th); assumption.
Qed.

Lemma calculate_new_size_of_square_witness :
  calculate_new_size (box 800 600) (500, 500)
  = Ok (Z.min 800 600, Z.min 800 600).
Proof.
  apply (calculate_new_size_of_square (box 800 600) 500 800 600);
    [reflexivity|reflexivity|lia|lia|lia].
Defined.

(** X7.  With the aspect ratio preserved and all four lengths below 2^24,
    an original that is less than [tw] times as wide as high and less than
    [th] times as high as wide is given a size with both sides at least 1,
    within the box. *)
Theorem calculate_new_size_positive self ow oh tw th :
  maintain_aspect_ratio self = true -> target_size self = (tw, th) ->
  0 < ow < 2 ^ 24 -> 0 < oh < 2 ^ 24 -> 0 < tw < 2 ^ 24 -> 0 < th < 2 ^ 24 ->
  ow < tw * oh -> oh < th * ow ->
  exists w h,
    calculate_new_size self (ow, oh) = Ok (w, h) /\
    1 <= w <= tw /\ 1 <= h <= th.
Proof.
  intros Hm Ht How Hoh Htw Hth Hwide Htall.
  destruct (calculate_new_size_scaled self ow oh tw th)
    as (w & h & E & Bw & Bh & [(Ew & H1 & H2)|(Eh & H1 & H2)]);
    try assumption; exists w, h; (split; [assumption|]).
  - assert (1 <= h) by nia. lia.
  - assert (1 <= w) by nia. lia.
Qed.

Lemma calculate_new_size_positive_witness :
  exists w h,
    calculate_new_size (box 800 600) (1920, 1080) = Ok (w, h) /\
    1 <= w <= 800 /\ 1 <= h <= 600.
Proof.
  apply (calculate_new_size_positive (box 800 600) 1920 1080 800 600);
    [reflexivity|reflexivity|lia|lia|lia|lia|lia|lia].
Defined.

(** X8.  With the aspect ratio preserved and all four lengths below 2^24,
    an original more than [tw] times as wide as high is given the target
    width and the height 0, and one more than [th] times as high as wide
    the width 0 and the target height. *)
Theorem calculate_new_size_degenerate self ow oh tw th :
  maintain_aspect_ratio self = true -> target_size self = (tw, th) ->
  0 < ow < 2 ^ 24 -> 0 < oh < 2 ^ 24 -> 0 < tw < 2 ^ 24 -> 0 < th < 2 ^ 24 ->
  (tw * oh < ow -> calculate_new_size self (ow, oh) = Ok (tw, 0)) /\
  (th * ow < oh -> calculate_new_size self (ow, oh) = Ok (0, th)).
Proof. apply calculate_new_size_flat. Qed.

Lemma calculate_new_size_degenerate_witness :
  (800 * 2 < 3000 -> calculate_new_size (box 800 600) (3000, 2) = Ok (800, 0)) /\
  (600 * 3000 < 2 -> calculate_new_size (box 800 600) (3000, 2) = Ok (0, 600)).
Proof.
  apply (calculate_new_size_degenerate (box 800 600) 3000 2 800 600);
    [reflexivity|reflexivity|lia|lia|lia|lia].
Defined.

(** X9.  When [resize_image] returns [True], the image was decoded, its new
    size computed (the target itself when the aspect ratio is not
    preserved), and the calls made for it are, in this order: the opening,
    the compositing calls if the image is flattened and none otherwise, the
    resizing to the new size, one [save] under the output folder with the
    upper-cased format (and the quality for [jpg] and [jpeg] only), and the
    two size queries; [processed] alone is incremented. *)
Theorem resize_image_processed_calls self c name tr self' tr' :
  resize_image self c name tr = (self', true, tr') ->
  exists size mode new_size comp,
    decode c (join (input_folder self) name) = Ok (size, mode) /\
    calculate_new_size self size = Ok new_size /\
    (maintain_aspect_ratio self = false -> new_size = target_size self) /\
    (forall op, In op comp -> compositing op = true) /\
    (needs_flatten self mode = false -> comp = []) /\
    tr' = (tr ++ Open (join (input_folder self) name) :: comp
              ++ resize_and_save self name new_size)%list /\
    self' = add_processed self.
Proof.
  unfold resize_image. intros H.
  destruct (resize_image_body self c name tr) as [tr1 [u|x]] eqn:E;
    [|discriminate H].
  injection H as <- <-.
  destruct (body_ok_inv self c name tr tr1 u E)
    as (size & mode & new_size & comp & Hd & Hc & Hcomp & Hnone & _ & ->).
  exists size, mode, new_size, comp.
  repeat split; try assumption.
  intros Hm. rewrite calculate_new_size_distort in Hc by assumption.
  injection Hc as <-. reflexivity.
Qed.

Lemma resize_image_processed_calls_witness :
  let self := box 800 600 in
  let c := mkCodec (fun _ => Ok ((1920, 1080), "RGB")) (fun _ => Ok tt) in
  exists size mode new_size comp,
    decode c (join (input_folder self) "a.jpg") = Ok (size, mode) /\
    calculate_new_size self size = Ok new_size /\
    (maintain_aspect_ratio self = false -> new_size = target_size self) /\
    (forall op, In op comp -> compositing op = true) /\
    (needs_flatten self mode = false -> comp = []) /\
    [Open "photos/a.jpg"; Resize (800, 450);
     Save "photos/resized/a.jpg" "JPG" (Some 85);
     GetSize "photos/a.jpg"; GetSize "photos/resized/a.jpg"]
    = ([] ++ Open (join (input_folder self) "a.jpg") :: comp
          ++ resize_and_save self "a.jpg" new_size)%list /\
    add_processed self = add_processed self.
Proof.
  intros self c.
  apply (resize_image_processed_calls self c "a.jpg" []).
  vm_compute. reflexivity.
Defined.

(** X10.  When the image is decoded but [calculate_new_size] raises (on a
    height of 0, for one), [resize_image] returns [False], increments
    [failed] alone, and has made no call after the opening but compositing
    ones: nothing is resized and nothing is saved. *)
Theorem resize_image_size_failure self c name tr size mode x :
  decode c (join (input_folder self) name) = Ok (size, mode) ->
  calculate_new_size self size = Raise x ->
  exists comp,
    resize_image self c name tr =
      (add_failed self, false,
       (tr ++ Open (join (input_folder self) name) :: comp)%list) /\
    (forall op, In op comp -> compositing op = true).
Proof.
  intros Hd Hc.
  destruct (body_size_fails self c name tr size mode x Hd Hc)
    as (comp & y & E & Hcomp).
  exists comp. split; [|assumption].
  unfold resize_image. rewrite E. reflexivity.
Qed.

Lemma resize_image_size_failure_witness :
  let self := box 800 600 in
  let c := mkCodec (fun _ => Ok ((100, 0), "RGB")) (fun _ => Ok tt) in
  exists comp,
    resize_image self c "a.png" [] =
      (add_failed self, false,
       ([] ++ Open (join (input_folder self) "a.png") :: comp)%list) /\
    (forall op, In op comp -> compositing op = true).
Proof.
  intros self c.
  apply (resize_image_size_failure self c "a.png" [] (100, 0) "RGB"
           ZeroDivisionError); reflexivity.
Defined.

(** X11.  When the compositing calls succeed, flattening makes them in this
    order: the white background of the size of the image, the conversion
    to [RGBA] for mode [P] only, then, for the modes [P] and [RGBA], the
    split of the bands and the paste with the alpha band as mask, and for
    any other mode (so for [LA]) the paste with no mask; the image that
    goes on is [RGB]. *)
Theorem flatten_calls c size mode tr :
  (forall op, compositing op = true -> run c op = Ok tt) ->
  flatten c size mode tr =
    ((tr ++ NewBackground size
         :: (if String.eqb mode "P" then [ConvertRGBA] else [])
         ++ (if String.eqb mode "P" || String.eqb mode "RGBA"
             then [SplitBands; Paste true] else [Paste false]))%list,
     Ok "RGB").
Proof.
  intros Hrun. unfold flatten, mbind, call, ret.
  rewrite (Hrun (NewBackground size) eq_refl).
  destruct (String.eqb mode "P") eqn:EP.
  - rewrite (Hrun ConvertRGBA eq_refl). cbn [String.eqb Ascii.eqb Bool.eqb].
    rewrite (Hrun SplitBands eq_refl), (Hrun (Paste true) eq_refl).
    cbn [orb app]. rewrite <- !app_assoc. reflexivity.
  - cbn [orb app]. destruct (String.eqb mode "RGBA").
    + rewrite (Hrun SplitBands eq_refl), (Hrun (Paste true) eq_refl).
      rewrite <- !app_assoc. reflexivity.
    + rewrite (Hrun (Paste false) eq_refl).
      rewrite <- !app_assoc. reflexivity.
Qed.

Lemma flatten_calls_witness :
  flatten (mkCodec (fun _ => Ok ((64, 64), "LA")) (fun _ => Ok tt))
    (64, 64) "LA" [] =
    (([] ++ NewBackground (64, 64)
         :: (if String.eqb "LA" "P" then [ConvertRGBA] else [])
         ++ (if String.eqb "LA" "P" || String.eqb "LA" "RGBA"
             then [SplitBands; Paste true] else [Paste false]))%list,
     Ok "RGB").
Proof.
  apply (flatten_calls (mkCodec (fun _ => Ok ((64, 64), "LA")) (fun _ => Ok tt))
           (64, 64) "LA" []).
  intros op _. reflexivity.
Defined.

(** X12.  The name given to [save] for the format [jpg] is [JPG]: under an
    imaging library that does not accept that name, every file whose
    format is [jpg] is counted as failed, whatever else succeeds. *)
Theorem resize_image_jpg_name self c name tr :
  effective_format self name = "jpg" ->
  (forall path q, run c (Save path "JPG" q) <> Ok tt) ->
  fst (resize_image self c name tr) = (add_failed self, false).
Proof.
  intros Ef Hrun. unfold resize_image.
  destruct (resize_image_body self c name tr) as [tr1 [u|x]] eqn:E;
    [|reflexivity].
  exfalso.
  destruct (body_ok_inv self c name tr tr1 u E)
    as (size & mode & new_size & comp & _ & _ & _ & _ & Hok & _).
  unfold resize_and_save in Hok. rewrite Ef in Hok.
  eapply Hrun. apply Hok. right. left. reflexivity.
Qed.

Lemma resize_image_jpg_name_witness :
  let self := box 800 600 in
  let c :=
    mkCodec (fun _ => Ok ((1920, 1080), "RGB"))
      (fun op =>
         match op with
         | Save _ format _ =>
             if String.eqb format "JPG" then Raise CodecError else Ok tt
         | _ => Ok tt
         end) in
  fst (resize_image self c "a.jpg" []) = (add_failed self, false).
Proof.
  intros self c.
  apply (resize_image_jpg_name self c "a.jpg" []).
  - reflexivity.
  - intros path q. cbn. discriminate.
Defined.

(** X13.  With an output format that is absent or non-empty and without a
    dot, two enumerated files are given the same output name exactly when
    they have the same stem and, if no format is configured, extensions
    that differ at most by case: such files are saved to the same path. *)
Theorem output_filename_collision self listing e1 e2 :
  In e1 (get_image_files self listing) ->
  In e2 (get_image_files self listing) ->
  (forall f, output_format self = Some f -> f <> "" /\ rfind dot f = None) ->
  (output_filename self (entry_name e1) = output_filename self (entry_name e2)
   <->
   stem (entry_name e1) = stem (entry_name e2) /\
   (output_format self = None ->
    lower (suffix (entry_name e1)) = lower (suffix (entry_name e2)))).
Proof.
  intros H1 H2 Hfmt.
  rewrite get_image_files_filter in H1, H2.
  apply filter_In in H1, H2. destruct H1 as [_ H1], H2 as [_ H2].
  destruct (output_filename_parts self e1 H1 Hfmt)
    as (a1 & b1 & f1 & _ & Ha1 & Et1 & Es1 & _ & Ef1 & N1 & D1 & ->).
  destruct (output_filename_parts self e2 H2 Hfmt)
    as (a2 & b2 & f2 & _ & Ha2 & Et2 & Es2 & _ & Ef2 & N2 & D2 & ->).
  rewrite Et1, Et2, Es1, Es2, !lower_dot.
  split.
  - intros E.
    destruct (suffix_stem_parts a1 f1 Ha1 N1 D1) as [S1 T1].
    destruct (suffix_stem_parts a2 f2 Ha2 N2 D2) as [S2 T2].
    split; [congruence|].
    intros Hn. rewrite Hn in Ef1, Ef2. subst f1 f2. congruence.
  - intros [-> Hb]. f_equal. f_equal.
    destruct (output_format self) as [g|]; [congruence|].
    specialize (Hb eq_refl). injection Hb as Hb. congruence.
Qed.

Lemma output_filename_collision_witness :
  output_filename (box 800 600) "a.JPG" = output_filename (box 800 600) "a.jpg"
  <->
  stem "a.JPG" = stem "a.jpg" /\
  (output_format (box 800 600) = None ->
   lower (suffix "a.JPG") = lower (suffix "a.jpg")).
Proof.
  apply (output_filename_collision (box 800 600)
           [mkEntry "a.JPG" RegularFile; mkEntry "a.jpg" RegularFile]
           (mkEntry "a.JPG" RegularFile) (mkEntry "a.jpg" RegularFile)).
  - vm_compute. left. reflexivity.
  - vm_compute. right. left. reflexivity.
  - intros f H. vm_compute in H. discriminate H.
Defined.

(** X14.  With no output format configured, an enumerated file is written
    under its own name exactly when its extension is already in lower
    case. *)
Theorem output_filename_unchanged self listing e :
  In e (get_image_files self listing) ->
  output_format self = None ->
  (output_filename self (entry_name e) = entry_name e <->
   lower (suffix (entry_name e)) = suffix (entry_name e)).
Proof.
  intros H Hn.
  rewrite get_image_files_filter in H. apply filter_In in H.
  destruct H as [_ H].
  destruct (output_filename_parts self e H)
    as (a & b & f & En & Ha & Et & Es & _ & Ef & N & D & ->).
  { intros f E. rewrite Hn in E. discriminate E. }
  rewrite Hn in Ef. subst f. rewrite Es, lower_dot, En.
  split.
  - intros E.
    destruct (enumerated_name e H) as (a' & b' & En' & Ha' & Hb' & Hd' & _).
    assert (Eb : b' = b /\ a' = a).
    { rewrite En in En'.
      destruct (suffix_stem_parts a' b' Ha' Hb' Hd') as [S1 T1].
      rewrite <- En' in S1, T1. rewrite En in Es, Et.
      split; congruence. }
    destruct Eb as [-> ->].
    destruct (suffix_stem_parts a (lower b) Ha N D) as [S1 _].
    destruct (suffix_stem_parts a b Ha Hb' Hd') as [S2 _].
    congruence.
  - intros E. injection E as ->. reflexivity.
Qed.

Lemma output_filename_unchanged_witness :
  output_filename (box 800 600) "a.jpg" = "a.jpg" <->
  lower (suffix "a.jpg") = suffix "a.jpg".
Proof.
  apply (output_filename_unchanged (box 800 600)
           [mkEntry "a.jpg" RegularFile] (mkEntry "a.jpg" RegularFile)).
  - vm_compute. left. reflexivity.
  - reflexivity.
Defined.

(** X15.  For the instance [main] creates from arguments whose format is
    absent or one of the parser's choices, the format of every enumerated
    file is one of [jpg], [jpeg], [png], [gif], [bmp], [tiff], [webp], in
    lower case, and the name given to [save] is that format in upper
    case. *)
Theorem effective_format_names args listing e :
  (forall f, arg_output_format args = Some f -> In f FORMAT_CHOICES) ->
  In e (get_image_files (make_resizer args) listing) ->
  In (effective_format (make_resizer args) (entry_name e))
     ["jpg"; "jpeg"; "png"; "gif"; "bmp"; "tiff"; "webp"] /\
  In (upper (effective_format (make_resizer args) (entry_name e)))
     ["JPG"; "JPEG"; "PNG"; "GIF"; "BMP"; "TIFF"; "WEBP"].
Proof.
  intros Hf H.
  rewrite get_image_files_filter in H. apply filter_In in H.
  destruct H as [_ H].
  destruct (enumerated_name e H) as (a & b & _ & _ & _ & _ & Es & _ & Hs).
  assert (G : forall x,
             In x ["jpg"; "jpeg"; "png"; "gif"; "bmp"; "tiff"; "webp"] ->
             In x ["jpg"; "jpeg"; "png"; "gif"; "bmp"; "tiff"; "webp"] /\
             In (upper x) ["JPG"; "JPEG"; "PNG"; "GIF"; "BMP"; "TIFF"; "WEBP"]).
  { intros x Hx. split; [assumption|].
    cbn in Hx.
    repeat (destruct Hx as [<-|Hx]; [cbn; tauto|]). contradiction. }
  apply G. unfold effective_format, make_resizer, init. cbn [output_format].
  destruct (arg_output_format args) as [f|] eqn:Ef.
  - specialize (Hf f eq_refl). cbn in Hf.
    repeat (destruct Hf as [<-|Hf]; [cbn; tauto|]). contradiction.
  - cbn [nonempty option_map]. rewrite Es. cbn [tail1].
    apply (supported_lower_cases (lower b)). assumption.
Qed.

Lemma effective_format_names_witness :
  let args := mkNamespace "photos" None (800, 600) (Some "jpg") 85 true in
  In (effective_format (make_resizer args) "scan.TIFF")
     ["jpg"; "jpeg"; "png"; "gif"; "bmp"; "tiff"; "webp"] /\
  In (upper (effective_format (make_resizer args) "scan.TIFF"))
     ["JPG"; "JPEG"; "PNG"; "GIF"; "BMP"; "TIFF"; "WEBP"].
Proof.
  intros args.
  apply (effective_format_names args [mkEntry "scan.TIFF" RegularFile]
           (mkEntry "scan.TIFF" RegularFile)).
  - intros f E. injection E as <-. left. reflexivity.
  - vm_compute. left. reflexivity.
Defined.

(** X16.  A run of [process_batch] that returns has first created the
    output folder, and never again; it has opened the enumerated files, each
    once and in the order of the enumeration, and nothing else; and every
    path it has saved to is the output name of an enumerated file under the
    output folder. *)
Theorem process_batch_reads_and_writes self c listing tr' self' log :
  process_batch self c listing [] = (tr', Ok (self', log)) ->
  exists rest,
    tr' = Mkdir (output_folder self) :: rest /\
    (forall op, In op rest -> forall x, op <> Mkdir x) /\
    opened tr' =
      map (fun e => join (input_folder self) (entry_name e))
          (get_image_files self listing) /\
    (forall p, In p (saved tr') ->
       exists e, In e (get_image_files self listing) /\
         p = join (output_folder self) (output_filename self (entry_name e))).
Proof.
  intros H.
  destruct (process_batch_result _ _ _ _ _ _ _ H) as (_ & _ & _ & _ & _ & _ & E).
  cbn [app] in E.
  destruct (process_files_calls c (get_image_files self listing) self
              [Mkdir (output_folder self)])
    as (added & Ea & Ho & Hm & Hs).
  rewrite E in Ea. cbn [snd app] in Ea. subst tr'.
  exists added. split; [reflexivity|]. split; [assumption|].
  split; [exact Ho|exact Hs].
Qed.

Lemma process_batch_reads_and_writes_witness :
  let self := box 800 600 in
  let c :=
    mkCodec
      (fun path => if String.eqb path "photos/b.png" then Raise CodecError
                   else Ok ((1920, 1080), "RGB"))
      (fun _ => Ok tt) in
  let listing :=
    [mkEntry "a.jpg" RegularFile; mkEntry "notes.txt" RegularFile;
     mkEntry "b.png" RegularFile] in
  let tr' :=
    [Mkdir "photos/resized"; Open "photos/a.jpg"; Resize (800, 450);
     Save "photos/resized/a.jpg" "JPG" (Some 85); GetSize "photos/a.jpg";
     GetSize "photos/resized/a.jpg"; Open "photos/b.png"] in
  exists rest,
    tr' = Mkdir (output_folder self) :: rest /\
    (forall op, In op rest -> forall x, op <> Mkdir x) /\
    opened tr' =
      map (fun e => join (input_folder self) (entry_name e))
          (get_image_files self listing) /\
    (forall p, In p (saved tr') ->
       exists e, In e (get_image_files self listing) /\
         p = join (output_folder self) (output_filename self (entry_name e))).
Proof.
  intros self c listing tr'.
  apply (process_batch_reads_and_writes self c listing tr'
           (mkResizer "photos" "photos/resized" (800, 600) true None 85 1 1 0)
           (print_summary
              (mkResizer "photos" "photos/resized" (800, 600) true None 85 1 1 0))).
  vm_compute. reflexivity.
Defined.

(** X17.  When the input folder holds no supported image, [process_batch]
    calls [mkdir] and nothing else, leaves the counters as they were and
    logs no summary (and an exception of [mkdir] leaves the method). *)
Theorem process_batch_nothing_to_do self c listing tr :
  get_image_files self listing = [] ->
  process_batch self c listing tr =
    ((tr ++ [Mkdir (output_folder self)])%list,
     match run c (Mkdir (output_folder self)) with
     | Ok _ => Ok (self, [])
     | Raise x => Raise x
     end).
Proof.
  intros H. unfold process_batch, mbind, call, ret. rewrite H.
  destruct (run c (Mkdir (output_folder self))) as [[]|x]; reflexivity.
Qed.

Lemma process_batch_nothing_to_do_witness :
  let self := box 800 600 in
  let c := mkCodec (fun _ => Ok ((1920, 1080), "RGB")) (fun _ => Ok tt) in
  let listing :=
    [mkEntry "notes.txt" RegularFile; mkEntry "old.jpg" Directory;
     mkEntry ".png" RegularFile] in
  process_batch self c listing [] =
    (([] ++ [Mkdir (output_folder self)])%list,
     match run c (Mkdir (output_folder self)) with
     | Ok _ => Ok (self, [])
     | Raise x => Raise x
     end).
Proof.
  intros self c listing.
  apply (process_batch_nothing_to_do self c listing []). reflexivity.
Defined.

(** X18.  A run of [process_batch] on a fresh instance that returns and
    found [n] images, [k] of which went through, logs as its summary: the
    heading, the line of the [k] processed images, the line of the [n - k]
    failed ones exactly when [k < n], and the output folder; it logs no
    summary when it found no image. *)
Theorem process_batch_summary self c listing tr tr' self' log :
  processed self = 0 -> failed self = 0 -> skipped self = 0 ->
  process_batch self c listing tr = (tr', Ok (self', log)) ->
  let files := get_image_files self listing in
  let n := Z.of_nat (List.length files) in
  let k := Z.of_nat (List.length (filter (completes self c) files)) in
  log =
    match files with
    | [] => []
    | _ =>
        ([LogRule; LogComplete; LogRule; LogProcessed k]
         ++ (if (k <? n)%Z then [LogFailed (n - k)] else [])
         ++ [LogOutputFolder (output_folder self)])%list
    end.
Proof.
  intros Hp Hf Hs H. cbv zeta.
  destruct (process_batch_result _ _ _ _ _ _ _ H)
    as (_ & C & S & P & F & -> & _).
  remember (get_image_files self listing) as files eqn:Efiles.
  pose proof (filter_split_length (completes self c) files) as Hl.
  set (n := Z.of_nat (List.length files)) in *.
  set (k := Z.of_nat (List.length (filter (completes self c) files))) in *.
  assert (Ef : failed self' = n - k) by (unfold n, k; lia).
  destruct C as (_ & Eo & _).
  assert (Es : print_summary self' =
               ([LogRule; LogComplete; LogRule; LogProcessed k]
                ++ (if (k <? n)%Z then [LogFailed (n - k)] else [])
                ++ [LogOutputFolder (output_folder self)])%list).
  { unfold print_summary. rewrite P, Ef, Hp, S, Hs, <- Eo.
    cbn [Z.add Z.gtb Z.compare].
    replace (n - k >? 0) with (k <? n)%Z
      by (rewrite Z.gtb_ltb; destruct (Z.ltb_spec k n), (Z.ltb_spec 0 (n - k));
          reflexivity || lia).
    reflexivity. }
  destruct files; [reflexivity|exact Es].
Qed.

Lemma process_batch_summary_witness :
  let self := box 800 600 in
  let c :=
    mkCodec
      (fun path => if String.eqb path "photos/b.png" then Raise CodecError
                   else Ok ((1920, 1080), "RGB"))
      (fun _ => Ok tt) in
  let listing :=
    [mkEntry "a.jpg" RegularFile; mkEntry "b.png" RegularFile;
     mkEntry "c.PNG" RegularFile] in
  let files := get_image_files self listing in
  let n := Z.of_nat (List.length files) in
  let k := Z.of_nat (List.length (filter (completes self c) files)) in
  [LogRule; LogComplete; LogRule; LogProcessed 2; LogFailed 1;
   LogOutputFolder "photos/resized"] =
    match files with
    | [] => []
    | _ =>
        ([LogRule; LogComplete; LogRule; LogProcessed k]
         ++ (if (k <? n)%Z then [LogFailed (n - k)] else [])
         ++ [LogOutputFolder (output_folder self)])%list
    end.
Proof.
  intros self c listing.
  apply (process_batch_summary self c listing []
           (snd (process_files self c (get_image_files self listing)
                   [Mkdir "photos/resized"]))
           (mkResizer "photos" "photos/resized" (800, 600) true None 85 2 1 0));
    [reflexivity|reflexivity|reflexivity|vm_compute; reflexivity].
Defined.

(** X19.  The instance [process_batch] leaves and the summary it logs do
    not depend on the order in which the folder is listed, the answers of
    the imaging library being those of the model, a function of the call. *)
Theorem process_batch_order_independent self c l1 l2 tr tr1 tr2 s1 s2 log1 log2 :
  Permutation l1 l2 ->
  process_batch self c l1 tr = (tr1, Ok (s1, log1)) ->
  process_batch self c l2 tr = (tr2, Ok (s2, log2)) ->
  s1 = s2 /\ log1 = log2.
Proof.
  intros Hperm H1 H2.
  destruct (process_batch_result _ _ _ _ _ _ _ H1)
    as (_ & C1 & S1 & P1 & F1 & -> & _).
  destruct (process_batch_result _ _ _ _ _ _ _ H2)
    as (_ & C2 & S2 & P2 & F2 & -> & _).
  rewrite !get_image_files_filter in *.
  pose proof (Permutation_filter Spec.enumerated _ _ Hperm) as Hf.
  assert (E : s1 = s2).
  { apply resizer_ext.
    - apply same_config_trans with self; [|assumption].
      destruct C1 as (? & ? & ? & ? & ? & ?). repeat split; congruence.
    - rewrite P1, P2. do 2 f_equal. apply Permutation_length.
      apply Permutation_filter. assumption.
    - rewrite F1, F2. do 2 f_equal. apply Permutation_length.
      apply Permutation_filter. assumption.
    - congruence. }
  split; [assumption|]. rewrite E.
  destruct (filter Spec.enumerated l1) as [|a l] eqn:E1.
  - apply Permutation_nil in Hf. rewrite Hf. reflexivity.
  - destruct (filter Spec.enumerated l2) as [|b m] eqn:E2; [|reflexivity].
    apply Permutation_sym, Permutation_nil in Hf. discriminate Hf.
Qed.

Lemma process_batch_order_independent_witness :
  let self := box 800 600 in
  let c :=
    mkCodec
      (fun path => if String.eqb path "photos/b.png" then Raise CodecError
                   else Ok ((1920, 1080), "RGB"))
      (fun _ => Ok tt) in
  let s := mkResizer "photos" "photos/resized" (800, 600) true None 85 1 1 0 in
  s = s /\ print_summary s = print_summary s.
Proof.
  intros self c s.
  apply (process_batch_order_independent self c
           [mkEntry "a.jpg" RegularFile; mkEntry "b.png" RegularFile]
           [mkEntry "b.png" RegularFile; mkEntry "a.jpg" RegularFile]
           []
           (snd (process_files self c
                   [mkEntry "a.jpg" RegularFile; mkEntry "b.png" RegularFile]
                   [Mkdir "photos/resized"]))
           (snd (process_files self c
                   [mkEntry "b.png" RegularFile; mkEntry "a.jpg" RegularFile]
                   [Mkdir "photos/resized"]))
           s s (print_summary s) (print_summary s)).
  - apply perm_swap.
  - vm_compute. reflexivity.
  - vm_compute. reflexivity.
Defined.

(** X20.  In a run of [process_batch] that returns, every file counted as
    processed has been saved, and no file more than once: the number of
    calls of [save] is at least the increase of [processed] and at most the
    number of enumerated files. *)
Theorem process_batch_saves_processed self c listing tr' self' log :
  process_batch self c listing [] = (tr', Ok (self', log)) ->
  processed self' - processed self
  <= Z.of_nat (List.length (saved tr'))
  <= Z.of_nat (List.length (get_image_files self listing)).
Proof.
  intros H.
  destruct (process_batch_result _ _ _ _ _ _ _ H)
    as (_ & _ & _ & _ & _ & _ & E).
  pose proof (process_files_saves c (get_image_files self listing) self
                ([] ++ [Mkdir (output_folder self)])%list) as Hs.
  rewrite E in Hs. cbn [app saved flat_map List.length] in Hs. lia.
Qed.

Lemma process_batch_saves_processed_witness :
  let self := box 800 600 in
  let c :=
    mkCodec (fun _ => Ok ((1920, 1080), "RGB"))
      (fun op => match op with GetSize _ => Raise CodecError | _ => Ok tt end) in
  let listing := [mkEntry "a.jpg" RegularFile] in
  let self' :=
    mkResizer "photos" "photos/resized" (800, 600) true None 85 0 1 0 in
  let tr' :=
    [Mkdir "photos/resized"; Open "photos/a.jpg"; Resize (800, 450);
     Save "photos/resized/a.jpg" "JPG" (Some 85); GetSize "photos/a.jpg"] in
  processed self' - processed self
  <= Z.of_nat (List.length (saved tr'))
  <= Z.of_nat (List.length (get_image_files self listing)).
Proof.
  intros self c listing self' tr'.
  apply (process_batch_saves_processed self c listing tr' self'
           (print_summary self')).
  vm_compute. reflexivity.
Defined.

(** X21.  [main] returns exactly when the input folder exists, is a
    directory, and the output folder can be created: no failure of an image
    makes it exit.  When it exits instead, the status is 1 and no image has
    been opened; on a missing input folder, or one that is not a directory,
    it has called nothing at all. *)
Theorem main_outcome fs c args :
  ((exists tr resizer summary, main fs c args = (tr, Returned resizer summary))
   <->
   path_exists fs (arg_input_folder args) = true /\
   path_isdir fs (arg_input_folder args) = true /\
   run c (Mkdir (output_folder (make_resizer args))) = Ok tt) /\
  (forall tr code,
      main fs c args = (tr, SysExit code) -> code = 1 /\ opened tr = []) /\
  (path_exists fs (arg_input_folder args) = false \/
   path_isdir fs (arg_input_folder args) = false ->
   main fs c args = ([], SysExit 1)).
Proof.
  unfold main.
  destruct (path_exists fs (arg_input_folder args)); cbn [negb];
    [|split; [split; [intros (? & ? & ? & ?); discriminate
                     |intros (? & _); discriminate]
             |split; [intros tr code H; injection H as <- <-; auto|auto]]].
  destruct (path_isdir fs (arg_input_folder args)); cbn [negb];
    [|split; [split; [intros (? & ? & ? & ?); discriminate
                     |intros (_ & ? & _); discriminate]
             |split; [intros tr code H; injection H as <- <-; auto|auto]]].
  set (resizer := make_resizer args).
  set (listing := iterdir fs (input_folder resizer)).
  unfold process_batch, mbind, call. cbn [app].
  destruct (run c (Mkdir (output_folder resizer))) as [[]|x].
  - assert (E : exists tr r s,
               (match get_image_files resizer listing with
                | [] => ret (resizer, [])
                | _ :: _ =>
                    fun tr =>
                      let '(self', tr') :=
                        process_files resizer c
                          (get_image_files resizer listing) tr in
                      (tr', Ok (self', print_summary self'))
                end) [Mkdir (output_folder resizer)] = (tr, Ok (r, s))).
    { destruct (get_image_files resizer listing) as [|e l];
        [unfold ret; eauto|].
      destruct (process_files resizer c (e :: l) [Mkdir (output_folder resizer)])
        as [s t]. eauto. }
    destruct E as (tr & r & s & ->).
    split; [split; [auto|eauto]|].
    split; [intros tr0 code H; discriminate H|].
    intros [H|H]; discriminate H.
  - split; [split; [intros (? & ? & ? & ?); discriminate
                   |intros (_ & _ & ?); discriminate]|].
    split; [intros tr code H; injection H as <- <-; auto|].
    intros [H|H]; discriminate H.
Qed.

(** X22.  When [main] returns, the instance it leaves has counted every
    supported image of the input folder once, as processed or as failed,
    and none as skipped; the images opened are those, in the order of the
    listing; and a summary was logged exactly when there was one at
    least. *)
Theorem main_totals fs c args tr resizer summary :
  main fs c args = (tr, Returned resizer summary) ->
  let files :=
    get_image_files (make_resizer args) (iterdir fs (arg_input_folder args)) in
  processed resizer + failed resizer = Z.of_nat (List.length files) /\
  processed resizer =
    Z.of_nat (List.length (filter (completes (make_resizer args) c) files)) /\
  skipped resizer = 0 /\
  opened tr = map (fun e => join (arg_input_folder args) (entry_name e)) files /\
  (summary = [] <-> files = []).
Proof.
  intros H files. unfold main in H.
  destruct (path_exists fs (arg_input_folder args)); [|discriminate H].
  destruct (path_isdir fs (arg_input_folder args)); [|discriminate H].
  cbn [negb] in H. cbv zeta in H.
  change (input_folder (make_resizer args)) with (arg_input_folder args) in H.
  destruct (process_batch (make_resizer args) c
              (iterdir fs (arg_input_folder args)) [])
    as [tr0 [[r s]|x]] eqn:E; [|discriminate H].
  injection H as <- <- <-.
  destruct (process_batch_result _ _ _ _ _ _ _ E)
    as (_ & _ & S & P & F & El & Et).
  fold files in P, F, El, Et.
  pose proof (filter_split_length (completes (make_resizer args) c) files) as Hl.
  change (processed (make_resizer args)) with 0 in P.
  change (failed (make_resizer args)) with 0 in F.
  change (skipped (make_resizer args)) with 0 in S.
  split; [lia|]. split; [lia|]. split; [assumption|].
  split.
  - destruct (process_files_calls c files (make_resizer args)
                ([] ++ [Mkdir (output_folder (make_resizer args))])%list)
      as (added & Ea & Ho & _).
    rewrite Et in Ea. cbn [snd app] in Ea. rewrite Ea.
    cbn [opened flat_map app]. exact Ho.
  - rewrite El. destruct files; [tauto|].
    unfold print_summary. cbn [app]. split; discriminate.
Qed.

Lemma main_totals_witness :
  let fs :=
    mkFileSystem (fun _ => true) (fun _ => true)
      (fun _ => [mkEntry "a.jpg" RegularFile; mkEntry "notes.txt" RegularFile;
                 mkEntry "b.png" RegularFile]) in
  let c :=
    mkCodec
      (fun path => if String.eqb path "photos/b.png" then Raise CodecError
                   else Ok ((1920, 1080), "RGB"))
      (fun _ => Ok tt) in
  let args := default_args "photos" in
  let resizer :=
    mkResizer "photos" "photos/resized" (800, 600) true None 85 1 1 0 in
  let tr :=
    [Mkdir "photos/resized"; Open "photos/a.jpg"; Resize (800, 450);
     Save "photos/resized/a.jpg" "JPG" (Some 85); GetSize "photos/a.jpg";
     GetSize "photos/resized/a.jpg"; Open "photos/b.png"] in
  let files :=
    get_image_files (make_resizer args) (iterdir fs (arg_input_folder args)) in
  processed resizer + failed resizer = Z.of_nat (List.length files) /\
  processed resizer =
    Z.of_nat (List.length (filter (completes (make_resizer args) c) files)) /\
  skipped resizer = 0 /\
  opened tr = map (fun e => join (arg_input_folder args) (entry_name e)) files /\
  (print_summary resizer = [] <-> files = []).
Proof.
  intros fs c args resizer tr.
  apply (main_totals fs c args tr resizer (print_summary resizer)).
  vm_compute. reflexivity.
Defined.
